(** * editor-custom: Block lifecycle, link inline tool and move tunes

    A shallow embedding of
      - src/components/block/index.ts  (class Block)
      - src/components/inline-tools/inline-tool-underline.ts, second part
        (class LinkInlineTool)
      - src/components/block-tunes/block-tune-move-up.ts and
        block-tune-move-down.ts  (classes MoveUpTune, MoveDownTune)
    and the properties the specification states about them.

    Stateful code is written in state-passing style. What the classes call
    but do not define (the DOM, the selection utility, the editor API, the
    tool and tune instances, components/utils) appears as record fields,
    section variables or entries of a trace of calls. Strings are sequences
    of code units below 256. *)

From Stdlib Require Import ZArith String Ascii List Bool Lia.
From stdpp Require Import base option list gmap strings.

Set Warnings "-register-all".

Local Open Scope Z_scope.
Local Open Scope string_scope.

(* ===================================================================== *)
(** * JavaScript values and completions                                   *)
(* ===================================================================== *)

Module JS.

(** JSON-like data a tool or a tune stores. Numbers are restricted to
    integers; objects keep their entries in [Object.entries] order. *)
Inductive value :=
| VUndefined
| VNull
| VBool (b : bool)
| VNum (n : Z)
| VStr (s : string)
| VArr (items : list value)
| VObj (entries : list (string * value)).

(** ToBoolean *)
Definition truthy (v : value) : bool :=
  match v with
  | VUndefined | VNull => false
  | VBool b => b
  | VNum n => negb (n =? 0)%Z
  | VStr s => negb (String.eqb s "")
  | VArr _ | VObj _ => true
  end.

(** [obj[key]] on an optional property: a missing key reads as undefined. *)
Definition get (o : gmap string value) (key : string) : value :=
  default VUndefined (o !! key).

(** Outcome of running a piece of JavaScript that may throw; used as well
    for an awaited promise (fulfilled / rejected). *)
Inductive completion (A : Type) :=
| Normal (a : A)
| Throw (e : string).
Arguments Normal {A} a.
Arguments Throw {A} e.

End JS.

(* ===================================================================== *)
(** * Regular expressions (the fragment the link tool uses)               *)
(* ===================================================================== *)

Module Regex.

Inductive re :=
| Void
| Eps
| Class (p : ascii -> bool)
| Cat (r1 r2 : re)
| Alt (r1 r2 : re)
| Star (r : re).

(** The words of a regular expression. *)
Inductive matches : re -> list ascii -> Prop :=
| m_eps : matches Eps []
| m_class p c : p c = true -> matches (Class p) [c]
| m_cat r1 r2 s1 s2 : matches r1 s1 -> matches r2 s2 -> matches (Cat r1 r2) (s1 ++ s2)
| m_alt_l r1 r2 s : matches r1 s -> matches (Alt r1 r2) s
| m_alt_r r1 r2 s : matches r2 s -> matches (Alt r1 r2) s
| m_star_nil r : matches (Star r) []
| m_star_cons r s1 s2 : matches r s1 -> matches (Star r) s2 -> matches (Star r) (s1 ++ s2).

Fixpoint nullable (r : re) : bool :=
  match r with
  | Void => false
  | Eps => true
  | Class _ => false
  | Cat a b => nullable a && nullable b
  | Alt a b => nullable a || nullable b
  | Star _ => true
  end.

(** Smart constructors keep the derivatives small. *)
Definition cat (a b : re) : re :=
  match a, b with
  | Void, _ => Void
  | _, Void => Void
  | Eps, _ => b
  | _, Eps => a
  | _, _ => Cat a b
  end.

Definition alt (a b : re) : re :=
  match a, b with
  | Void, _ => b
  | _, Void => a
  | _, _ => Alt a b
  end.

Fixpoint der (c : ascii) (r : re) : re :=
  match r with
  | Void => Void
  | Eps => Void
  | Class p => if p c then Eps else Void
  | Cat a b =>
      if nullable a then alt (cat (der c a) b) (der c b) else cat (der c a) b
  | Alt a b => alt (der c a) (der c b)
  | Star a => cat (der c a) (Star a)
  end.

Fixpoint accepts (r : re) (s : list ascii) : bool :=
  match s with
  | [] => nullable r
  | c :: s' => accepts (der c r) s'
  end.

(** Derived forms: [r?], [r+], [r{n}], [r{n,}], [r{n,m}]. *)
Definition opt (r : re) : re := Alt r Eps.
Definition plus (r : re) : re := Cat r (Star r).

Fixpoint times (n : nat) (r : re) : re :=
  match n with
  | O => Eps
  | S n' => Cat r (times n' r)
  end.

Definition at_least (n : nat) (r : re) : re := Cat (times n r) (Star r).

Fixpoint up_to (n : nat) (r : re) : re :=
  match n with
  | O => Eps
  | S n' => opt (Cat r (up_to n' r))
  end.

Definition between (lo hi : nat) (r : re) : re :=
  Cat (times lo r) (up_to (hi - lo) r).

(** Any code unit, any number of times: what follows an unanchored prefix. *)
Definition anything : re := Star (Class (fun _ => true)).

(** Character predicates, on code units below 256. *)
Definition code (c : ascii) : N := N_of_ascii c.

Definition in_range (lo hi : N) (c : ascii) : bool :=
  ((lo <=? code c) && (code c <=? hi))%N.

Definition is_digit : ascii -> bool := in_range 48 57.          (* \d *)
Definition is_lower : ascii -> bool := in_range 97 122.         (* a-z *)
Definition is_upper : ascii -> bool := in_range 65 90.          (* A-Z *)
Definition is_letter (c : ascii) : bool := is_lower c || is_upper c.

(** [\w] *)
Definition is_word (c : ascii) : bool :=
  is_letter c || is_digit c || Ascii.eqb c "_".

(** [\s] restricted to code units below 256: TAB, LF, VT, FF, CR, SP, NBSP. *)
Definition is_space (c : ascii) : bool :=
  in_range 9 13 c || (code c =? 32)%N || (code c =? 160)%N.

Definition one_of (cs : string) (c : ascii) : bool :=
  existsb (Ascii.eqb c) (list_ascii_of_string cs).

(** A literal character; [ci] is the regular expression's [i] flag. *)
Definition fold_case (c : ascii) : ascii :=
  if is_lower c then ascii_of_N (code c - 32) else c.

Definition chr (ci : bool) (c : ascii) : re :=
  Class (fun x => if ci then Ascii.eqb (fold_case x) (fold_case c) else Ascii.eqb x c).

Fixpoint lit (ci : bool) (s : string) : re :=
  match s with
  | EmptyString => Eps
  | String c s' => Cat (chr ci c) (lit ci s')
  end.

(** Whether some character class of the expression admits [c]. *)
Fixpoint admits (r : re) (c : ascii) : bool :=
  match r with
  | Void | Eps => false
  | Class p => p c
  | Cat a b | Alt a b => admits a c || admits b c
  | Star a => admits a c
  end.

(** Every code unit below 256. *)
Definition all_ascii : list ascii := map ascii_of_nat (seq 0 256).

(** A syntactic check that every word of the expression contains [c]. *)
Fixpoint requires (r : re) (c : ascii) : bool :=
  match r with
  | Void => true
  | Eps => false
  | Class p => forallb (fun x => implb (p x) (Ascii.eqb x c)) all_ascii
  | Cat a b => requires a c || requires b c
  | Alt a b => requires a c && requires b c
  | Star _ => false
  end.

(** [pattern.test(str)] for a pattern anchored at both ends. *)
Definition test_anchored (r : re) (str : string) : bool :=
  accepts r (list_ascii_of_string str).

(** [pattern.test(str)] for a pattern anchored at the start only. *)
Definition test_prefix (r : re) (str : string) : bool :=
  accepts (Cat r anything) (list_ascii_of_string str).

End Regex.

(* ===================================================================== *)
(** * Link inline tool (class LinkInlineTool)                             *)
(* ===================================================================== *)

Module LinkInlineTool.
Import Regex.

(** ** validateURL: the pattern, piece by piece, under the [i] flag *)

(** [[a-z\d]] *)
Definition alnum (c : ascii) : bool := is_letter c || is_digit c.

(** protocol: [ ( https? : \/ \/ )? ] *)
Definition re_protocol : re :=
  opt (Cat (lit true "http") (Cat (opt (chr true "s")) (lit true "://"))).

(** one label: [ [a-z\d] ( [a-z\d-]* [a-z\d] )* ] *)
Definition re_label : re :=
  Cat (Class alnum)
      (Star (Cat (Star (Class (fun c => alnum c || one_of "-" c))) (Class alnum))).

(** domain name: [ ( label \. )+ [a-z]{2,} ] *)
Definition re_domain : re :=
  Cat (plus (Cat re_label (chr true "."))) (at_least 2 (Class is_letter)).

(** IPv4 address: [ ( \d{1,3} \. ){3} \d{1,3} ] *)
Definition re_ipv4 : re :=
  Cat (times 3 (Cat (between 1 3 (Class is_digit)) (chr true ".")))
      (between 1 3 (Class is_digit)).

(** port: [ ( \: \d+ )? ] *)
Definition re_port : re := opt (Cat (chr true ":") (plus (Class is_digit))).

(** path: [ ( \/ [-a-z\d%_.~+]* )* ] *)
Definition re_path : re :=
  Star (Cat (chr true "/") (Star (Class (fun c => alnum c || one_of "-%_.~+" c)))).

(** query string: [ ( \? [;&a-z\d%_.~+=-]* )? ] *)
Definition re_query : re :=
  opt (Cat (chr true "?") (Star (Class (fun c => alnum c || one_of ";&%_.~+=-" c)))).

(** fragment locator: [ ( \# [-a-z\d_]* )? ] *)
Definition re_fragment : re :=
  opt (Cat (chr true "#") (Star (Class (fun c => alnum c || one_of "-_" c)))).

Definition pattern : re :=
  Cat re_protocol
 (Cat (Alt re_domain re_ipv4)
 (Cat re_port
 (Cat re_path
 (Cat re_query re_fragment)))).

Definition validateURL (str : string) : bool := test_anchored pattern str.

(** ** prepareLink / addProtocol *)

(** [ ^ ( \w+ ) : ( \/ \/ )? ] *)
Definition re_has_protocol : re :=
  Cat (plus (Class is_word)) (Cat (chr false ":") (opt (lit false "//"))).

(** [[^/\s]] *)
Definition not_slash_nor_space (c : ascii) : bool :=
  negb (Ascii.eqb c "/" || is_space c).

(** [ ^ \/ [^/\s] ] *)
Definition re_internal : re := Cat (chr false "/") (Class not_slash_nor_space).

(** [ ^ \/ \/ [^/\s] ] *)
Definition re_protocol_relative : re :=
  Cat (lit false "//") (Class not_slash_nor_space).

Definition addProtocol (link : string) : string :=
  if test_prefix re_has_protocol link then link
  else
    let isInternal := test_prefix re_internal link in
    let isAnchor := String.eqb (substring 0 1 link) "#" in
    let isProtocolRelative := test_prefix re_protocol_relative link in
    if negb isInternal && negb isAnchor && negb isProtocolRelative
    then "https://" ++ link
    else link.

(** [String.prototype.trim] *)
Fixpoint trim_start (s : list ascii) : list ascii :=
  match s with
  | c :: s' => if is_space c then trim_start s' else s
  | [] => []
  end.

Definition trim (s : string) : string :=
  string_of_list_ascii
    (rev (trim_start (rev (trim_start (list_ascii_of_string s))))).

Definition prepareLink (link : string) : string := addProtocol (trim link).

(** ** The tool's state and its calls to the collaborators *)

(** What a timer runs when it fires. *)
Inductive callback :=
| cb_tooltip_hide.

(** Calls made on the selection utility, the document, the tooltip, the
    toolbars, the timers, the logger and the DOM event, in program order. *)
Inductive call :=
| selection_restore
| selection_removeFakeBackground
| selection_clearSaved
| selection_collapseToEnd
| selection_expandToTag
| currentSelection_save
| currentSelection_restore
| execCommand (commandName : string) (arg : option string)
| anchor_set (attribute val : string)
| tooltip_show (content placement : string)
| setTimeout (cb : callback) (ms : Z)
| log (msg type arg : string)
| event_preventDefault
| event_stopPropagation
| event_stopImmediatePropagation
| inlineToolbar_close.

Record t := mk {
  input_value : string;            (* this.nodes.input.value *)
  inputOpened : bool;              (* this.inputOpened *)
  labelShowed : bool;              (* CSS.labelShowed on nodes.label *)
  buttonHover : bool;              (* CSS.buttonHover on nodes.button *)
  isFakeBackgroundEnabled : bool;  (* this.selection.isFakeBackgroundEnabled *)
  calls : list call                (* calls so far, oldest first *)
}.

Definition commandLink : string := "createLink".
Definition commandUnlink : string := "unlink".

Definition emit (cs : list call) (s : t) : t :=
  mk (input_value s) (inputOpened s) (labelShowed s) (buttonHover s)
     (isFakeBackgroundEnabled s) (calls s ++ cs).

Definition unlink (s : t) : t := emit [execCommand commandUnlink None] s.

(** [this.selection.removeFakeBackground()]: the marker is gone afterwards. *)
Definition removeFakeBackground (s : t) : t :=
  let s := emit [selection_removeFakeBackground] s in
  mk (input_value s) (inputOpened s) (labelShowed s) (buttonHover s) false (calls s).

Definition closeActions (clearSavedSelection : bool) (s : t) : t :=
  let s :=
    if isFakeBackgroundEnabled s then
      emit [currentSelection_restore]
        (removeFakeBackground (emit [currentSelection_save; selection_restore] s))
    else s in
  let s := if clearSavedSelection then emit [selection_clearSaved] s else s in
  mk "" false false false (isFakeBackgroundEnabled s) (calls s).

(** [parentAnchor]: whether [findParentTag('A')] finds an anchor around the
    restored selection. *)
Definition insertLink (parentAnchor : bool) (link : string) (s : t) : t :=
  let s := if parentAnchor then emit [selection_expandToTag] s else s in
  emit [execCommand commandLink (Some link);
        anchor_set "target" "_blank";
        anchor_set "rel" "noopener noreferrer"] s.

Definition enterPressed (parentAnchor : bool) (s : t) : t :=
  let value := input_value s in
  if String.eqb (trim value) "" then
    closeActions true (emit [event_preventDefault] (unlink (emit [selection_restore] s)))
  else if negb (validateURL value) then
    emit [tooltip_show "The URL is not valid." "top";
          setTimeout cb_tooltip_hide 1000;
          log "Incorrect Link pasted" "warn" value] s
  else
    let value := prepareLink value in
    let s := removeFakeBackground (emit [selection_restore] s) in
    let s := insertLink parentAnchor value s in
    emit [event_preventDefault; event_stopPropagation;
          event_stopImmediatePropagation; selection_collapseToEnd;
          inlineToolbar_close] s.

(** The links handed to the native link-creation command by [cs]. *)
Definition committed (cs : list call) : list string :=
  omap (fun c => match c with
                 | execCommand name (Some link) =>
                     if String.eqb name commandLink then Some link else None
                 | _ => None
                 end) cs.

(** The calls [enterPressed] adds to those made before it. *)
Definition new_calls (before after : t) : list call :=
  drop (length (calls before)) (calls after).

(** The characters the pattern of [validateURL] lets through: letters,
    digits and the punctuation of its classes and literals. *)
Definition url_char (c : ascii) : bool :=
  alnum c || one_of "-%_.~+:/?#;&=" c.


(** A link that is the normal form of a value [validateURL] accepts. *)
Definition valid_link (link : string) : Prop :=
  exists value, validateURL value = true /\ link = prepareLink value.

(** The fake background is only on while the input is open, and every link
    committed so far came from a value that passed validation. *)
Definition tidy (s : t) : Prop :=
  (isFakeBackgroundEnabled s = true -> inputOpened s = true)
  /\ Forall valid_link (committed (calls s)).

(** ** The rest of the tool: the button, the input's opening, the state check *)

Inductive Icon := IconLink | IconUnlink.

(** Calls the methods below make besides those listed in [call]. *)
Inductive ui_call :=
| selection_setFakeBackground
| selection_save
| toolbar_close
| label_focus_later.               (* setTimeout(() => this.nodes.label.focus()) *)

Record UI := mkUI {
  tool : t;
  buttonIcon : Icon;               (* this.nodes.button.innerHTML *)
  buttonUnlink : bool;             (* CSS.buttonUnlink on nodes.button *)
  buttonActive : bool;             (* CSS.buttonActive on nodes.button *)
  cleanButtonShowed : bool;        (* CSS.cleanButton on nodes.cleanButton *)
  confirmButtonShowed : bool;      (* CSS.cleanButton on nodes.confirmButton *)
  ui_calls : list ui_call
}.

(** After [renderActions()]: everything closed, the confirm button shown. *)
Definition rendered : UI :=
  mkUI (mk "" false false false false []) IconLink false false false true [].

(** Run a method of the first part on the tool inside. *)
Definition lift (f : t -> t) (u : UI) : UI :=
  mkUI (f (tool u)) (buttonIcon u) (buttonUnlink u) (buttonActive u)
       (cleanButtonShowed u) (confirmButtonShowed u) (ui_calls u).

Definition ui_emit (cs : list ui_call) (u : UI) : UI :=
  mkUI (tool u) (buttonIcon u) (buttonUnlink u) (buttonActive u)
       (cleanButtonShowed u) (confirmButtonShowed u) (ui_calls u ++ cs).

(** [this.selection.setFakeBackground()]: the marker is there afterwards.
    SelectionUtils is not among the sources; the spec has the two methods
    toggle the marker. *)
Definition setFakeBackground (u : UI) : UI :=
  lift (fun s => mk (input_value s) (inputOpened s) (labelShowed s) (buttonHover s)
                    true (calls s))
       (ui_emit [selection_setFakeBackground] u).

Definition openActions (needFocus : bool) (u : UI) : UI :=
  let u := if needFocus then ui_emit [label_focus_later] u else u in
  lift (fun s => mk (input_value s) true true true (isFakeBackgroundEnabled s) (calls s)) u.

Definition toggleActions (u : UI) : UI :=
  if negb (inputOpened (tool u)) then openActions true u
  else lift (closeActions false) u.

(** [checkState()]; [anchorTag] is what [findParentTag('A')] finds, with the
    anchor's [href] attribute if it has one. *)
Definition checkState (anchorTag : option (option string)) (u : UI) : UI * bool :=
  match anchorTag with
  | Some hrefAttr =>
      let u := mkUI (tool u) IconUnlink true true
                    (cleanButtonShowed u) (confirmButtonShowed u) (ui_calls u) in
      let u := openActions true u in
      let set_value v s :=
        mk v (inputOpened s) (labelShowed s) (buttonHover s)
           (isFakeBackgroundEnabled s) (calls s) in
      let u :=
        if negb (bool_decide (hrefAttr = Some "null"))
        then lift (set_value (default "" hrefAttr))
                  (mkUI (tool u) (buttonIcon u) (buttonUnlink u) (buttonActive u)
                        true true (ui_calls u))
        else lift (set_value "") u in
      (ui_emit [selection_save] u, true)
  | None =>
      (mkUI (tool u) IconLink false false
            (cleanButtonShowed u) (confirmButtonShowed u) (ui_calls u), false)
  end.

(** [surround(range)]: [range] tells whether a range was passed,
    [parentAnchor] what the first [findParentTag('A')] finds, [anchorTag]
    what the one inside [checkState()] finds. *)
Definition surround (range parentAnchor : bool) (anchorTag : option (option string))
    (u : UI) : UI :=
  if range then
    let u :=
      if negb (inputOpened (tool u))
      then ui_emit [selection_save] (setFakeBackground u)
      else lift (fun s => removeFakeBackground (emit [selection_restore] s)) u in
    if parentAnchor then
      let u := lift (fun s => closeActions true (unlink (emit [selection_expandToTag] s))) u in
      ui_emit [toolbar_close] (fst (checkState anchorTag u))
    else toggleActions u
  else toggleActions u.

(** [clear()] *)
Definition clear (u : UI) : UI := lift (closeActions true) u.

(** The listeners [renderActions()] installs. [value] is what the input
    holds when the key goes up. *)
Definition on_keyup (value : string) (enter parentAnchor : bool) (u : UI) : UI :=
  let u :=
    lift (fun s => mk value (inputOpened s) (labelShowed s) (buttonHover s)
                      (isFakeBackgroundEnabled s) (calls s)) u in
  let u :=
    mkUI (tool u) (buttonIcon u) (buttonUnlink u) (buttonActive u)
         (negb (String.length value =? 0)%nat) (confirmButtonShowed u) (ui_calls u) in
  if enter then lift (enterPressed parentAnchor) u else u.

Definition on_confirm_mousedown (parentAnchor : bool) (u : UI) : UI :=
  lift (fun s => enterPressed parentAnchor
                   (emit [event_stopPropagation; event_preventDefault] s)) u.

Definition on_clean_mousedown (u : UI) : UI :=
  let u :=
    lift (fun s =>
            unlink (mk "" (inputOpened s) (labelShowed s) (buttonHover s)
                       (isFakeBackgroundEnabled s)
                       (calls s ++ [event_stopPropagation; event_preventDefault]))) u in
  mkUI (tool u) (buttonIcon u) false false false (confirmButtonShowed u) (ui_calls u).

(** The click listener on the document; [currentTarget] is what
    [target.closest('.ce-inline-tool')] finds: nothing, this tool's button
    (true) or another one (false). *)
Definition on_document_click (currentTarget : option bool) (u : UI) : UI :=
  match currentTarget with
  | Some own =>
      let u := lift (emit [selection_restore]) u in
      if negb own && inputOpened (tool u) then lift (closeActions true) u else u
  | None => u
  end.

(** What the editor and the user may do with the rendered tool. *)
Inductive Action :=
| do_surround (range parentAnchor : bool) (anchorTag : option (option string))
| do_checkState (anchorTag : option (option string))
| do_clear
| keyup (value : string) (enter parentAnchor : bool)
| confirm_mousedown (parentAnchor : bool)
| clean_mousedown
| document_click (currentTarget : option bool).

Definition act (a : Action) (u : UI) : UI :=
  match a with
  | do_surround range parentAnchor anchorTag => surround range parentAnchor anchorTag u
  | do_checkState anchorTag => fst (checkState anchorTag u)
  | do_clear => clear u
  | keyup value enter parentAnchor => on_keyup value enter parentAnchor u
  | confirm_mousedown parentAnchor => on_confirm_mousedown parentAnchor u
  | clean_mousedown => on_clean_mousedown u
  | document_click currentTarget => on_document_click currentTarget u
  end.

Definition acts (l : list Action) (u : UI) : UI := foldl (fun u a => act a u) u l.

End LinkInlineTool.

(* ===================================================================== *)
(** * Block (class Block)                                                 *)
(* ===================================================================== *)

Module Block.
Import JS.

(** DOM nodes are known by identity; objects on the heap by location. *)
Abbreviation Node := nat.
Abbreviation loc := nat.

(** A node listed in a mutation record: [$.isElement(node)] and
    [node.dataset.mutationFree]. *)
Record DomNode := {
  isElement : bool;
  dataset_mutationFree : option string
}.

Record MutationRecord := {
  addedNodes : list DomNode;
  removedNodes : list DomNode
}.

(** The argument of [didMutated]: [MutationRecord[] | InputEvent]. *)
Inductive MutationsOrInputEvent :=
| InputEvent
| Mutations (records : list MutationRecord).

(** What the Block reads from the document at a given moment. *)
Record Document := {
  findAllInputs : list Node;           (* $.findAllInputs(this.holder) *)
  contains : Node -> Node -> bool;     (* input.contains(element) *)
  isNativeInput : Node -> bool;        (* $.isNativeInput(input) *)
  activeElement : option Node;         (* document.activeElement *)
  anchorNode : option Node             (* SelectionUtils.anchorNode *)
}.

(** The two event listeners a Block attaches to its inputs. *)
Inductive Listener :=
| focus_handleFocus
| input_didMutated.

Definition Listener_eqb (a b : Listener) : bool :=
  match a, b with
  | focus_handleFocus, focus_handleFocus => true
  | input_didMutated, input_didMutated => true
  | _, _ => false
  end.

(** Observable happenings, oldest first. [ToolHook] marks that [call]
    reached a method of the tool instance. *)
Inductive event :=
| ToolHook (methodName : string)
| Emit (eventName : string)
| Log (msg type : string).

Record ToolboxConfigEntry := {
  title : string;
  entry_data : option (list (string * value))   (* Object.entries(item.data) *)
}.

Record SavedData := {
  sd_id : string;
  sd_tool : string;
  sd_data : gmap string value;
  sd_tunes : loc;                    (* a reference, not a copy *)
  sd_time : Z
}.

(** [this.inputs[i]], [i] any number. *)
Definition js_index {A} (l : list A) (i : Z) : option A :=
  if (i <? 0)%Z then None else l !! Z.to_nat i.

(** [Array.prototype.findIndex] *)
Fixpoint findIndex {A} (p : A -> bool) (l : list A) : Z :=
  match l with
  | [] => -1
  | x :: l' =>
      if p x then 0
      else let i := findIndex p l' in if (i =? -1)%Z then -1 else i + 1
  end.

(** [Map.prototype.has] and [Map.prototype.set] on the entries in insertion
    order. *)
Definition map_has {A} (k : string) (m : list (string * A)) : bool :=
  existsb (fun e => String.eqb (fst e) k) m.

Fixpoint map_set {A} (k : string) (v : A) (m : list (string * A)) : list (string * A) :=
  match m with
  | [] => [(k, v)]
  | (k', v') :: m' =>
      if String.eqb k' k then (k, v) :: m' else (k', v') :: map_set k v m'
  end.

Section WithWorld.

(** Whatever lives outside the Block and its calls can change: the state of
    the tool's and the tunes' instances, and the clock. *)
Variable W : Type.

(** [window.performance.now()] *)
Variable performance_now : W -> Z * W.

(** [_.equals] *)
Variable equals : value -> value -> bool.

(** A tune instance: its class name and its optional [save] method. *)
Record IBlockTune := {
  constructor_name : string;
  tune_save : option (W -> completion value * W)
}.

(** A tune as the tool lists it ([tools/tune]). *)
Record BlockTune := {
  tune_name : string;
  isInternal : bool;
  tune_create : value -> IBlockTune
}.

(** The tool instance: [save], and the optional methods [call] looks up by
    name. *)
Record IBlockTool := {
  tool_save : W -> completion (gmap string value) * W;
  tool_method : string -> option (W -> completion unit * W)
}.

(** The tool as handed to the constructor ([tools/block]). *)
Record BlockTool := {
  tool_name : string;
  toolbox : list ToolboxConfigEntry;
  tool_tunes : list BlockTune;
  tool_create : gmap string value -> bool -> IBlockTool
}.

Record Env := mkEnv {
  world : W;
  heap : list (gmap string value);
  listeners : list (Node * Listener);
  trace : list event
}.

Record t := mk {
  id : string;
  name : string;
  tool : BlockTool;
  toolInstance : IBlockTool;
  tunes : list BlockTune;
  tunesInstances : list (string * IBlockTune);
  defaultTunesInstances : list (string * IBlockTune);
  unavailableTunesData : loc;
  cachedInputs : list Node;
  inputIndex : Z;
  observing : bool;                          (* the observer is connected *)
  pending : option MutationsOrInputEvent     (* armed debounce timer *)
}.

Definition set_world (w : W) (e : Env) : Env :=
  mkEnv w (heap e) (listeners e) (trace e).
Definition set_heap (h : list (gmap string value)) (e : Env) : Env :=
  mkEnv (world e) h (listeners e) (trace e).
Definition set_listeners (ls : list (Node * Listener)) (e : Env) : Env :=
  mkEnv (world e) (heap e) ls (trace e).
Definition record (ev : event) (e : Env) : Env :=
  mkEnv (world e) (heap e) (listeners e) (trace e ++ [ev]).

Definition set_tunesInstances (m : list (string * IBlockTune)) (b : t) : t :=
  mk (id b) (name b) (tool b) (toolInstance b) (tunes b) m
     (defaultTunesInstances b) (unavailableTunesData b) (cachedInputs b)
     (inputIndex b) (observing b) (pending b).
Definition set_defaultTunesInstances (m : list (string * IBlockTune)) (b : t) : t :=
  mk (id b) (name b) (tool b) (toolInstance b) (tunes b) (tunesInstances b)
     m (unavailableTunesData b) (cachedInputs b)
     (inputIndex b) (observing b) (pending b).
Definition set_cachedInputs (l : list Node) (b : t) : t :=
  mk (id b) (name b) (tool b) (toolInstance b) (tunes b) (tunesInstances b)
     (defaultTunesInstances b) (unavailableTunesData b) l
     (inputIndex b) (observing b) (pending b).
Definition set_inputIndex (i : Z) (b : t) : t :=
  mk (id b) (name b) (tool b) (toolInstance b) (tunes b) (tunesInstances b)
     (defaultTunesInstances b) (unavailableTunesData b) (cachedInputs b)
     i (observing b) (pending b).
Definition set_observing (o : bool) (b : t) : t :=
  mk (id b) (name b) (tool b) (toolInstance b) (tunes b) (tunesInstances b)
     (defaultTunesInstances b) (unavailableTunesData b) (cachedInputs b)
     (inputIndex b) o (pending b).
Definition set_pending (p : option MutationsOrInputEvent) (b : t) : t :=
  mk (id b) (name b) (tool b) (toolInstance b) (tunes b) (tunesInstances b)
     (defaultTunesInstances b) (unavailableTunesData b) (cachedInputs b)
     (inputIndex b) (observing b) p.

(** ** Inputs and the current input *)

(** [get inputs()] *)
Definition inputs (d : Document) (b : t) : list Node * t :=
  if negb (length (cachedInputs b) =? 0)%nat then (cachedInputs b, b)
  else
    let inputs := findAllInputs d in
    let b :=
      if (inputIndex b >? Z.of_nat (length inputs) - 1)%Z
      then set_inputIndex (Z.of_nat (length inputs) - 1) b
      else b in
    (inputs, set_cachedInputs inputs b).

(** [get currentInput()] *)
Definition currentInput (d : Document) (b : t) : option Node * t :=
  let '(ins, b) := inputs d b in (js_index ins (inputIndex b), b).

(** [set currentInput(element)] *)
Definition set_currentInput (d : Document) (element : option Node) (b : t) : t :=
  let '(ins, b) := inputs d b in
  let index :=
    findIndex (fun input =>
                 match element with
                 | Some e => (input =? e)%nat || contains d input e
                 | None => false
                 end) ins in
  if (index =? -1)%Z then b else set_inputIndex index b.

Definition updateCurrentInput (d : Document) (b : t) : t :=
  let native :=
    match activeElement d with
    | Some a => isNativeInput d a
    | None => false
    end in
  set_currentInput d
    (if native || negb (bool_decide (is_Some (anchorNode d)))
     then activeElement d else anchorNode d) b.

(** ** Tool hooks and change notification *)

(** [call(methodName)] *)
Definition call (methodName : string) (b : t) (e : Env) : Env :=
  match tool_method (toolInstance b) methodName with
  | None => e
  | Some method =>
      let e :=
        if String.eqb methodName "appendCallback"
        then record (Log "`appendCallback` hook is deprecated and will be removed in the next major release. Use `rendered` hook instead" "warn") e
        else e in
      let '(r, w) := method (world e) in
      let e := set_world w (record (ToolHook methodName) e) in
      match r with
      | Normal _ => e
      | Throw msg =>
          record (Log ("Error during '" ++ methodName ++ "' call: " ++ msg) "error") e
      end
  end.

Definition mutationFree (node : DomNode) : bool :=
  isElement node && bool_decide (dataset_mutationFree node = Some "true").

Definition shouldFireUpdate (mutationsOrInputEvent : MutationsOrInputEvent) : bool :=
  match mutationsOrInputEvent with
  | InputEvent => true
  | Mutations records =>
      negb (existsb (fun r => existsb mutationFree (addedNodes r ++ removedNodes r))
                    records)
  end.

(** The arrow function handed to [_.debounce] in the [didMutated] field. *)
Definition didMutated_now (d : Document) (arg : MutationsOrInputEvent)
    (s : t * Env) : t * Env :=
  let '(b, e) := s in
  if negb (shouldFireUpdate arg) then (b, e)
  else
    let b := set_cachedInputs [] b in
    let b := updateCurrentInput d b in
    let e := call "updated" b e in
    let e := record (Emit "didMutated") e in
    (b, e).

(** Modelled from the spec: [_.debounce] (components/utils) is not among
    the sources. "A fixed delay (450 ms) collapses bursts of mutations into
    one notification; each new mutation while pending resets the timer":
    calling [didMutated(arg)] (re)arms the timer, which keeps the latest
    argument. *)
Definition didMutated (arg : MutationsOrInputEvent) (b : t) : t :=
  set_pending (Some arg) b.

(** [dispatchChange()] calls [didMutated()], whose argument defaults to []. *)
Definition dispatchChange (b : t) : t := didMutated (Mutations []) b.

Definition handleFocus (d : Document) (b : t) : t :=
  updateCurrentInput d (set_cachedInputs [] b).

(** ** Selection boundary *)

Definition has_listener (n : Node) (l : Listener) (ls : list (Node * Listener)) : bool :=
  existsb (fun x => (fst x =? n)%nat && Listener_eqb (snd x) l) ls.

(** [addEventListener]: registering the same listener twice changes nothing. *)
Definition addEventListener (n : Node) (l : Listener) (ls : list (Node * Listener))
    : list (Node * Listener) :=
  if has_listener n l ls then ls else ls ++ [(n, l)].

Definition removeEventListener (n : Node) (l : Listener) (ls : list (Node * Listener))
    : list (Node * Listener) :=
  List.filter (fun x => negb ((fst x =? n)%nat && Listener_eqb (snd x) l)) ls.

Definition addInputEvents (d : Document) (s : t * Env) : t * Env :=
  let '(b, e) := s in
  let '(ins, b) := inputs d b in
  (b, set_listeners
        (foldl (fun ls input =>
                  let ls := addEventListener input focus_handleFocus ls in
                  if isNativeInput d input
                  then addEventListener input input_didMutated ls else ls)
               (listeners e) ins) e).

Definition removeInputEvents (d : Document) (s : t * Env) : t * Env :=
  let '(b, e) := s in
  let '(ins, b) := inputs d b in
  (b, set_listeners
        (foldl (fun ls input =>
                  let ls := removeEventListener input focus_handleFocus ls in
                  if isNativeInput d input
                  then removeEventListener input input_didMutated ls else ls)
               (listeners e) ins) e).

Definition willSelect (d : Document) (s : t * Env) : t * Env :=
  let '(b, e) := s in
  addInputEvents d (set_observing true b, e).

Definition willUnselect (d : Document) (s : t * Env) : t * Env :=
  let '(b, e) := s in
  removeInputEvents d (set_observing false b, e).

(** What the browser may deliver to a Block. *)
Inductive DomEvent :=
| MutationBatch (records : list MutationRecord)   (* observed subtree changed *)
| InputOn (n : Node)                              (* 'input' fired on n *)
| FocusOn (n : Node)                              (* 'focus' fired on n *)
| TimerFires.                                     (* the debounce delay elapsed *)

Definition deliver (d : Document) (ev : DomEvent) (s : t * Env) : t * Env :=
  let '(b, e) := s in
  match ev with
  | MutationBatch records =>
      if observing b then (didMutated (Mutations records) b, e) else (b, e)
  | InputOn n =>
      if has_listener n input_didMutated (listeners e)
      then (didMutated InputEvent b, e) else (b, e)
  | FocusOn n =>
      if has_listener n focus_handleFocus (listeners e)
      then (handleFocus d b, e) else (b, e)
  | TimerFires =>
      match pending b with
      | Some arg => didMutated_now d arg (set_pending None b, e)
      | None => (b, e)
      end
  end.

Definition deliver_all (d : Document) (evs : list DomEvent) (s : t * Env) : t * Env :=
  foldl (fun s ev => deliver d ev s) s evs.

(** ** Objects on the heap *)

Definition obj_get (l : loc) (h : list (gmap string value)) : gmap string value :=
  default ∅ (h !! l).

(** [obj[k] = v] on the object at [l] *)
Definition obj_set (l : loc) (k : string) (v : value) (h : list (gmap string value))
    : list (gmap string value) :=
  alter (insert k v) l h.

(** ** Tunes at construction *)

Definition composeTunes (tunesData : gmap string value) (s : t * Env) : t * Env :=
  let '(b, e) := s in
  let b :=
    foldl (fun b tune =>
             let instance := tune_create tune (get tunesData (tune_name tune)) in
             if isInternal tune
             then set_defaultTunesInstances
                    (map_set (tune_name tune) instance (defaultTunesInstances b)) b
             else set_tunesInstances
                    (map_set (tune_name tune) instance (tunesInstances b)) b)
          b (tunes b) in
  let e :=
    foldl (fun e entry =>
             if negb (map_has (fst entry) (tunesInstances b))
             then set_heap (obj_set (unavailableTunesData b) (fst entry) (snd entry) (heap e)) e
             else e)
          e (map_to_list tunesData) in
  (b, e).

Record BlockConstructorOptions := {
  opt_id : string;
  opt_data : gmap string value;
  opt_tool : BlockTool;
  opt_readOnly : bool;
  opt_tunesData : gmap string value
}.

(** [new Block(options)]; the fresh object [{}] becomes
    [unavailableTunesData]. *)
Definition new (o : BlockConstructorOptions) (e : Env) : t * Env :=
  let l := length (heap e) in
  let e := set_heap (heap e ++ [∅]) e in
  let b :=
    mk (opt_id o) (tool_name (opt_tool o)) (opt_tool o)
       (tool_create (opt_tool o) (opt_data o) (opt_readOnly o))
       (tool_tunes (opt_tool o)) [] [] l [] 0 false None in
  composeTunes (opt_tunesData o) (b, e).

(** ** Saving *)

(** A promise that has settled, with the state it settled in. *)
Definition Promise (A : Type) : Type := completion A * Env.

Definition promise_then {A B} (p : Promise A) (onFulfilled : A -> Env -> Promise B)
    : Promise B :=
  match p with
  | (Normal a, e) => onFulfilled a e
  | (Throw err, e) => (Throw err, e)
  end.

Definition promise_catch {A} (p : Promise A) (onRejected : string -> Env -> Promise A)
    : Promise A :=
  match p with
  | (Normal a, e) => (Normal a, e)
  | (Throw err, e) => onRejected err e
  end.

(** The body of the [forEach] over the tune instances. *)
Definition save_tune (tunesData : loc) (e : Env) (entry : string * IBlockTune) : Env :=
  match tune_save (snd entry) with
  | None => e
  | Some tune_save =>
      let '(r, w) := tune_save (world e) in
      let e := set_world w e in
      match r with
      | Normal v => set_heap (obj_set tunesData (fst entry) v (heap e)) e
      | Throw _ =>
          record (Log ("Tune " ++ constructor_name (snd entry)
                         ++ " save method throws an Error %o") "warn") e
      end
  end.

(** [async save()]: [Normal (Some r)] is a promise resolved with [r],
    [Normal None] one resolved with nothing, [Throw] a rejected one. *)
Definition save (b : t) (e : Env) : Promise (option SavedData) :=
  let '(extracted, w) := tool_save (toolInstance b) (world e) in
  let e := set_world w e in
  match extracted with
  | Throw err => (Throw err, e)
  | Normal extractedBlock =>
      let tunesData := unavailableTunesData b in
      let e := foldl (save_tune tunesData) e
                     (tunesInstances b ++ defaultTunesInstances b) in
      let '(measuringStart, w) := performance_now (world e) in
      let e := set_world w e in
      promise_catch
        (promise_then (Normal extractedBlock, e)
           (fun finishedExtraction e =>
              let '(measuringEnd, w) := performance_now (world e) in
              (Normal (Some {| sd_id := id b;
                               sd_tool := name b;
                               sd_data := finishedExtraction;
                               sd_tunes := tunesData;
                               sd_time := measuringEnd - measuringStart |}),
               set_world w e)))
        (fun error e =>
           (Normal None,
            record (Log ("Saving proccess for " ++ name b
                           ++ " tool failed due to the " ++ error) "log") e))
  end.

(** The tunes' [save] calls one [Block.save] makes, replayed on their own:
    which instance answered what, in call order, and the world they leave. *)
Fixpoint tune_outcomes (entries : list (string * IBlockTune)) (w : W)
    : list (string * IBlockTune * completion value) * W :=
  match entries with
  | [] => ([], w)
  | entry :: rest =>
      match tune_save (snd entry) with
      | None => tune_outcomes rest w
      | Some tune_save =>
          let '(r, w) := tune_save w in
          let '(os, w) := tune_outcomes rest w in
          ((fst entry, snd entry, r) :: os, w)
      end
  end.

(** The value the last successful call under [name] returned, if any. *)
Fixpoint last_saved (name : string)
    (os : list (string * IBlockTune * completion value)) : option value :=
  match os with
  | [] => None
  | (n, _, r) :: os' =>
      match last_saved name os' with
      | Some v => Some v
      | None =>
          match r with
          | Normal v => if String.eqb n name then Some v else None
          | Throw _ => None
          end
      end
  end.

(** One warning per call that threw. *)
Definition warnings (os : list (string * IBlockTune * completion value)) : list event :=
  omap (fun o =>
          match o with
          | (_, tune, Throw _) =>
              Some (Log ("Tune " ++ constructor_name tune
                           ++ " save method throws an Error %o") "warn")
          | _ => None
          end) os.

(** The tunes bag a settled [save()] hands out, as it is on the heap then. *)
Definition tunes_bag (p : Promise (option SavedData)) : option (gmap string value) :=
  match p with
  | (Normal (Some r), e) => Some (obj_get (sd_tunes r) (heap e))
  | _ => None
  end.

(** [_.isEmpty] (components/utils, not among the sources) on a plain
    object: it has no own keys. *)
Definition isEmpty (o : gmap string value) : bool := (size o =? 0)%nat.

(** [get data()] *)
Definition data (b : t) (e : Env) : Promise (gmap string value) :=
  promise_then (save b e)
    (fun savedObject e =>
       match savedObject with
       | Some so =>
           if negb (isEmpty (sd_data so)) then (Normal (sd_data so), e)
           else (Normal ∅, e)
       | None => (Normal ∅, e)
       end).

(** ** Active toolbox entry *)

(** The callback of [toolboxItems.find], once [Object.entries(item.data)]
    is at hand. *)
Definition entry_matches (blockData : gmap string value)
    (entries : list (string * value)) : bool :=
  existsb (fun entry =>
             truthy (get blockData (fst entry))
             && equals (get blockData (fst entry)) (snd entry))
          entries.

(** [toolboxItems.find(...)]; [Object.entries(undefined)] throws. *)
Fixpoint find_entry (blockData : gmap string value)
    (toolboxItems : list ToolboxConfigEntry) : completion (option ToolboxConfigEntry) :=
  match toolboxItems with
  | [] => Normal None
  | item :: rest =>
      match entry_data item with
      | None => Throw "TypeError: Cannot convert undefined or null to object"
      | Some entries =>
          if entry_matches blockData entries then Normal (Some item)
          else find_entry blockData rest
      end
  end.

Definition getActiveToolboxEntry (b : t) (e : Env)
    : Promise (option ToolboxConfigEntry) :=
  let toolboxSettings := toolbox (tool b) in
  if (length toolboxSettings =? 1)%nat then (Normal (toolboxSettings !! 0%nat), e)
  else
    promise_then (data b e)
      (fun blockData e => (find_entry blockData toolboxSettings, e)).

(** How many times [didMutated] was emitted. *)
Definition emissions (e : Env) : nat :=
  length (List.filter (fun ev => match ev with Emit _ => true | _ => false end) (trace e)).

(** ** Neighbouring inputs *)

(** [get firstInput()] *)
Definition firstInput (d : Document) (b : t) : option Node * t :=
  let '(ins, b) := inputs d b in (js_index ins 0, b).

(** [get lastInput()] *)
Definition lastInput (d : Document) (b : t) : option Node * t :=
  let '(ins, b) := inputs d b in (js_index ins (Z.of_nat (length ins) - 1), b).

(** [get nextInput()] *)
Definition nextInput (d : Document) (b : t) : option Node * t :=
  let '(ins, b) := inputs d b in (js_index ins (inputIndex b + 1), b).

(** [get previousInput()] *)
Definition previousInput (d : Document) (b : t) : option Node * t :=
  let '(ins, b) := inputs d b in (js_index ins (inputIndex b - 1), b).

(** ** What can happen to a Block's input bookkeeping *)

Inductive Op :=
| get_inputs
| assign_currentInput (element : option Node)
| do_updateCurrentInput
| do_didMutated (arg : MutationsOrInputEvent)
| do_handleFocus
| do_willSelect
| do_willUnselect
| do_dispatchChange
| do_deliver (ev : DomEvent).

Definition apply (d : Document) (o : Op) (s : t * Env) : t * Env :=
  match o with
  | get_inputs => (snd (inputs d (fst s)), snd s)
  | assign_currentInput element => (set_currentInput d element (fst s), snd s)
  | do_updateCurrentInput => (updateCurrentInput d (fst s), snd s)
  | do_didMutated arg => didMutated_now d arg s
  | do_handleFocus => (handleFocus d (fst s), snd s)
  | do_willSelect => willSelect d s
  | do_willUnselect => willUnselect d s
  | do_dispatchChange => (dispatchChange (fst s), snd s)
  | do_deliver ev => deliver d ev s
  end.

(** Each operation meets the document as it is at that moment. *)
Definition run (ops : list (Document * Op)) (s : t * Env) : t * Env :=
  foldl (fun s x => apply (fst x) (snd x) s) s ops.

(** The index is -1 or more, and below the number of cached inputs when
    there are any. *)
Definition index_ok (b : t) : Prop :=
  (-1 <= inputIndex b)%Z
  /\ (cachedInputs b <> [] -> (inputIndex b < Z.of_nat (length (cachedInputs b)))%Z).

(** Whether the tool lists a tune named [k] that is not internal. *)
Definition is_user_tune (k : string) (ts : list BlockTune) : bool :=
  existsb (fun tune => negb (isInternal tune) && String.eqb (tune_name tune) k) ts.

(** The instance [composeTunes] creates for a tune. *)
Definition instance_of (tunesData : gmap string value) (tune : BlockTune)
    : string * IBlockTune :=
  (tune_name tune, tune_create tune (get tunesData (tune_name tune))).

End WithWorld.

(** ** The rendered content *)

(** A child of the content node, with what [$.isExtensionNode] says of it. *)
Record ChildNode := {
  child : Node;
  isExtensionNode : bool
}.

(** The [for] loop of [pluginsContent]; [n] is the loop variable plus one. *)
Fixpoint lastContentNode (childNodes : list ChildNode) (n : nat) : option ChildNode :=
  match n with
  | O => None
  | S i =>
      match childNodes !! i with
      | Some contentNode =>
          if negb (isExtensionNode contentNode) then Some contentNode
          else lastContentNode childNodes i
      | None => lastContentNode childNodes i
      end
  end.

(** [get pluginsContent()]; the argument is the child list of what
    [holder.querySelector('.ce-block__content')] finds, if anything. *)
Definition pluginsContent (blockContentNodes : option (list ChildNode))
    : option ChildNode :=
  match blockContentNodes with
  | Some childNodes =>
      if negb (length childNodes =? 0)%nat
      then lastContentNode childNodes (length childNodes)
      else None
  | None => None
  end.

(** ** State flags on the holder *)

Definition CSS_wrapperStretched : string := "ce-block--stretched".
Definition CSS_focused : string := "ce-block--focused".
Definition CSS_selected : string := "ce-block--selected".
Definition CSS_dropTarget : string := "ce-block--drop-target".

(** The holder as the flag accessors see it: its class list and the calls
    made to [SelectionUtils.addFakeCursor] (true) and [removeFakeCursor]
    (false) on it. *)
Record Holder := mkHolder {
  classList : gset string;
  fakeCursorCalls : list bool
}.

(** [classList.toggle(token, force)] *)
Definition classList_toggle (token : string) (force : bool) (cl : gset string)
    : gset string :=
  if force then {[token]} ∪ cl else cl ∖ {[token]}.

(** [classList.contains(token)] *)
Definition classList_contains (token : string) (cl : gset string) : bool :=
  bool_decide (token ∈ cl).

Definition set_focused (state : bool) (h : Holder) : Holder :=
  mkHolder (classList_toggle CSS_focused state (classList h)) (fakeCursorCalls h).
Definition get_focused (h : Holder) : bool :=
  classList_contains CSS_focused (classList h).

Definition set_selected (state : bool) (h : Holder) : Holder :=
  if state
  then mkHolder ({[CSS_selected]} ∪ classList h) (fakeCursorCalls h ++ [true])
  else mkHolder (classList h ∖ {[CSS_selected]}) (fakeCursorCalls h ++ [false]).
Definition get_selected (h : Holder) : bool :=
  classList_contains CSS_selected (classList h).

Definition set_stretched (state : bool) (h : Holder) : Holder :=
  mkHolder (classList_toggle CSS_wrapperStretched state (classList h))
           (fakeCursorCalls h).
Definition get_stretched (h : Holder) : bool :=
  classList_contains CSS_wrapperStretched (classList h).

Definition set_dropTarget (state : bool) (h : Holder) : Holder :=
  mkHolder (classList_toggle CSS_dropTarget state (classList h)) (fakeCursorCalls h).

End Block.

(* ===================================================================== *)
(** * Delete tune (class DeleteTune)                                      *)
(* ===================================================================== *)

Module DeleteTune.

(** Calls on the editor's API and on the click event, in program order. *)
Inductive call :=
| events_on             (* api.events.on('block-settings-closed', resetConfirmation) *)
| events_off            (* api.events.off('block-settings-closed', resetConfirmation) *)
| blocks_delete
| toolbar_close
| tooltip_hide
| event_stopPropagation.

Definition call_eqb (a b : call) : bool :=
  match a, b with
  | events_on, events_on | events_off, events_off | blocks_delete, blocks_delete
  | toolbar_close, toolbar_close | tooltip_hide, tooltip_hide
  | event_stopPropagation, event_stopPropagation => true
  | _, _ => false
  end.

Record t := mk {
  needConfirmation : bool;     (* undefined at first, which reads as false *)
  buttonConfirm : bool;        (* CSS.buttonConfirm on nodes.button *)
  calls : list call
}.

(** After [render()]. *)
Definition rendered : t := mk false false [].

Definition setConfirmation (state : bool) (s : t) : t := mk state true (calls s).

Definition resetConfirmation (s : t) : t := setConfirmation false s.

Definition handleClick (s : t) : t :=
  if negb (needConfirmation s) then
    let s := setConfirmation true s in
    mk (needConfirmation s) (buttonConfirm s) (calls s ++ [events_on])
  else
    mk (needConfirmation s) (buttonConfirm s)
       (calls s ++ [events_off; blocks_delete; toolbar_close; tooltip_hide;
                    event_stopPropagation]).

(** What reaches the tune: a click on its button, or a run of
    [resetConfirmation], the listener of 'block-settings-closed'. *)
Inductive Action := click | settings_closed.

Definition act (a : Action) (s : t) : t :=
  match a with
  | click => handleClick s
  | settings_closed => resetConfirmation s
  end.

Definition acts (l : list Action) (s : t) : t := foldl (fun s a => act a s) s l.

(** How often the block was deleted. *)
Definition deletions (s : t) : nat :=
  length (List.filter (call_eqb blocks_delete) (calls s)).

(** How often the button was clicked. *)
Definition clicks (l : list Action) : nat :=
  length (List.filter (fun a => match a with click => true | _ => false end) l).

End DeleteTune.

(* ===================================================================== *)
(** * Move-up and move-down tunes                                         *)
(* ===================================================================== *)

Module MoveTunes.

(** What a timer runs when it fires. *)
Inductive callback :=
| classList_remove (className : string).

(** Calls on the window and on the editor's API, in program order. *)
Inductive call :=
| window_scrollBy (x y : Z)
| window_scrollTo (x y : Z)
| blocks_move (toIndex : Z)
| tooltip_hide.

(** Geometry of a block's holder, in whole pixels. *)
Record BlockAPI := {
  rect_top : Z;        (* holder.getBoundingClientRect().top *)
  offsetHeight : Z     (* holder.offsetHeight *)
}.

Record Window := {
  innerHeight : Z;
  scrollY : Z
}.

Definition animation : string := "wobble".

(** [classList.add] *)
Definition classList_add (c : string) (cl : list string) : list string :=
  if existsb (String.eqb c) cl then cl else cl ++ [c].

Section WithAPI.

(** The editor behind [this.api]. *)
Variable Editor : Type.
Variable getCurrentBlockIndex : Editor -> Z.
Variable getBlockByIndex : Editor -> Z -> option BlockAPI.
(** [api.blocks.move(toIndex)] moves the current block. *)
Variable move : Z -> Editor -> Editor.

Record State := mk {
  editor : Editor;
  classList : list string;            (* button.classList *)
  timers : list (callback * Z);       (* armed by window.setTimeout *)
  calls : list call
}.

Definition wobble (s : State) : State :=
  mk (editor s) (classList_add animation (classList s))
     (timers s ++ [(classList_remove animation, 500)]) (calls s).

Definition MoveDownTune_handleClick (win : Window) (s : State) : State :=
  let currentBlockIndex := getCurrentBlockIndex (editor s) in
  let nextBlock := getBlockByIndex (editor s) (currentBlockIndex + 1) in
  match nextBlock with
  | None => wobble s
  | Some nextBlock =>
      let scrollOffset := Z.abs (innerHeight win - offsetHeight nextBlock) in
      let scrollOffset :=
        if (rect_top nextBlock <? innerHeight win)%Z
        then scrollY win + offsetHeight nextBlock
        else scrollOffset in
      mk (move (currentBlockIndex + 1) (editor s)) (classList s) (timers s)
         (calls s ++ [window_scrollTo 0 scrollOffset;
                      blocks_move (currentBlockIndex + 1);
                      tooltip_hide])
  end.

Definition MoveUpTune_handleClick (win : Window) (s : State) : State :=
  let currentBlockIndex := getCurrentBlockIndex (editor s) in
  let currentBlock := getBlockByIndex (editor s) currentBlockIndex in
  let previousBlock := getBlockByIndex (editor s) (currentBlockIndex - 1) in
  match (currentBlockIndex =? 0)%Z, currentBlock, previousBlock with
  | false, Some currentBlock, Some previousBlock =>
      let scrollUpOffset :=
        if (rect_top previousBlock >? 0)%Z
        then Z.abs (rect_top currentBlock) - Z.abs (rect_top previousBlock)
        else innerHeight win - Z.abs (rect_top currentBlock)
             + Z.abs (rect_top previousBlock) in
      mk (move (currentBlockIndex - 1) (editor s)) (classList s) (timers s)
         (calls s ++ [window_scrollBy 0 (-1 * scrollUpOffset);
                      blocks_move (currentBlockIndex - 1);
                      tooltip_hide])
  | _, _, _ => wobble s
  end.

(** Whether [api.blocks.move] was called between two states. *)
Definition moved (before after : State) : bool :=
  existsb (fun c => match c with blocks_move _ => true | _ => false end)
          (drop (length (calls before)) (calls after)).

End WithAPI.

(** A concrete editor: the blocks in document order and the index of the
    current one. *)
Record ListEditor := {
  blocks : list BlockAPI;
  currentBlockIndex : Z
}.

Definition list_getBlockByIndex (ed : ListEditor) (i : Z) : option BlockAPI :=
  if (i <? 0)%Z then None else blocks ed !! Z.to_nat i.

(** Take the current block out and put it back at [toIndex], which becomes
    the current index. *)
Definition list_move (toIndex : Z) (ed : ListEditor) : ListEditor :=
  match list_getBlockByIndex ed (currentBlockIndex ed) with
  | None => ed
  | Some block =>
      let others := delete (Z.to_nat (currentBlockIndex ed)) (blocks ed) in
      {| blocks := take (Z.to_nat toIndex) others ++ block :: drop (Z.to_nat toIndex) others;
         currentBlockIndex := toIndex |}
  end.

(** Two blocks, 40 and 60 pixels high, in a window 500 pixels high. *)
Definition block_a : BlockAPI := {| rect_top := 0; offsetHeight := 40 |}.
Definition block_b : BlockAPI := {| rect_top := 40; offsetHeight := 60 |}.
Definition window : Window := {| innerHeight := 500; scrollY := 0 |}.

Definition on_block (i : Z) : State ListEditor :=
  mk ListEditor {| blocks := [block_a; block_b]; currentBlockIndex := i |} [] [] [].

End MoveTunes.

(* ===================================================================== *)
(** * Predicates the properties are stated with                           *)
(* ===================================================================== *)

Module Spec.
Import JS.

(** Link tool: on confirm, [value] passes validation and [link] is what
    gets committed. *)
Definition passes_and_commits (value link : string) : Prop :=
  forall parentAnchor s,
    LinkInlineTool.input_value s = value ->
    LinkInlineTool.validateURL value = true /\
    LinkInlineTool.committed
      (LinkInlineTool.new_calls s (LinkInlineTool.enterPressed parentAnchor s)) = [link].

(** Link tool: on confirm, [value] is refused: the tooltip shows and is
    hidden 1000 ms later, the input stays open with its text, nothing is
    committed. *)
Definition refused (value : string) (before after : LinkInlineTool.t) : Prop :=
  LinkInlineTool.validateURL value = false /\
  LinkInlineTool.new_calls before after =
    [LinkInlineTool.tooltip_show "The URL is not valid." "top";
     LinkInlineTool.setTimeout LinkInlineTool.cb_tooltip_hide 1000;
     LinkInlineTool.log "Incorrect Link pasted" "warn" value] /\
  LinkInlineTool.inputOpened after = LinkInlineTool.inputOpened before /\
  LinkInlineTool.labelShowed after = LinkInlineTool.labelShowed before /\
  LinkInlineTool.input_value after = value /\
  LinkInlineTool.committed (LinkInlineTool.new_calls before after) = [].

(** Mutation guard as the specification words it: every node added or
    removed across the batch carries the marker. *)
Definition every_node_mutation_free (records : list Block.MutationRecord) : bool :=
  forallb (fun r => forallb Block.mutationFree
                      (Block.addedNodes r ++ Block.removedNodes r)) records.

(** Some record of the batch lists an element that carries the marker. *)
Definition some_node_marked (records : list Block.MutationRecord) : Prop :=
  exists r node,
    In r records /\ In node (Block.addedNodes r ++ Block.removedNodes r)
    /\ Block.isElement node = true
    /\ Block.dataset_mutationFree node = Some "true".

(** A batch is discarded when handling it leaves Block and environment as
    they were, whatever they are. *)
Definition discarded (records : list Block.MutationRecord) : Prop :=
  forall (W : Type) (d : Block.Document) (b : Block.t W) (e : Block.Env W),
    Block.didMutated_now W d (Block.Mutations records) (b, e) = (b, e).

(** The listeners [addInputEvents] and [removeInputEvents] deal with. *)
Definition targets (d : Block.Document) (ins : list Block.Node)
    (n : Block.Node) (l : Block.Listener) : bool :=
  existsb (fun input =>
             (input =? n)%nat
             && match l with
                | Block.focus_handleFocus => true
                | Block.input_didMutated => Block.isNativeInput d input
                end) ins.

(** Events that reach a Block only through what [willSelect] sets up: a
    change of the observed subtree, focus on one of its inputs, input on one
    of its native inputs. *)
Definition through_selection (d : Block.Document) (ins : list Block.Node)
    (ev : Block.DomEvent) : Prop :=
  match ev with
  | Block.MutationBatch _ => True
  | Block.FocusOn n => In n ins
  | Block.InputOn n => In n ins /\ Block.isNativeInput d n = true
  | Block.TimerFires => False
  end.

(** Toolbox entry selection as the specification words it: the declared
    keys all equal the Block's values. *)
Definition all_keys_equal (equals : value -> value -> bool)
    (blockData : gmap string value) (item : Block.ToolboxConfigEntry) : bool :=
  match Block.entry_data item with
  | Some entries =>
      forallb (fun entry => equals (get blockData (fst entry)) (snd entry)) entries
  | None => false
  end.

Definition first_all_keys_equal (equals : value -> value -> bool)
    (blockData : gmap string value) (toolbox : list Block.ToolboxConfigEntry)
    : option Block.ToolboxConfigEntry :=
  List.find (all_keys_equal equals blockData) toolbox.

(** What the code looks for instead: some declared key whose value in the
    Block's data is truthy and equal to the declared one. *)
Definition some_key_matches (equals : value -> value -> bool)
    (blockData : gmap string value) (item : Block.ToolboxConfigEntry) : Prop :=
  exists entries k v,
    Block.entry_data item = Some entries /\ In (k, v) entries
    /\ truthy (get blockData k) = true /\ equals (get blockData k) v = true.

(** A tune's entry is excluded from the bag a settled [save()] hands out. *)
Definition excluded {W : Type} (name : string)
    (p : Block.Promise W (option Block.SavedData)) : Prop :=
  exists bag, Block.tunes_bag W p = Some bag /\ bag !! name = None.

End Spec.

(* ===================================================================== *)
(** * Sample inputs                                                       *)
(* ===================================================================== *)

Module Sample.
Import JS.

(** The outside world of the samples: a counter of the calls made so far. *)
Definition W : Type := nat.

Definition performance_now (w : W) : Z * W := (Z.of_nat w, S w).

(** A decorative, marked element and an ordinary one. *)
Definition marked : Block.DomNode :=
  {| Block.isElement := true; Block.dataset_mutationFree := Some "true" |}.
Definition plain : Block.DomNode :=
  {| Block.isElement := true; Block.dataset_mutationFree := None |}.

(** One record adding both of them. *)
Definition mixed_batch : list Block.MutationRecord :=
  [ {| Block.addedNodes := [marked; plain]; Block.removedNodes := [] |} ].

(** A holder without any input, e.g. a delimiter or an image. *)
Definition no_inputs : Block.Document :=
  {| Block.findAllInputs := [];
     Block.contains := fun _ _ => false;
     Block.isNativeInput := fun _ => false;
     Block.activeElement := None;
     Block.anchorNode := None |}.

(** A holder with a contenteditable (node 1) and a native input (node 2),
    the caret being in the latter. *)
Definition two_inputs : Block.Document :=
  {| Block.findAllInputs := [1%nat; 2%nat];
     Block.contains := fun _ _ => false;
     Block.isNativeInput := fun n => (n =? 2)%nat;
     Block.activeElement := Some 2%nat;
     Block.anchorNode := None |}.

Definition empty_env : Block.Env W :=
  {| Block.world := 0%nat; Block.heap := []; Block.listeners := []; Block.trace := [] |}.

(** A tool that saves [{text: "hi", level: 2, style: "x"}] and has no hooks. *)
Definition heading_data : gmap string value :=
  <["text" := VStr "hi"]> (<["level" := VNum 2]> (<["style" := VStr "x"]> ∅)).

Definition heading_instance : Block.IBlockTool W :=
  {| Block.tool_save := fun w => (Normal heading_data, w);
     Block.tool_method := fun _ => None |}.

(** A tool whose [save] throws. *)
Definition failing_instance : Block.IBlockTool W :=
  {| Block.tool_save := fun w => (Throw "Error: boom", w);
     Block.tool_method := fun _ => None |}.

(** A tune that saves [true] on the first call made to the world and
    throws from then on. *)
Definition flaky_tune : Block.IBlockTune W :=
  {| Block.constructor_name := "Flaky";
     Block.tune_save :=
       Some (fun w => (if (w =? 0)%nat then Normal (VBool true)
                       else Throw "Error: flaky", S w)) |}.

(** A tune whose [save] always throws, and one that always saves [7]. *)
Definition broken_tune : Block.IBlockTune W :=
  {| Block.constructor_name := "Broken";
     Block.tune_save := Some (fun w => (Throw "Error: broken", w)) |}.

Definition steady_tune : Block.IBlockTune W :=
  {| Block.constructor_name := "Steady";
     Block.tune_save := Some (fun w => (Normal (VNum 7), w)) |}.

Definition tune (name : string) (internal : bool) (i : Block.IBlockTune W)
    : Block.BlockTune W :=
  {| Block.tune_name := name; Block.isInternal := internal;
     Block.tune_create := fun _ => i |}.

Definition tool (instance : Block.IBlockTool W)
    (toolbox : list Block.ToolboxConfigEntry) (tunes : list (Block.BlockTune W))
    : Block.BlockTool W :=
  {| Block.tool_name := "header";
     Block.toolbox := toolbox;
     Block.tool_tunes := tunes;
     Block.tool_create := fun _ _ => instance |}.

Definition options (t : Block.BlockTool W) (tunesData : gmap string value)
    : Block.BlockConstructorOptions W :=
  {| Block.opt_id := "b1"; Block.opt_data := ∅; Block.opt_tool := t;
     Block.opt_readOnly := false; Block.opt_tunesData := tunesData |}.

(** A freshly constructed Block without tunes. *)
Definition bare : Block.t W * Block.Env W :=
  Block.new W (options (tool heading_instance [] []) ∅) empty_env.

(** Deep equality on the data of the samples. *)
Fixpoint deep_equal (a b : value) {struct a} : bool :=
  match a, b with
  | VUndefined, VUndefined => true
  | VNull, VNull => true
  | VBool x, VBool y => Bool.eqb x y
  | VNum x, VNum y => (x =? y)%Z
  | VStr x, VStr y => String.eqb x y
  | VArr xs, VArr ys =>
      (fix go (xs ys : list value) : bool :=
         match xs, ys with
         | [], [] => true
         | x :: xs', y :: ys' => deep_equal x y && go xs' ys'
         | _, _ => false
         end) xs ys
  | VObj xs, VObj ys =>
      (fix go (xs ys : list (string * value)) : bool :=
         match xs, ys with
         | [], [] => true
         | (k, x) :: xs', (k', y) :: ys' =>
             String.eqb k k' && deep_equal x y && go xs' ys'
         | _, _ => false
         end) xs ys
  | _, _ => false
  end.

(** Two heading variants that differ in level and style. *)
Definition h1 : Block.ToolboxConfigEntry :=
  {| Block.title := "Heading 1";
     Block.entry_data := Some [("level", VNum 1); ("style", VStr "x")] |}.
Definition h2 : Block.ToolboxConfigEntry :=
  {| Block.title := "Heading 2";
     Block.entry_data := Some [("level", VNum 2); ("style", VStr "y")] |}.

Definition heading : Block.t W * Block.Env W :=
  Block.new W (options (tool heading_instance [h1; h2] []) ∅) empty_env.

(** A Block whose tool cannot save. *)
Definition failing : Block.t W * Block.Env W :=
  Block.new W (options (tool failing_instance [] []) ∅) empty_env.

(** Loaded with data for a tune "color" that is not registered. *)
Definition themed_options : Block.BlockConstructorOptions W :=
  options (tool heading_instance [] [tune "anchor" false steady_tune])
          {[ "color" := VStr "red" ]}.

(** Loaded with data for the internal tune "align", whose save throws. *)
Definition aligned : Block.t W * Block.Env W :=
  Block.new W
    (options (tool heading_instance []
                [tune "align" true broken_tune; tune "anchor" false steady_tune])
             {[ "align" := VStr "left" ]})
    empty_env.

(** A user tune "lock" whose save throws, next to a healthy "anchor". *)
Definition guarded : Block.t W * Block.Env W :=
  Block.new W
    (options (tool heading_instance []
                [tune "lock" false broken_tune; tune "anchor" false steady_tune]) ∅)
    empty_env.

(** A user tune "pin" that saves once and throws afterwards. *)
Definition pinned : Block.t W * Block.Env W :=
  Block.new W (options (tool heading_instance [] [tune "pin" false flaky_tune]) ∅)
    empty_env.

End Sample.

(* ===================================================================== *)
(** * Regular expressions: the matcher decides the language               *)
(* ===================================================================== *)

Section RegexProperties.
Import Regex.

Lemma matches_nil_nullable r s : matches r s -> s = [] -> nullable r = true.
Proof.
  induction 1 as [ |p c Hp|r1 r2 s1 s2 _ IH1 _ IH2|r1 r2 t _ IH|r1 r2 t _ IH
                  |r|r s1 s2 _ _ _ _]; intros Hs; simpl; try done.
  - apply app_eq_nil in Hs as [-> ->]. by rewrite IH1, IH2.
  - by rewrite IH.
  - rewrite IH by done. apply orb_true_r.
Qed.

Lemma nullable_matches r : nullable r = true <-> matches r [].
Proof.
  split; [|intros H; by eapply matches_nil_nullable].
  induction r as [ | |p|a IHa b IHb|a IHa b IHb|a _]; simpl; intros H; try done.
  - constructor.
  - apply andb_true_iff in H as [Ha Hb].
    change (@nil ascii) with (@nil ascii ++ [])%list. constructor; auto.
  - apply orb_true_iff in H as [Ha|Hb]; [apply m_alt_l | apply m_alt_r]; auto.
  - constructor.
Qed.

Lemma matches_Void s : ~ matches Void s.
Proof. intros H. inversion H. Qed.

Lemma matches_Eps s : matches Eps s <-> s = [].
Proof. split; [intros H; by inversion H | intros ->; constructor]. Qed.

Lemma matches_Cat a b s :
  matches (Cat a b) s <-> exists s1 s2, s = (s1 ++ s2)%list /\ matches a s1 /\ matches b s2.
Proof.
  split.
  - intros H. inversion H; subst. eauto.
  - intros (s1 & s2 & -> & H1 & H2). by constructor.
Qed.

Lemma matches_Alt a b s : matches (Alt a b) s <-> matches a s \/ matches b s.
Proof.
  split.
  - intros H. inversion H; subst; auto.
  - intros [H|H]; [by apply m_alt_l | by apply m_alt_r].
Qed.

Lemma matches_Star_cons a c s :
  matches (Star a) (c :: s) <->
  exists s1 s2, s = (s1 ++ s2)%list /\ matches a (c :: s1) /\ matches (Star a) s2.
Proof.
  split.
  - intros H. remember (Star a) as r eqn:Hr. remember (c :: s) as t eqn:Ht.
    revert s Ht.
    induction H as [ |p0 c0 Hp|r1 r2 s1 s2 H1 _ H2 _|r1 r2 t0 H1 _|r1 r2 t0 H1 _
                    |r0|r0 s1 s2 H1 _ H2 IH2]; intros s Ht; try discriminate.
    injection Hr as ->. destruct s1 as [|c' s1]; simpl in Ht.
    + by apply IH2.
    + injection Ht as -> <-. eauto.
  - intros (s1 & s2 & -> & H1 & H2).
    change (c :: s1 ++ s2)%list with ((c :: s1) ++ s2)%list. by constructor.
Qed.

Lemma matches_Cat_Void_l b s : matches (Cat Void b) s <-> False.
Proof.
  rewrite matches_Cat. split; [|done].
  intros (s1 & s2 & _ & H & _). by apply matches_Void in H.
Qed.

Lemma matches_Cat_Void_r a s : matches (Cat a Void) s <-> False.
Proof.
  rewrite matches_Cat. split; [|done].
  intros (s1 & s2 & _ & _ & H). by apply matches_Void in H.
Qed.

Lemma matches_Cat_Eps_l b s : matches (Cat Eps b) s <-> matches b s.
Proof.
  rewrite matches_Cat. split.
  - intros (s1 & s2 & -> & H1 & H2). by apply matches_Eps in H1 as ->.
  - intros H. exists [], s. repeat split; [constructor | done].
Qed.

Lemma matches_Cat_Eps_r a s : matches (Cat a Eps) s <-> matches a s.
Proof.
  rewrite matches_Cat. split.
  - intros (s1 & s2 & -> & H1 & H2). apply matches_Eps in H2 as ->.
    by rewrite app_nil_r.
  - intros H. exists s, []. rewrite app_nil_r. repeat split; [done | constructor].
Qed.

Lemma matches_Void_iff s : matches Void s <-> False.
Proof. split; [apply matches_Void | done]. Qed.

Lemma cat_matches a b s : matches (cat a b) s <-> matches (Cat a b) s.
Proof.
  unfold cat. destruct a, b;
    rewrite ?matches_Cat_Void_l, ?matches_Cat_Void_r, ?matches_Cat_Eps_l,
      ?matches_Cat_Eps_r, ?matches_Void_iff; reflexivity.
Qed.

Lemma alt_matches a b s : matches (alt a b) s <-> matches (Alt a b) s.
Proof.
  unfold alt. destruct a, b; rewrite ?(matches_Alt _ _ s), ?matches_Void_iff; tauto.
Qed.

Lemma der_matches c r : forall s, matches (der c r) s <-> matches r (c :: s).
Proof.
  induction r as [ | |p|a IHa b IHb|a IHa b IHb|a IHa]; intros s; simpl.
  - split; intros H; inversion H.
  - split; intros H; inversion H.
  - destruct (p c) eqn:Hp.
    + rewrite matches_Eps. split.
      * intros ->. by constructor.
      * intros H. by inversion H.
    + split; intros H; inversion H; subst. congruence.
  - assert (Hcat : matches (cat (der c a) b) s <->
                   exists s1 s2, s = (s1 ++ s2)%list /\ matches a (c :: s1) /\ matches b s2).
    { rewrite cat_matches, matches_Cat. split.
      - intros (s1 & s2 & -> & H1 & H2). exists s1, s2. by rewrite <- IHa.
      - intros (s1 & s2 & -> & H1 & H2). exists s1, s2. by rewrite IHa. }
    rewrite matches_Cat.
    destruct (nullable a) eqn:Hn.
    + rewrite alt_matches, matches_Alt, Hcat, IHb. split.
      * intros [(s1 & s2 & -> & H1 & H2)|H].
        -- by exists (c :: s1), s2.
        -- exists [], (c :: s). repeat split; [by apply nullable_matches | done].
      * intros ([|c' s1] & s2 & Heq & H1 & H2); simpl in Heq.
        -- right. by subst.
        -- injection Heq as <- ->. left. by exists s1, s2.
    + rewrite Hcat. split.
      * intros (s1 & s2 & -> & H1 & H2). by exists (c :: s1), s2.
      * intros ([|c' s1] & s2 & Heq & H1 & H2); simpl in Heq.
        -- apply nullable_matches in H1. congruence.
        -- injection Heq as <- ->. by exists s1, s2.
  - rewrite alt_matches, !matches_Alt, IHa, IHb. tauto.
  - rewrite cat_matches, matches_Cat, matches_Star_cons. split.
    + intros (s1 & s2 & -> & H1 & H2). exists s1, s2. by rewrite <- IHa.
    + intros (s1 & s2 & -> & H1 & H2). exists s1, s2. by rewrite IHa.
Qed.

(** The derivative matcher accepts exactly the words of the expression. *)
Lemma accepts_matches s : forall r, accepts r s = true <-> matches r s.
Proof.
  induction s as [|c s IH]; intros r; simpl.
  - apply nullable_matches.
  - by rewrite IH, der_matches.
Qed.

Lemma accepts_Void s : accepts Void s = false.
Proof. by induction s. Qed.

(** A word only has characters some class of the expression admits. *)
Lemma matches_admits r s : matches r s -> forall c, In c s -> admits r c = true.
Proof.
  induction 1 as [ |p c0 Hp|r1 r2 s1 s2 _ IH1 _ IH2|r1 r2 t _ IH|r1 r2 t _ IH
                  |r0|r0 s1 s2 _ IH1 _ IH2]; intros c Hin; simpl in *.
  - done.
  - by destruct Hin as [<-|[]].
  - apply in_app_or in Hin as [Hin|Hin]; apply orb_true_iff; auto.
  - apply orb_true_iff; auto.
  - apply orb_true_iff; auto.
  - done.
  - apply in_app_or in Hin as [Hin|Hin]; auto.
Qed.

End RegexProperties.

(* ===================================================================== *)
(** * Link inline tool: properties                                        *)
(* ===================================================================== *)

Section LinkProperties.
Import Regex LinkInlineTool.

Lemma new_calls_emit cs s : new_calls s (emit cs s) = cs.
Proof. unfold new_calls, emit; simpl. by rewrite drop_app_length. Qed.

Lemma validateURL_example_com : validateURL "example.com" = true.
Proof. vm_compute. reflexivity. Qed.

Lemma validateURL_internal_path : validateURL "/internal/path" = false.
Proof. vm_compute. reflexivity. Qed.

Lemma validateURL_anchor : validateURL "#section" = false.
Proof. vm_compute. reflexivity. Qed.

Lemma validateURL_spaces : validateURL "not a url with spaces" = false.
Proof. vm_compute. reflexivity. Qed.

Lemma validateURL_matches str :
  validateURL str = true <-> matches pattern (list_ascii_of_string str).
Proof. apply accepts_matches. Qed.

(** No value with a space in it is a valid URL. *)
Lemma validateURL_space str :
  In " "%char (list_ascii_of_string str) -> validateURL str = false.
Proof.
  intros Hin. apply not_true_is_false. intros Hv%validateURL_matches.
  pose proof (matches_admits _ _ Hv _ Hin) as Ha.
  vm_compute in Ha. discriminate.
Qed.

(** No value that starts with a slash or a hash is a valid URL: the pattern
    has no word starting so. *)
Lemma validateURL_slash rest : validateURL (String "/" rest) = false.
Proof.
  unfold validateURL, test_anchored. cbn [list_ascii_of_string accepts].
  replace (der "/" pattern) with Void by (vm_compute; reflexivity).
  apply accepts_Void.
Qed.

Lemma validateURL_hash rest : validateURL (String "#" rest) = false.
Proof.
  unfold validateURL, test_anchored. cbn [list_ascii_of_string accepts].
  replace (der "#" pattern) with Void by (vm_compute; reflexivity).
  apply accepts_Void.
Qed.

(** [addProtocol] on its own would leave both untouched. *)
Lemma prepareLink_leaves_internal_and_anchor :
  prepareLink "/internal/path" = "/internal/path" /\ prepareLink "#section" = "#section".
Proof. split; vm_compute; reflexivity. Qed.

Lemma enterPressed_invalid parentAnchor s :
  String.eqb (trim (input_value s)) "" = false ->
  validateURL (input_value s) = false ->
  Spec.refused (input_value s) s (enterPressed parentAnchor s).
Proof.
  intros Hne Hinv. unfold Spec.refused, enterPressed.
  rewrite Hne, Hinv. simpl negb. cbv iota.
  rewrite new_calls_emit. repeat split; reflexivity.
Qed.

End LinkProperties.

(** C5, as stated, fails: a root-relative path does not pass validation, so
    it is never committed. *)
Lemma C5_internal_path_not_accepted :
  ~ Spec.passes_and_commits "/internal/path" "/internal/path".
Proof.
  intros H.
  destruct (H false (LinkInlineTool.mk "/internal/path" true true true true [])
              eq_refl) as [Hv _].
  rewrite validateURL_internal_path in Hv. discriminate.
Qed.

(** C5 (amended): on confirm, "example.com" passes validation and is
    committed as "https://example.com"; "/internal/path", "#section" and
    "not a url with spaces" all fail validation: the tooltip is shown, its
    hiding is scheduled 1000 ms later, the input keeps its state and text,
    and nothing is committed. *)
Theorem C5_enterPressed_examples :
  forall parentAnchor opened label hover fake cs,
    let s v := LinkInlineTool.mk v opened label hover fake cs in
    (LinkInlineTool.validateURL "example.com" = true /\
     LinkInlineTool.committed
       (LinkInlineTool.new_calls (s "example.com")
          (LinkInlineTool.enterPressed parentAnchor (s "example.com")))
     = ["https://example.com"]) /\
    Spec.refused "/internal/path" (s "/internal/path")
      (LinkInlineTool.enterPressed parentAnchor (s "/internal/path")) /\
    Spec.refused "#section" (s "#section")
      (LinkInlineTool.enterPressed parentAnchor (s "#section")) /\
    Spec.refused "not a url with spaces" (s "not a url with spaces")
      (LinkInlineTool.enterPressed parentAnchor (s "not a url with spaces")).
Proof.
  intros parentAnchor opened label hover fake cs s.
  split; [split; [apply validateURL_example_com|] |].
  - unfold LinkInlineTool.enterPressed. simpl LinkInlineTool.input_value.
    rewrite validateURL_example_com.
    replace (LinkInlineTool.trim "example.com") with "example.com"
      by (vm_compute; reflexivity).
    replace (LinkInlineTool.prepareLink "example.com") with "https://example.com"
      by (vm_compute; reflexivity).
    simpl String.eqb. cbv iota. simpl negb. cbv iota.
    unfold LinkInlineTool.new_calls, LinkInlineTool.insertLink,
      LinkInlineTool.removeFakeBackground, LinkInlineTool.emit, s.
    simpl LinkInlineTool.calls.
    destruct parentAnchor; simpl LinkInlineTool.calls;
      rewrite <- ?app_assoc; rewrite drop_app_length; reflexivity.
  - split; [|split];
      apply (enterPressed_invalid parentAnchor (s _)); vm_compute; reflexivity.
Qed.

(* ===================================================================== *)
(** * Move tunes: properties                                              *)
(* ===================================================================== *)

Section MoveProperties.
Import MoveTunes.

Context {Editor : Type}.
Variable getCurrentBlockIndex : Editor -> Z.
Variable getBlockByIndex : Editor -> Z -> option BlockAPI.
Variable move : Z -> Editor -> Editor.

Local Abbreviation State := (State Editor).
Local Abbreviation down :=
  (MoveDownTune_handleClick Editor getCurrentBlockIndex getBlockByIndex move).
Local Abbreviation up :=
  (MoveUpTune_handleClick Editor getCurrentBlockIndex getBlockByIndex move).

Lemma moved_wobble (s : State) : moved Editor s (wobble Editor s) = false.
Proof. unfold moved, wobble; simpl. by rewrite drop_all. Qed.

Lemma down_moves_iff win (s : State) :
  moved Editor s (down win s) = true <->
  is_Some (getBlockByIndex (editor Editor s) (getCurrentBlockIndex (editor Editor s) + 1)).
Proof.
  unfold MoveDownTune_handleClick.
  destruct (getBlockByIndex _ _) as [nextBlock|].
  - unfold moved; simpl. rewrite drop_app_length. simpl. split; eauto.
  - rewrite moved_wobble. split; [discriminate | intros [? ?]; discriminate].
Qed.

Lemma up_moves_iff win (s : State) :
  moved Editor s (up win s) = true <->
  getCurrentBlockIndex (editor Editor s) <> 0
  /\ is_Some (getBlockByIndex (editor Editor s) (getCurrentBlockIndex (editor Editor s)))
  /\ is_Some (getBlockByIndex (editor Editor s) (getCurrentBlockIndex (editor Editor s) - 1)).
Proof.
  unfold MoveUpTune_handleClick.
  destruct (Z.eqb_spec (getCurrentBlockIndex (editor Editor s)) 0) as [Hz|Hz].
  - rewrite moved_wobble. split; [discriminate | intros [? _]; contradiction].
  - destruct (getBlockByIndex _ (getCurrentBlockIndex _)) as [cur|].
    + destruct (getBlockByIndex _ (_ - 1)) as [prev|].
      * unfold moved; simpl. rewrite drop_app_length. simpl. split; eauto.
      * rewrite moved_wobble.
        split; [discriminate | intros (_ & _ & [? ?]); discriminate].
    + rewrite moved_wobble.
      split; [discriminate | intros (_ & [? ?] & _); discriminate].
Qed.

Lemma down_boundary win (s : State) :
  getBlockByIndex (editor Editor s) (getCurrentBlockIndex (editor Editor s) + 1) = None ->
  down win s = wobble Editor s.
Proof. intros H. unfold MoveDownTune_handleClick. by rewrite H. Qed.

Lemma up_boundary win (s : State) :
  getCurrentBlockIndex (editor Editor s) = 0
  \/ getBlockByIndex (editor Editor s) (getCurrentBlockIndex (editor Editor s)) = None
  \/ getBlockByIndex (editor Editor s) (getCurrentBlockIndex (editor Editor s) - 1) = None ->
  up win s = wobble Editor s.
Proof.
  intros H. unfold MoveUpTune_handleClick.
  destruct H as [H | [H | H]]; rewrite H; try reflexivity.
  - by destruct (Z.eqb _ _).
  - destruct (Z.eqb _ _); [reflexivity|]. by case_match.
Qed.

End MoveProperties.

Section MoveExamples.
Import MoveTunes.

Local Abbreviation down :=
  (MoveDownTune_handleClick ListEditor currentBlockIndex list_getBlockByIndex list_move window).
Local Abbreviation up :=
  (MoveUpTune_handleClick ListEditor currentBlockIndex list_getBlockByIndex list_move window).

Example move_down_from_first :
  blocks (editor _ (down (on_block 0))) = [block_b; block_a]
  /\ calls _ (down (on_block 0))
     = [window_scrollTo 0 60; blocks_move 1; tooltip_hide].
Proof. split; reflexivity. Qed.

Example move_down_from_last :
  down (on_block 1)
  = mk ListEditor {| blocks := [block_a; block_b]; currentBlockIndex := 1 |}
       ["wobble"] [(classList_remove "wobble", 500)] [].
Proof. reflexivity. Qed.

Example move_up_from_last :
  blocks (editor _ (up (on_block 1))) = [block_b; block_a]
  /\ calls _ (up (on_block 1))
     = [window_scrollBy 0 (-460); blocks_move 0; tooltip_hide].
Proof. split; reflexivity. Qed.

Example move_up_from_first :
  up (on_block 0)
  = mk ListEditor {| blocks := [block_a; block_b]; currentBlockIndex := 0 |}
       ["wobble"] [(classList_remove "wobble", 500)] [].
Proof. reflexivity. Qed.

End MoveExamples.

(** C10: the move-down tune calls [api.blocks.move] exactly when a block
    exists after the current one, the move-up tune exactly when the current
    index is not 0 and both the current and the previous block exist; in each
    boundary case the editor (hence the block order) is untouched, no call is
    made, and the only changes are the animation class on the button and the
    timer that removes it 500 ms later. *)
Theorem C10_move_only_inside_bounds :
  forall (Editor : Type) (getCurrentBlockIndex : Editor -> Z)
         (getBlockByIndex : Editor -> Z -> option MoveTunes.BlockAPI)
         (move : Z -> Editor -> Editor) (win : MoveTunes.Window)
         (s : MoveTunes.State Editor),
    let i := getCurrentBlockIndex (MoveTunes.editor Editor s) in
    let at_ k := getBlockByIndex (MoveTunes.editor Editor s) k in
    let down := MoveTunes.MoveDownTune_handleClick Editor getCurrentBlockIndex
                  getBlockByIndex move win s in
    let up := MoveTunes.MoveUpTune_handleClick Editor getCurrentBlockIndex
                getBlockByIndex move win s in
    let boundary s' :=
      MoveTunes.editor Editor s' = MoveTunes.editor Editor s
      /\ MoveTunes.calls Editor s' = MoveTunes.calls Editor s
      /\ MoveTunes.classList Editor s' =
           MoveTunes.classList_add MoveTunes.animation (MoveTunes.classList Editor s)
      /\ MoveTunes.timers Editor s' =
           (MoveTunes.timers Editor s
            ++ [(MoveTunes.classList_remove MoveTunes.animation, 500)])%list in
    (MoveTunes.moved Editor s down = true <-> is_Some (at_ (i + 1)))
    /\ (MoveTunes.moved Editor s up = true <->
          i <> 0 /\ is_Some (at_ i) /\ is_Some (at_ (i - 1)))
    /\ (at_ (i + 1) = None -> boundary down)
    /\ (i = 0 \/ at_ i = None \/ at_ (i - 1) = None -> boundary up).
Proof.
  intros Editor gi gb mv win s i at_ down up boundary.
  split; [apply down_moves_iff|].
  split; [apply up_moves_iff|].
  split; intros H.
  - subst down. rewrite (down_boundary _ _ _ _ _ H). by repeat split.
  - subst up. rewrite (up_boundary _ _ _ _ _ H). by repeat split.
Qed.

(* ===================================================================== *)
(** * Block: inputs, mutations and the selection boundary                 *)
(* ===================================================================== *)

Section BlockDomProperties.
Import Block.

Context {W : Type}.
Implicit Types (b : Block.t W) (e : Block.Env W) (d : Document).

Lemma mutationFree_true node :
  mutationFree node = true <->
  isElement node = true /\ dataset_mutationFree node = Some "true".
Proof.
  unfold mutationFree. rewrite andb_true_iff, bool_decide_eq_true. tauto.
Qed.

Lemma shouldFireUpdate_false records :
  shouldFireUpdate (Mutations records) = false <-> Spec.some_node_marked records.
Proof.
  unfold shouldFireUpdate, Spec.some_node_marked.
  rewrite negb_false_iff, existsb_exists. split.
  - intros (r & Hr & Hx). apply existsb_exists in Hx as (node & Hn & Hm).
    apply mutationFree_true in Hm. exists r, node. tauto.
  - intros (r & node & Hr & Hn & Hm). exists r. split; [done|].
    apply existsb_exists. exists node. split; [done|].
    by apply mutationFree_true.
Qed.

Lemma call_trace methodName b e :
  exists evs,
    trace W (call W methodName b e) = (trace W e ++ evs)%list
    /\ (is_Some (tool_method W (toolInstance W b) methodName)
        <-> In (ToolHook methodName) evs)
    /\ (forall name, ~ In (Emit name) evs).
Proof.
  unfold call. destruct (tool_method W (toolInstance W b) methodName) as [m|].
  - destruct (String.eqb methodName "appendCallback");
      destruct (m _) as [[u|msg] w]; simpl; rewrite <- ?app_assoc;
      eexists; (split; [reflexivity|]); simpl;
      (split; [split; [intros _; tauto | eauto] | intros name; intuition discriminate]).
  - exists []. rewrite app_nil_r. split; [done|]. split.
    + split; [intros [? ?]; discriminate | intros []].
    + intros name [].
Qed.

Lemma emissions_app e evs :
  emissions W (mkEnv W (world W e) (heap W e) (listeners W e) (trace W e ++ evs)) =
  (emissions W e
   + length (List.filter (fun ev => match ev with Emit _ => true | _ => false end) evs))%nat.
Proof. unfold emissions; simpl. by rewrite List.filter_app, length_app. Qed.

Lemma inputs_recomputed d b :
  length (cachedInputs W b) = 0%nat ->
  inputs W d b =
    (findAllInputs d,
     set_cachedInputs W (findAllInputs d)
       (set_inputIndex W
          (Z.min (inputIndex W b) (Z.of_nat (length (findAllInputs d)) - 1)) b)).
Proof.
  intros Hc. unfold inputs. rewrite Hc. simpl.
  destruct (Z.gtb_spec (inputIndex W b) (Z.of_nat (length (findAllInputs d)) - 1)).
  - by rewrite Z.min_r by lia.
  - rewrite Z.min_l by lia. by destruct b.
Qed.

Lemma cachedInputs_updateCurrentInput d b :
  length (cachedInputs W b) = 0%nat ->
  cachedInputs W (updateCurrentInput W d b) = findAllInputs d.
Proof.
  intros Hc. unfold updateCurrentInput, set_currentInput.
  rewrite (inputs_recomputed d b Hc). by case_match.
Qed.

Lemma didMutated_now_discards d arg b e :
  shouldFireUpdate arg = false -> didMutated_now W d arg (b, e) = (b, e).
Proof. intros H. unfold didMutated_now. by rewrite H. Qed.

Lemma didMutated_now_fires d arg b e :
  shouldFireUpdate arg = true ->
  let s' := didMutated_now W d arg (b, e) in
  cachedInputs W (fst s') = findAllInputs d
  /\ emissions W (snd s') = S (emissions W e)
  /\ exists evs,
       trace W (snd s') = (trace W e ++ evs ++ [Emit "didMutated"])%list
       /\ (is_Some (tool_method W (toolInstance W b) "updated")
           <-> In (ToolHook "updated") evs).
Proof.
  intros H. unfold didMutated_now. rewrite H. simpl negb. cbv iota. cbv zeta.
  simpl fst. simpl snd. split.
  { by apply cachedInputs_updateCurrentInput. }
  set (b' := updateCurrentInput W d (set_cachedInputs W [] b)).
  destruct (call_trace "updated" b' e) as (evs & Ht & Hh & Hne).
  assert (Hnone : List.filter
            (fun ev => match ev with Emit _ => true | _ => false end) evs = []).
  { clear -Hne. induction evs as [|ev evs IH]; [done|]. simpl.
    destruct ev; try (apply IH; intros n Hn; apply (Hne n); by right).
    exfalso. apply (Hne eventName). by left. }
  split.
  - unfold emissions, record. simpl. rewrite Ht.
    rewrite !List.filter_app, !length_app, Hnone. simpl. lia.
  - exists evs. unfold record. simpl. rewrite Ht, <- app_assoc. split; [done|].
    assert (toolInstance W b' = toolInstance W b) as <-; [|done].
    subst b'. unfold updateCurrentInput, set_currentInput.
    destruct (inputs W d _) as [ins b1] eqn:Hi.
    assert (toolInstance W b1 = toolInstance W b).
    { unfold inputs in Hi. simpl in Hi. injection Hi as _ <-. by case_match. }
    by case_match.
Qed.

(** A fired notification changes the state; a discarded one does not. *)
Lemma didMutated_now_unchanged_iff d records b e :
  didMutated_now W d (Mutations records) (b, e) = (b, e) <-> Spec.some_node_marked records.
Proof.
  rewrite <- shouldFireUpdate_false. split.
  - intros Heq. destruct (shouldFireUpdate (Mutations records)) eqn:Hs; [|done].
    destruct (didMutated_now_fires d _ b e Hs) as (_ & He & _).
    rewrite Heq in He. simpl in He. lia.
  - apply didMutated_now_discards.
Qed.

End BlockDomProperties.

(** C1, as stated, fails: a batch in which only one of two added nodes is
    marked is discarded all the same. *)
Lemma C1_partly_marked_batch_discarded :
  ~ (Spec.discarded Sample.mixed_batch <->
     Spec.every_node_mutation_free Sample.mixed_batch = true).
Proof.
  intros [H _]. enough (false = true) by discriminate. apply H.
  intros W d b e. apply didMutated_now_discards. reflexivity.
Qed.

(** C1 (amended): a batch of mutation records handled by [didMutated] is
    discarded (state, cache and trace untouched: no cache drop, no updated
    hook, no emission) if and only if at least one node added or removed in
    it is an element carrying the mutation-free marker; otherwise the cache
    is dropped and rebuilt, the tool's updated hook is called when it has
    one, and didMutated is emitted once. *)
Theorem C1_batch_discarded_iff_some_node_marked :
  forall records : list Block.MutationRecord,
    (Spec.discarded records <-> Spec.some_node_marked records)
    /\ (forall (W : Type) (d : Block.Document) (b : Block.t W) (e : Block.Env W),
          ~ Spec.some_node_marked records ->
          let s' := Block.didMutated_now W d (Block.Mutations records) (b, e) in
          Block.cachedInputs W (fst s') = Block.findAllInputs d
          /\ Block.emissions W (snd s') = S (Block.emissions W e)
          /\ exists evs,
               Block.trace W (snd s')
               = (Block.trace W e ++ evs ++ [Block.Emit "didMutated"])%list
               /\ (is_Some (Block.tool_method W (Block.toolInstance W b) "updated")
                   <-> In (Block.ToolHook "updated") evs)).
Proof.
  intros records. split.
  - split.
    + intros H.
      apply (didMutated_now_unchanged_iff Sample.no_inputs records
               (fst Sample.bare) (snd Sample.bare)), H.
    + intros H W d b e. by apply didMutated_now_unchanged_iff.
  - intros W d b e Hn. apply didMutated_now_fires.
    destruct (Block.shouldFireUpdate (Block.Mutations records)) eqn:Hs; [done|].
    exfalso. by apply Hn, shouldFireUpdate_false.
Qed.

(** C2, as stated, fails: when the holder has no input the getter stores
    -1, and [currentInput] is undefined. *)
Lemma C2_index_negative_without_inputs :
  let r := Block.inputs Sample.W Sample.no_inputs (fst Sample.bare) in
  ~ (0 <= Block.inputIndex Sample.W (snd r)
          <= Z.of_nat (length (fst r)) - 1)
  /\ fst (Block.currentInput Sample.W Sample.no_inputs (fst Sample.bare)) = None.
Proof. vm_compute. split; [intros [H _]; by apply H | reflexivity]. Qed.

(** C2 (amended): whenever the [inputs] getter recomputes the cache, the
    stored index becomes the smaller of its previous value and
    [inputs.length - 1], so it never exceeds the last valid index; when at
    least one input was found and the index was not negative before, it lies
    in [0, inputs.length - 1] and [currentInput] is an element of [inputs]. *)
Theorem C2_inputs_clamps_index_from_above :
  forall (W : Type) (d : Block.Document) (b : Block.t W),
    length (Block.cachedInputs W b) = 0%nat ->
    let r := Block.inputs W d b in
    let last := Z.of_nat (length (fst r)) - 1 in
    fst r = Block.findAllInputs d
    /\ Block.cachedInputs W (snd r) = fst r
    /\ Block.inputIndex W (snd r) = Z.min (Block.inputIndex W b) last
    /\ Block.inputIndex W (snd r) <= last
    /\ (0 <= Block.inputIndex W b -> fst r <> [] ->
        0 <= Block.inputIndex W (snd r) <= last
        /\ exists n, fst (Block.currentInput W d b) = Some n /\ In n (fst r)).
Proof.
  intros W d b Hc r last. subst last r.
  rewrite (inputs_recomputed d b Hc). simpl.
  repeat split; try done; try lia.
  - destruct (Block.findAllInputs d); [done|]. simpl length in *. lia.
  - unfold Block.currentInput. rewrite (inputs_recomputed d b Hc). simpl.
    unfold Block.js_index.
    assert (Hlen : (0 < length (Block.findAllInputs d))%nat).
    { destruct (Block.findAllInputs d); [done | simpl; lia]. }
    destruct (Z.ltb_spec (Z.min (Block.inputIndex W b)
                (Z.of_nat (length (Block.findAllInputs d)) - 1)) 0); [lia|].
    destruct (Block.findAllInputs d !! Z.to_nat (Z.min (Block.inputIndex W b)
                (Z.of_nat (length (Block.findAllInputs d)) - 1))) as [n|] eqn:Hl.
    + exists n. split; [done|]. apply list_elem_of_In. by eapply list_elem_of_lookup_2.
    + apply lookup_ge_None in Hl. lia.
Qed.

(** With the two inputs of the sample holder the fresh Block keeps index 0. *)
Lemma C2_witness :
  length (Block.cachedInputs Sample.W (fst Sample.bare)) = 0%nat
  /\ Block.inputIndex Sample.W
       (snd (Block.inputs Sample.W Sample.two_inputs (fst Sample.bare))) = 0.
Proof.
  split; [reflexivity|].
  destruct (C2_inputs_clamps_index_from_above Sample.W Sample.two_inputs
              (fst Sample.bare) eq_refl) as (_ & _ & -> & _).
  reflexivity.
Defined.

Section SelectionProperties.
Import Block.

Context {W : Type}.
Implicit Types (b : Block.t W) (e : Block.Env W) (d : Document).

Lemma has_listener_app n l ls ls' :
  has_listener n l (ls ++ ls') = has_listener n l ls || has_listener n l ls'.
Proof. unfold has_listener. apply existsb_app. Qed.

Lemma has_listener_add n l n' l' ls :
  has_listener n l (addEventListener n' l' ls)
  = has_listener n l ls || ((n' =? n)%nat && Listener_eqb l' l).
Proof.
  unfold addEventListener. destruct (has_listener n' l' ls) eqn:Hh.
  - destruct ((n' =? n)%nat && Listener_eqb l' l) eqn:Hx; [|by rewrite orb_false_r].
    apply andb_true_iff in Hx as [->%Nat.eqb_eq Hl].
    assert (l' = l) as -> by (by destruct l', l).
    by rewrite Hh.
  - rewrite has_listener_app. simpl. by rewrite orb_false_r.
Qed.

Lemma Listener_eqb_eq (a c : Listener) : Listener_eqb a c = true <-> a = c.
Proof. by destruct a, c. Qed.

Lemma existsb_filter {A} (p q : A -> bool) (l : list A) :
  existsb p (List.filter q l) = existsb (fun x => q x && p x) l.
Proof.
  induction l as [|x l IH]; [done|]. simpl.
  destruct (q x); simpl; by rewrite IH.
Qed.

Lemma existsb_pointwise {A} (p q : A -> bool) (l : list A) :
  (forall x, p x = q x) -> existsb p l = existsb q l.
Proof. intros H. induction l as [|x l IH]; [done|]. simpl. by rewrite H, IH. Qed.

Lemma existsb_never {A} (l : list A) : existsb (fun _ => false) l = false.
Proof. by induction l. Qed.

Lemma has_listener_remove n l n' l' ls :
  has_listener n l (removeEventListener n' l' ls)
  = has_listener n l ls && negb ((n' =? n)%nat && Listener_eqb l' l).
Proof.
  unfold removeEventListener, has_listener. rewrite existsb_filter.
  destruct ((n' =? n)%nat && Listener_eqb l' l) eqn:Hx; simpl.
  - apply andb_true_iff in Hx as [->%Nat.eqb_eq ->%Listener_eqb_eq].
    rewrite andb_false_r. rewrite <- (existsb_never ls).
    apply existsb_pointwise. intros x. apply andb_negb_l.
  - rewrite andb_true_r. apply existsb_pointwise. intros [m k]. simpl.
    destruct ((m =? n)%nat && Listener_eqb k l) eqn:Hy; [|apply andb_false_r].
    apply andb_true_iff in Hy as [->%Nat.eqb_eq ->%Listener_eqb_eq].
    rewrite andb_true_r. apply negb_true_iff.
    rewrite Nat.eqb_sym.
    assert (Listener_eqb l l' = Listener_eqb l' l) as -> by (by destruct l, l').
    done.
Qed.

Lemma has_listener_added d n l ins ls :
  has_listener n l
    (foldl (fun ls input =>
              let ls := addEventListener input focus_handleFocus ls in
              if isNativeInput d input
              then addEventListener input input_didMutated ls else ls) ls ins)
  = has_listener n l ls || Spec.targets d ins n l.
Proof.
  revert ls. induction ins as [|i ins IH]; intros ls; simpl.
  - by rewrite orb_false_r.
  - rewrite IH. destruct (isNativeInput d i); rewrite ?has_listener_add;
      destruct l, (i =? n)%nat, (has_listener n _ ls); simpl; try done.
Qed.

Lemma has_listener_removed d n l ins ls :
  has_listener n l
    (foldl (fun ls input =>
              let ls := removeEventListener input focus_handleFocus ls in
              if isNativeInput d input
              then removeEventListener input input_didMutated ls else ls) ls ins)
  = has_listener n l ls && negb (Spec.targets d ins n l).
Proof.
  revert ls. induction ins as [|i ins IH]; intros ls; simpl.
  - by rewrite andb_true_r.
  - rewrite IH. destruct (isNativeInput d i); rewrite ?has_listener_remove;
      destruct l, (i =? n)%nat, (has_listener n _ ls), (Spec.targets d ins n _);
      simpl; try done.
Qed.

Lemma targets_true d ins n l :
  In n ins ->
  match l with focus_handleFocus => True | input_didMutated => isNativeInput d n = true end ->
  Spec.targets d ins n l = true.
Proof.
  intros Hin Hl. unfold Spec.targets. apply existsb_exists. exists n.
  split; [done|]. rewrite Nat.eqb_refl. simpl. by destruct l.
Qed.

(** Reading [this.inputs] a second time, with the same document, gives the
    same list and leaves the Block alone. *)
Lemma inputs_stable d b o :
  let r := inputs W d b in
  inputs W d (set_observing W o (snd r)) = (fst r, set_observing W o (snd r)).
Proof.
  destruct b as [i n t ti tu us ds u c ix ob pe]. unfold inputs. simpl.
  destruct c as [|c0 c]; simpl; [|done].
  destruct (findAllInputs d) as [|x xs] eqn:Hf; simpl; [|done].
  change (Z.of_nat 0 - 1) with (-1).
  destruct (Z.gtb_spec ix (-1)); simpl; [done|].
  by destruct (Z.gtb_spec ix (-1)); [lia|].
Qed.

Lemma inputs_observing d b o :
  inputs W d (set_observing W o b)
  = (fst (inputs W d b), set_observing W o (snd (inputs W d b))).
Proof. unfold inputs. simpl. by repeat case_match. Qed.

Lemma inputs_frame d b :
  pending W (snd (inputs W d b)) = pending W b
  /\ observing W (snd (inputs W d b)) = observing W b.
Proof. unfold inputs. by repeat case_match. Qed.

Lemma select_unselect d b e :
  let r := inputs W d b in
  willUnselect W d (willSelect W d (b, e))
  = (set_observing W false (snd r),
     set_listeners W
       (foldl (fun ls input =>
                 let ls := removeEventListener input focus_handleFocus ls in
                 if isNativeInput d input
                 then removeEventListener input input_didMutated ls else ls)
          (foldl (fun ls input =>
                    let ls := addEventListener input focus_handleFocus ls in
                    if isNativeInput d input
                    then addEventListener input input_didMutated ls else ls)
             (listeners W e) (fst r)) (fst r)) e).
Proof.
  intros r. unfold willUnselect, willSelect, addInputEvents, removeInputEvents.
  rewrite inputs_observing. fold r.
  assert (set_observing W false (set_observing W true (snd r))
          = set_observing W false (snd r)) as -> by done.
  pose proof (inputs_stable d b false) as Hs. cbv zeta in Hs. fold r in Hs.
  rewrite Hs. by destruct e.
Qed.

Lemma deliver_through_selection d d' ins (s : Block.t W * Block.Env W) ev :
  observing W (fst s) = false ->
  (forall n l, Spec.targets d ins n l = true -> has_listener n l (listeners W (snd s)) = false) ->
  (Spec.through_selection d ins ev \/ (ev = TimerFires /\ pending W (fst s) = None)) ->
  deliver W d' ev s = s.
Proof.
  destruct s as [b e]. simpl. intros Ho Hl Hev. unfold deliver.
  destruct ev as [records|n|n|]; simpl in Hev.
  - by rewrite Ho.
  - destruct Hev as [[Hin Hn]|[? _]]; [|done].
    by rewrite (Hl n input_didMutated (targets_true d ins n input_didMutated Hin Hn)).
  - destruct Hev as [Hin|[? _]]; [|done].
    by rewrite (Hl n focus_handleFocus (targets_true d ins n focus_handleFocus Hin I)).
  - destruct Hev as [[]|[_ ->]]. done.
Qed.

Lemma deliver_all_through_selection d d' ins (s : Block.t W * Block.Env W) evs :
  observing W (fst s) = false ->
  (forall n l, Spec.targets d ins n l = true -> has_listener n l (listeners W (snd s)) = false) ->
  Forall (fun ev => Spec.through_selection d ins ev
                    \/ (ev = TimerFires /\ pending W (fst s) = None)) evs ->
  deliver_all W d' evs s = s.
Proof.
  intros Ho Hl Hall. unfold deliver_all.
  induction Hall as [|ev evs Hev _ IH]; [done|]. simpl.
  by rewrite (deliver_through_selection d d' ins s ev Ho Hl Hev).
Qed.

End SelectionProperties.

(** C8: after [willSelect()] immediately followed by [willUnselect()] the
    observer is disconnected and every listener [willSelect] put on the
    inputs is gone (each remaining listener was there before, none of them on
    the focus of an input nor on the input event of a native input); the
    Block has logged and emitted nothing, and mutations of its subtree, focus
    or input events on those inputs change nothing afterwards: no timer is
    armed, nothing is emitted, also when the debounce delay elapses. *)
Theorem C8_select_then_unselect_observes_nothing :
  forall (W : Type) (d : Block.Document) (b : Block.t W) (e : Block.Env W),
    let ins := fst (Block.inputs W d b) in
    let s' := Block.willUnselect W d (Block.willSelect W d (b, e)) in
    Block.observing W (fst s') = false
    /\ (forall n l,
          Block.has_listener n l (Block.listeners W (snd s')) = true ->
          Block.has_listener n l (Block.listeners W e) = true)
    /\ (forall n, In n ins ->
          Block.has_listener n Block.focus_handleFocus (Block.listeners W (snd s')) = false
          /\ (Block.isNativeInput d n = true ->
              Block.has_listener n Block.input_didMutated
                (Block.listeners W (snd s')) = false))
    /\ Block.trace W (snd s') = Block.trace W e
    /\ Block.pending W (fst s') = Block.pending W b
    /\ (forall d' evs,
          Forall (Spec.through_selection d ins) evs ->
          Block.deliver_all W d' evs s' = s')
    /\ (Block.pending W b = None ->
        forall d' evs,
          Forall (fun ev => Spec.through_selection d ins ev \/ ev = Block.TimerFires) evs ->
          Block.deliver_all W d' evs s' = s').
Proof.
  intros W d b e ins s'.
  assert (Hs : s' = _) by apply select_unselect. cbv zeta in Hs. fold ins in Hs.
  assert (Hl : forall n l,
             Block.has_listener n l (Block.listeners W (snd s'))
             = Block.has_listener n l (Block.listeners W e) && negb (Spec.targets d ins n l)).
  { intros n l. rewrite Hs. simpl.
    rewrite has_listener_removed, has_listener_added.
    by destruct (Block.has_listener n l _), (Spec.targets d ins n l). }
  assert (Ho : Block.observing W (fst s') = false) by (by rewrite Hs).
  assert (Hp : Block.pending W (fst s') = Block.pending W b).
  { rewrite Hs. simpl. apply inputs_frame. }
  assert (Hgone : forall n l, Spec.targets d ins n l = true ->
             Block.has_listener n l (Block.listeners W (snd s')) = false).
  { intros n l Ht. rewrite Hl, Ht. apply andb_false_r. }
  repeat split.
  - exact Ho.
  - intros n l. rewrite Hl. intros [? _]%andb_true_iff. done.
  - apply Hgone. by apply targets_true.
  - intros Hn. apply Hgone. by apply targets_true.
  - by rewrite Hs.
  - exact Hp.
  - intros d' evs Hall. apply (deliver_all_through_selection d d' ins s' evs Ho Hgone).
    eapply Forall_impl; [exact Hall|]. intros ev Hev. by left.
  - intros Hnone d' evs Hall.
    apply (deliver_all_through_selection d d' ins s' evs Ho Hgone).
    eapply Forall_impl; [exact Hall|]. intros ev [Hev| ->]; [by left|].
    right. split; [done|]. by rewrite Hp.
Qed.

(* ===================================================================== *)
(** * Block: saving                                                       *)
(* ===================================================================== *)

Section SaveProperties.
Import JS Block.

Context {W : Type}.
Variable performance_now : W -> Z * W.
Implicit Types (b : Block.t W) (e : Block.Env W) (o : gmap string value).

Lemma obj_set_length l k v (h : list (gmap string value)) :
  length (obj_set l k v h) = length h.
Proof. apply length_alter. Qed.

Lemma obj_set_lookup l k v (h : list (gmap string value)) o :
  h !! l = Some o -> obj_set l k v h !! l = Some (<[k:=v]> o).
Proof. intros H. unfold obj_set. by rewrite list_lookup_alter_eq, H. Qed.

Lemma obj_set_lookup_ne l l' k v (h : list (gmap string value)) :
  l' <> l -> obj_set l k v h !! l' = h !! l'.
Proof. intros H. unfold obj_set. by rewrite list_lookup_alter_ne. Qed.

(** What the [forEach] over the tune instances leaves behind. *)
Lemma save_tunes_spec (entries : list (string * IBlockTune W)) :
  forall e l o,
    heap W e !! l = Some o ->
    let e' := foldl (save_tune W l) e entries in
    let r := tune_outcomes W entries (world W e) in
    world W e' = snd r
    /\ listeners W e' = listeners W e
    /\ length (heap W e') = length (heap W e)
    /\ (forall l', l' <> l -> heap W e' !! l' = heap W e !! l')
    /\ trace W e' = (trace W e ++ warnings W (fst r))%list
    /\ exists o',
         heap W e' !! l = Some o'
         /\ forall k, o' !! k = match last_saved W k (fst r) with
                                | Some v => Some v
                                | None => o !! k
                                end.
Proof.
  induction entries as [|[n tune] rest IH]; intros e l o Ho; cbn [foldl].
  - simpl. rewrite app_nil_r. repeat split; try done. by exists o.
  - remember (save_tune W l e (n, tune)) as e1 eqn:He1.
    unfold save_tune in He1. cbn [fst snd tune_outcomes] in *.
    destruct (tune_save W tune) as [f|]; [|subst e1; by apply IH].
    destruct (f (world W e)) as [[v|err] w1] eqn:Hf.
    + assert (Ho1 : heap W e1 !! l = Some (<[n:=v]> o)).
      { subst e1. by apply obj_set_lookup. }
      destruct (IH e1 l _ Ho1) as (Hw & Hls & Hlen & Hother & Htr & o' & Ho' & Hk).
      cbv zeta in *.
      assert (world W e1 = w1) as Hw1 by (by subst e1). rewrite Hw1 in *.
      destruct (tune_outcomes W rest w1) as [os w2]. cbn [fst snd] in *.
      split; [done|]. split; [by subst e1|].
      split; [rewrite Hlen; subst e1; apply obj_set_length|].
      split.
      { intros l' Hne. rewrite (Hother l' Hne). subst e1. by apply obj_set_lookup_ne. }
      split; [by subst e1|].
      exists o'. split; [done|]. intros k. rewrite Hk. simpl.
      destruct (last_saved W k os); [done|].
      destruct (String.eqb_spec n k) as [->|Hne].
      * apply lookup_insert_eq.
      * by apply lookup_insert_ne.
    + assert (Ho1 : heap W e1 !! l = Some o) by (by subst e1).
      destruct (IH e1 l _ Ho1) as (Hw & Hls & Hlen & Hother & Htr & o' & Ho' & Hk).
      cbv zeta in *.
      assert (world W e1 = w1) as Hw1 by (by subst e1). rewrite Hw1 in *.
      destruct (tune_outcomes W rest w1) as [os w2]. cbn [fst snd] in *.
      split; [done|]. split; [by subst e1|]. split; [by subst e1|].
      split; [by subst e1|].
      split.
      { rewrite Htr. subst e1. simpl. by rewrite <- app_assoc. }
      exists o'. split; [done|]. intros k. rewrite Hk. simpl.
      by destruct (last_saved W k os).
Qed.

(** A tool whose [save] fails makes [Block.save] reject: the rejection
    leaves before the chain carrying the [catch] exists. *)
Lemma save_rejects b e err w :
  tool_save W (toolInstance W b) (world W e) = (Throw err, w) ->
  save W performance_now b e = (Throw err, set_world W w e).
Proof. intros H. unfold save. by rewrite H. Qed.

(** A tool whose [save] succeeds makes [Block.save] resolve with a result
    whose bag is the Block's own object. *)
Lemma save_resolves b e d w o :
  tool_save W (toolInstance W b) (world W e) = (Normal d, w) ->
  heap W e !! unavailableTunesData W b = Some o ->
  let os := fst (tune_outcomes W (tunesInstances W b ++ defaultTunesInstances W b) w) in
  exists r e',
    save W performance_now b e = (Normal (Some r), e')
    /\ sd_id r = id W b /\ sd_tool r = name W b /\ sd_data r = d
    /\ sd_tunes r = unavailableTunesData W b
    /\ listeners W e' = listeners W e
    /\ length (heap W e') = length (heap W e)
    /\ (forall l', l' <> unavailableTunesData W b -> heap W e' !! l' = heap W e !! l')
    /\ trace W e' = (trace W e ++ warnings W os)%list
    /\ exists o',
         heap W e' !! unavailableTunesData W b = Some o'
         /\ forall k, o' !! k = match last_saved W k os with
                                | Some v => Some v
                                | None => o !! k
                                end.
Proof.
  intros Hs Ho os. unfold save. rewrite Hs.
  destruct (save_tunes_spec (tunesInstances W b ++ defaultTunesInstances W b)
              (set_world W w e) _ o Ho)
    as (Hw & Hls & Hlen & Hother & Htr & o' & Ho' & Hk).
  cbv zeta in *. change (world W (set_world W w e)) with w in *. fold os in Htr, Hk.
  set (e1 := foldl _ _ _) in *.
  destruct (performance_now (world W e1)) as [t0 w0].
  unfold promise_then, promise_catch. simpl.
  destruct (performance_now w0) as [t1 w1].
  eexists _, _. split; [reflexivity|]. simpl.
  repeat split; try done. by exists o'.
Qed.

(** The bag a resolved [save] hands out. *)
Lemma save_tunes_bag b e d w o :
  tool_save W (toolInstance W b) (world W e) = (Normal d, w) ->
  heap W e !! unavailableTunesData W b = Some o ->
  let os := fst (tune_outcomes W (tunesInstances W b ++ defaultTunesInstances W b) w) in
  exists o',
    tunes_bag W (save W performance_now b e) = Some o'
    /\ heap W (snd (save W performance_now b e)) !! unavailableTunesData W b = Some o'
    /\ forall k, o' !! k = match last_saved W k os with
                           | Some v => Some v
                           | None => o !! k
                           end.
Proof.
  intros Hs Ho os.
  destruct (save_resolves b e d w o Hs Ho)
    as (r & e' & -> & _ & _ & _ & Hl & _ & _ & _ & _ & o' & Ho' & Hk).
  exists o'. simpl. rewrite Hl. unfold obj_get. by rewrite Ho'.
Qed.

(** Outcomes come from the entries, names included. *)
Lemma tune_outcomes_names (entries : list (string * IBlockTune W)) w n tune r :
  In (n, tune, r) (fst (tune_outcomes W entries w)) -> In (n, tune) entries.
Proof.
  revert w. induction entries as [|[n' tune'] rest IH]; intros w; simpl; [done|].
  destruct (tune_save W tune') as [f|].
  - destruct (f w) as [r' w1]. specialize (IH w1).
    destruct (tune_outcomes W rest w1) as [os w2]. simpl in *.
    intros [[= -> -> ->]|Hin]; [by left | right; by apply IH].
  - intros Hin. right. by apply (IH w).
Qed.

Lemma tune_outcomes_NoDup (entries : list (string * IBlockTune W)) w :
  NoDup (entries.*1) -> NoDup ((fst (tune_outcomes W entries w)).*1.*1).
Proof.
  revert w. induction entries as [|[n' tune'] rest IH]; intros w; simpl.
  { intros _. constructor. }
  intros [Hn Hnd]%NoDup_cons.
  destruct (tune_save W tune') as [f|]; [|by apply IH].
  destruct (f w) as [r' w1]. specialize (IH w1 Hnd).
  pose proof (tune_outcomes_names rest w1) as Hnames.
  destruct (tune_outcomes W rest w1) as [os w2]. simpl in *.
  constructor; [|done].
  intros Hin. apply Hn.
  apply list_elem_of_fmap in Hin as ([n t] & -> & Hin).
  apply list_elem_of_fmap in Hin as ([[n0 t0] r] & [= <- <-] & Hin%list_elem_of_In).
  apply list_elem_of_fmap. exists (n, t). split; [done|].
  apply list_elem_of_In. by eapply Hnames.
Qed.

Lemma last_saved_absent (os : list (string * IBlockTune W * completion value)) k :
  (forall tune v, ~ In (k, tune, Normal v) os) -> last_saved W k os = None.
Proof.
  induction os as [|[[n t] r] os IH]; intros H; simpl; [done|].
  rewrite IH by (intros tune v Hin; apply (H tune v); by right).
  destruct r as [v|]; [|done].
  destruct (String.eqb_spec n k) as [->|]; [|done].
  exfalso. apply (H t v). by left.
Qed.

Lemma last_saved_unique (os : list (string * IBlockTune W * completion value)) k tune r :
  NoDup (os.*1.*1) -> In (k, tune, r) os ->
  last_saved W k os = match r with Normal v => Some v | Throw _ => None end.
Proof.
  induction os as [|[[n t] r'] os IH]; intros Hnd Hin; simpl in *; [done|].
  apply NoDup_cons in Hnd as [Hn Hnd].
  destruct Hin as [[= -> -> ->]|Hin].
  - rewrite last_saved_absent.
    + destruct r; [by rewrite String.eqb_refl | done].
    + intros tune' v Hin. apply Hn.
      apply list_elem_of_fmap. exists (k, tune'). split; [done|].
      apply list_elem_of_fmap. exists (k, tune', Normal v). split; [done|].
      by apply list_elem_of_In.
  - rewrite (IH Hnd Hin). destruct r as [v|]; [done|].
    destruct r' as [v'|]; [|done].
    destruct (String.eqb_spec n k) as [->|]; [|done].
    exfalso. apply Hn.
    apply list_elem_of_fmap. exists (k, tune). split; [done|].
    apply list_elem_of_fmap. exists (k, tune, Throw e). split; [done|].
    by apply list_elem_of_In.
Qed.

Lemma warnings_In (os : list (string * IBlockTune W * completion value)) n tune err :
  In (n, tune, Throw err) os ->
  In (Log ("Tune " ++ constructor_name W tune ++ " save method throws an Error %o") "warn")
     (warnings W os).
Proof.
  intros Hin. apply list_elem_of_In. unfold warnings.
  apply list_elem_of_omap. exists (n, tune, Throw err).
  split; [by apply list_elem_of_In | done].
Qed.

End SaveProperties.

Section ConstructionProperties.
Import JS Block.

Context {W : Type}.
Implicit Types (b : Block.t W) (e : Block.Env W) (o : gmap string value).

Lemma map_set_In {A} (k : string) (v : A) (m : list (string * A)) n x :
  In (n, x) (map_set k v m) -> n = k \/ In (n, x) m.
Proof.
  induction m as [|[k' v'] m IH]; simpl.
  - intros [[= -> ->]|[]]. by left.
  - destruct (String.eqb k' k).
    + intros [[= -> ->]|Hin]; [by left | right; by right].
    + intros [Heq|Hin]; [right; by left|].
      destruct (IH Hin) as [->|Hin']; [by left | right; by right].
Qed.

Lemma map_has_false {A} (k : string) (m : list (string * A)) :
  (forall x, ~ In (k, x) m) -> map_has k m = false.
Proof.
  intros H. unfold map_has. apply not_true_is_false. intros Hex.
  apply existsb_exists in Hex as ([n x] & Hin & Heq). simpl in Heq.
  apply String.eqb_eq in Heq as ->. by apply (H x).
Qed.

(** The first loop of [composeTunes] registers instances under the names of
    the tool's tunes only, and touches nothing else of the Block. *)
Lemma composeTunes_instances (tunesData : gmap string value)
    (ts : list (BlockTune W)) :
  forall b,
    let b' :=
      foldl (fun b tune =>
               let instance := tune_create W tune (get tunesData (tune_name W tune)) in
               if isInternal W tune
               then set_defaultTunesInstances W
                      (map_set (tune_name W tune) instance (defaultTunesInstances W b)) b
               else set_tunesInstances W
                      (map_set (tune_name W tune) instance (tunesInstances W b)) b)
            b ts in
    unavailableTunesData W b' = unavailableTunesData W b
    /\ toolInstance W b' = toolInstance W b
    /\ tool W b' = tool W b /\ id W b' = id W b /\ name W b' = name W b
    /\ forall n x,
         In (n, x) (tunesInstances W b' ++ defaultTunesInstances W b') ->
         In (n, x) (tunesInstances W b ++ defaultTunesInstances W b)
         \/ exists tune, In tune ts /\ tune_name W tune = n.
Proof.
  induction ts as [|tune ts IH]; intros b; cbn [foldl].
  - repeat split; try done. intros n x Hin. by left.
  - cbv zeta. destruct (isInternal W tune).
    + destruct (IH (set_defaultTunesInstances W
                      (map_set (tune_name W tune)
                         (tune_create W tune (get tunesData (tune_name W tune)))
                         (defaultTunesInstances W b)) b))
        as (Hu & Hti & Ht & Hid & Hn & Hin).
      cbv zeta in *. repeat split; try done.
      intros n x Hx. destruct (Hin n x Hx) as [Hold|(t & Ht' & Hname)].
      * simpl in Hold. apply in_app_or in Hold as [Hold|Hold].
        -- left. apply in_or_app. by left.
        -- apply map_set_In in Hold as [->|Hold].
           ++ right. exists tune. split; [by left | done].
           ++ left. apply in_or_app. by right.
      * right. exists t. split; [by right | done].
    + destruct (IH (set_tunesInstances W
                      (map_set (tune_name W tune)
                         (tune_create W tune (get tunesData (tune_name W tune)))
                         (tunesInstances W b)) b))
        as (Hu & Hti & Ht & Hid & Hn & Hin).
      cbv zeta in *. repeat split; try done.
      intros n x Hx. destruct (Hin n x Hx) as [Hold|(t & Ht' & Hname)].
      * simpl in Hold. apply in_app_or in Hold as [Hold|Hold].
        -- apply map_set_In in Hold as [->|Hold].
           ++ right. exists tune. split; [by left | done].
           ++ left. apply in_or_app. by left.
        -- left. apply in_or_app. by right.
      * right. exists t. split; [by right | done].
Qed.

(** The second loop of [composeTunes] copies the data of every name [has]
    does not know into the object at [l]. *)
Lemma composeTunes_unavailable (has : string -> bool) (l : loc)
    (es : list (string * value)) :
  forall e o,
    heap W e !! l = Some o ->
    NoDup (es.*1) ->
    let e' :=
      foldl (fun e entry =>
               if negb (has (fst entry))
               then set_heap W (obj_set l (fst entry) (snd entry) (heap W e)) e
               else e) e es in
    world W e' = world W e /\ trace W e' = trace W e
    /\ listeners W e' = listeners W e
    /\ length (heap W e') = length (heap W e)
    /\ exists o',
         heap W e' !! l = Some o'
         /\ forall k, o' !! k =
              match (list_to_map es : gmap string value) !! k with
              | Some v => if has k then o !! k else Some v
              | None => o !! k
              end.
Proof.
  induction es as [|[k1 v1] es IH]; intros e o Ho Hnd; cbn [foldl].
  - repeat split; try done. exists o. split; [done|]. intros k.
    change (list_to_map [] : gmap string value) with (∅ : gmap string value).
    by rewrite lookup_empty.
  - cbn [fmap list_fmap fst] in Hnd. apply NoDup_cons in Hnd as [Hk1 Hnd].
    assert (Hnone : (list_to_map es : gmap string value) !! k1 = None).
    { by apply not_elem_of_list_to_map_1. }
    cbn [fst snd]. destruct (has k1) eqn:Hhas; cbn [negb].
    + destruct (IH e o Ho Hnd) as (Hw & Ht & Hl & Hlen & o' & Ho' & Hk).
      repeat split; try done. exists o'. split; [done|]. intros k. rewrite Hk.
      cbn [list_to_map foldr]. simpl.
      destruct (decide (k = k1)) as [->|Hne].
      * by rewrite lookup_insert_eq, Hnone, Hhas.
      * by rewrite lookup_insert_ne.
    + destruct (IH (set_heap W (obj_set l k1 v1 (heap W e)) e) (<[k1:=v1]> o)
                  (obj_set_lookup l k1 v1 _ o Ho) Hnd)
        as (Hw & Ht & Hl & Hlen & o' & Ho' & Hk).
      cbv zeta in *. simpl in Hlen. rewrite obj_set_length in Hlen.
      repeat split; try done. exists o'. split; [done|]. intros k. rewrite Hk.
      cbn [list_to_map foldr]. simpl.
      destruct (decide (k = k1)) as [->|Hne].
      * by rewrite !lookup_insert_eq, Hnone, Hhas.
      * by rewrite !lookup_insert_ne.
Qed.

(** What the constructor establishes. *)
Lemma new_spec (opts : BlockConstructorOptions W) e :
  let b := fst (new W opts e) in
  let e0 := snd (new W opts e) in
  unavailableTunesData W b = length (heap W e)
  /\ toolInstance W b
     = tool_create W (opt_tool W opts) (opt_data W opts) (opt_readOnly W opts)
  /\ tool W b = opt_tool W opts
  /\ id W b = opt_id W opts /\ name W b = tool_name W (opt_tool W opts)
  /\ world W e0 = world W e /\ trace W e0 = trace W e
  /\ (forall n x,
        In (n, x) (tunesInstances W b ++ defaultTunesInstances W b) ->
        exists tune, In tune (tool_tunes W (opt_tool W opts)) /\ tune_name W tune = n)
  /\ exists o0,
       heap W e0 !! unavailableTunesData W b = Some o0
       /\ forall k, o0 !! k =
            if map_has k (tunesInstances W b) then None else opt_tunesData W opts !! k.
Proof.
  unfold new, composeTunes. cbn [fst snd tunes].
  set (b0 := mk W _ _ _ _ _ _ _ _ _ _ _ _).
  destruct (composeTunes_instances (opt_tunesData W opts)
              (tool_tunes W (opt_tool W opts)) b0)
    as (Hu & Hti & Ht & Hid & Hn & Hin).
  cbv zeta in *. set (b := foldl _ b0 _) in *.
  set (e1 := set_heap W (heap W e ++ [∅]) e).
  assert (Ho : heap W e1 !! unavailableTunesData W b = Some (∅ : gmap string value)).
  { rewrite Hu. simpl. rewrite lookup_app_r by lia. by rewrite Nat.sub_diag. }
  destruct (composeTunes_unavailable
              (fun k => map_has k (tunesInstances W b)) (unavailableTunesData W b)
              (map_to_list (opt_tunesData W opts)) e1 ∅ Ho
              (NoDup_fst_map_to_list _))
    as (Hw & Htr & Hl & Hlen & o' & Ho' & Hk).
  cbv zeta in *.
  repeat split; try done.
  - intros n x Hx. destruct (Hin n x Hx) as [[]|Hex]. done.
  - exists o'. split; [done|]. intros k. rewrite Hk.
    rewrite list_to_map_to_list, lookup_empty.
    destruct (map_has k (tunesInstances W b)); [by case_match|].
    by destruct (opt_tunesData W opts !! k).
Qed.

End ConstructionProperties.

(** C3: what the code does when the tool's [save] throws or rejects:
    [Block.save()] rejects with the tool's error, nothing is logged and no
    result is produced; the [catch] of the promise chain is never reached. *)
Theorem C3_save_rejects_when_tool_save_fails :
  forall (W : Type) (performance_now : W -> Z * W)
         (b : Block.t W) (e : Block.Env W) (err : string) (w : W),
    Block.tool_save W (Block.toolInstance W b) (Block.world W e) = (JS.Throw err, w) ->
    Block.save W performance_now b e = (JS.Throw err, Block.set_world W w e)
    /\ Block.trace W (snd (Block.save W performance_now b e)) = Block.trace W e
    /\ Block.save W performance_now b e <> (JS.Normal None, snd (Block.save W performance_now b e)).
Proof.
  intros W now b e err w H. rewrite (save_rejects now b e err w H).
  repeat split. simpl. discriminate.
Qed.

(** The Block whose tool throws "Error: boom": its [save()] rejects. *)
Lemma C3_witness :
  Block.save Sample.W Sample.performance_now (fst Sample.failing) (snd Sample.failing)
  = (JS.Throw "Error: boom", snd Sample.failing).
Proof.
  destruct (C3_save_rejects_when_tool_save_fails Sample.W Sample.performance_now
              (fst Sample.failing) (snd Sample.failing) "Error: boom" 0%nat eq_refl)
    as [-> _].
  reflexivity.
Defined.

Section RoundTrip.
Import JS Block.

Context {W : Type}.
Variable performance_now : W -> Z * W.

(** Construct, then save: data passed for a name no tune of the tool bears
    comes back under that name. *)
Lemma new_then_save_keeps_unregistered
    (opts : BlockConstructorOptions W) (e : Env W) name data d w :
  opt_tunesData W opts !! name = Some data ->
  (forall tune, In tune (tool_tunes W (opt_tool W opts)) -> tune_name W tune <> name) ->
  tool_save W (tool_create W (opt_tool W opts) (opt_data W opts) (opt_readOnly W opts))
    (world W e) = (Normal d, w) ->
  exists bag,
    tunes_bag W (save W performance_now (fst (new W opts e)) (snd (new W opts e)))
    = Some bag
    /\ bag !! name = Some data.
Proof.
  intros Hdata Hunreg Hsave.
  destruct (new_spec opts e)
    as (Hu & Hti & _ & _ & _ & Hw & _ & Hnames & o0 & Ho0 & Hk0).
  cbv zeta in *.
  set (b := fst (new W opts e)) in *. set (e0 := snd (new W opts e)) in *.
  assert (Hsave0 : tool_save W (toolInstance W b) (world W e0) = (Normal d, w)).
  { by rewrite Hti, Hw. }
  destruct (save_tunes_bag performance_now b e0 d w o0 Hsave0 Ho0)
    as (bag & Hbag & _ & Hk).
  exists bag. split; [done|]. rewrite Hk.
  assert (Hfresh : forall x,
             ~ In (name, x) (tunesInstances W b ++ defaultTunesInstances W b)).
  { intros x Hin. destruct (Hnames name x Hin) as (tune & Ht & Hn).
    by apply (Hunreg tune Ht). }
  rewrite last_saved_absent.
  - rewrite Hk0, map_has_false; [done|].
    intros x Hin. apply (Hfresh x), in_or_app. by left.
  - intros tune v Hin. apply (Hfresh tune). by eapply tune_outcomes_names.
Qed.

End RoundTrip.

(** C6: data passed at construction under a name that no tune of the Block
    bears is mapped, in the tunes bag of [save()]'s result, to exactly that
    data; and a Block reconstructed from that bag, where the name is again
    unregistered, saves it unchanged once more. (A result exists when the
    tool's own save succeeds.) *)
Theorem C6_unregistered_tune_data_round_trips :
  forall (W : Type) (performance_now : W -> Z * W)
         (opts : Block.BlockConstructorOptions W) (e : Block.Env W)
         (name : string) (data : JS.value) (d : gmap string JS.value) (w : W),
    Block.opt_tunesData W opts !! name = Some data ->
    (forall tune, In tune (Block.tool_tunes W (Block.opt_tool W opts)) ->
                  Block.tune_name W tune <> name) ->
    Block.tool_save W
      (Block.tool_create W (Block.opt_tool W opts) (Block.opt_data W opts)
         (Block.opt_readOnly W opts))
      (Block.world W e) = (JS.Normal d, w) ->
    exists bag,
      Block.tunes_bag W
        (Block.save W performance_now (fst (Block.new W opts e)) (snd (Block.new W opts e)))
      = Some bag
      /\ bag !! name = Some data
      /\ forall (opts2 : Block.BlockConstructorOptions W) (e2 : Block.Env W)
                (d2 : gmap string JS.value) (w2 : W),
           Block.opt_tunesData W opts2 = bag ->
           (forall tune, In tune (Block.tool_tunes W (Block.opt_tool W opts2)) ->
                         Block.tune_name W tune <> name) ->
           Block.tool_save W
             (Block.tool_create W (Block.opt_tool W opts2) (Block.opt_data W opts2)
                (Block.opt_readOnly W opts2))
             (Block.world W e2) = (JS.Normal d2, w2) ->
           exists bag2,
             Block.tunes_bag W
               (Block.save W performance_now (fst (Block.new W opts2 e2))
                  (snd (Block.new W opts2 e2)))
             = Some bag2
             /\ bag2 !! name = bag !! name.
Proof.
  intros W now opts e name data d w Hdata Hunreg Hsave.
  destruct (new_then_save_keeps_unregistered now opts e name data d w
              Hdata Hunreg Hsave) as (bag & Hbag & Hname).
  exists bag. split; [done|]. split; [done|].
  intros opts2 e2 d2 w2 Hload Hunreg2 Hsave2.
  rewrite Hname. apply (new_then_save_keeps_unregistered now opts2 e2 name data d2 w2);
    [by rewrite Hload | done | done].
Qed.

(** The Block loaded with data for the unregistered tune "color". *)
Lemma C6_witness :
  exists bag,
    Block.tunes_bag Sample.W
      (Block.save Sample.W Sample.performance_now
         (fst (Block.new Sample.W Sample.themed_options Sample.empty_env))
         (snd (Block.new Sample.W Sample.themed_options Sample.empty_env)))
    = Some bag
    /\ bag !! "color" = Some (JS.VStr "red").
Proof.
  destruct (C6_unregistered_tune_data_round_trips Sample.W Sample.performance_now
              Sample.themed_options Sample.empty_env "color" (JS.VStr "red")
              Sample.heading_data 0%nat)
    as (bag & Hbag & Hname & _).
  - reflexivity.
  - intros tune [<-|[]]. discriminate.
  - reflexivity.
  - exists bag. by split.
Defined.

(** Data loaded for the internal tune "align" is kept in the bag although
    the tune is registered and its save throws. *)
Example internal_tune_data_kept :
  Block.tunes_bag Sample.W
    (Block.save Sample.W Sample.performance_now (fst Sample.aligned) (snd Sample.aligned))
  ≫= (fun bag => bag !! "align") = Some (JS.VStr "left").
Proof. vm_compute. reflexivity. Qed.

(** C7, as stated, fails: the tune "pin" saved [true] in a first [save()];
    in the next one its save throws, yet the bag of the result still has the
    entry under its name. *)
Lemma C7_throwing_tune_entry_not_excluded :
  let first :=
    Block.save Sample.W Sample.performance_now (fst Sample.pinned) (snd Sample.pinned) in
  In ("pin", Sample.flaky_tune, JS.Throw "Error: flaky")
     (fst (Block.tune_outcomes Sample.W
             (Block.tunesInstances Sample.W (fst Sample.pinned)
              ++ Block.defaultTunesInstances Sample.W (fst Sample.pinned))
             (Block.world Sample.W (snd first))))
  /\ ~ Spec.excluded "pin"
         (Block.save Sample.W Sample.performance_now (fst Sample.pinned) (snd first)).
Proof.
  split.
  - vm_compute. left. reflexivity.
  - intros (bag & Hbag & Hnone).
    assert (Hsome : Block.tunes_bag Sample.W
              (Block.save Sample.W Sample.performance_now (fst Sample.pinned)
                 (snd (Block.save Sample.W Sample.performance_now
                         (fst Sample.pinned) (snd Sample.pinned))))
              ≫= (fun bag => bag !! "pin") = Some (JS.VBool true))
      by (vm_compute; reflexivity).
    rewrite Hbag in Hsome. simpl in Hsome. rewrite Hnone in Hsome. discriminate.
Qed.

(** C7 (amended): when the tool's own save succeeds and the tune instances
    bear distinct names, [save()] resolves with the tool's data untouched;
    for each tune whose save throws a warning is logged and nothing is
    written under its name, so the name is absent from the bag whenever
    [unavailableTunesData] held nothing under it before the call; each tune
    whose save succeeds has its output in the bag. *)
Theorem C7_throwing_tune_spares_siblings :
  forall (W : Type) (performance_now : W -> Z * W)
         (b : Block.t W) (e : Block.Env W)
         (o d : gmap string JS.value) (w : W),
    Block.heap W e !! Block.unavailableTunesData W b = Some o ->
    Block.tool_save W (Block.toolInstance W b) (Block.world W e) = (JS.Normal d, w) ->
    NoDup (((Block.tunesInstances W b ++ Block.defaultTunesInstances W b)%list).*1) ->
    let os := fst (Block.tune_outcomes W
                     (Block.tunesInstances W b ++ Block.defaultTunesInstances W b) w) in
    exists r e' bag,
      Block.save W performance_now b e = (JS.Normal (Some r), e')
      /\ Block.sd_data r = d
      /\ Block.tunes_bag W (JS.Normal (Some r), e') = Some bag
      /\ (forall name tune err,
            In (name, tune, JS.Throw err) os ->
            In (Block.Log ("Tune " ++ Block.constructor_name W tune
                             ++ " save method throws an Error %o") "warn")
               (Block.trace W e')
            /\ (o !! name = None -> bag !! name = None))
      /\ (forall name tune v,
            In (name, tune, JS.Normal v) os -> bag !! name = Some v).
Proof.
  intros W now b e o d w Ho Hsave Hnd os.
  destruct (save_resolves now b e d w o Hsave Ho)
    as (r & e' & Hr & _ & _ & Hd & Hl & _ & _ & _ & Htr & o' & Ho' & Hk).
  cbv zeta in *. fold os in Htr, Hk.
  pose proof (tune_outcomes_NoDup _ w Hnd) as Hnd'. fold os in Hnd'.
  exists r, e', o'. split; [done|]. split; [done|].
  split. { simpl. rewrite Hl. unfold Block.obj_get. by rewrite Ho'. }
  split.
  - intros name tune err Hin. split.
    + rewrite Htr. apply in_or_app. right. by eapply warnings_In.
    + intros Hnone. by rewrite Hk, (last_saved_unique os name tune _ Hnd' Hin).
  - intros name tune v Hin.
    by rewrite Hk, (last_saved_unique os name tune _ Hnd' Hin).
Qed.

(** The Block with the throwing user tune "lock" and the healthy "anchor". *)
Lemma C7_witness :
  exists bag,
    Block.tunes_bag Sample.W
      (Block.save Sample.W Sample.performance_now
         (fst Sample.guarded) (snd Sample.guarded)) = Some bag
    /\ bag !! "lock" = None /\ bag !! "anchor" = Some (JS.VNum 7).
Proof.
  destruct (C7_throwing_tune_spares_siblings Sample.W Sample.performance_now
              (fst Sample.guarded) (snd Sample.guarded) ∅ Sample.heading_data 0%nat)
    as (r & e' & bag & Hr & _ & Hbag & Hthrow & Hok).
  - reflexivity.
  - reflexivity.
  - apply (bool_decide_unpack _). by vm_compute.
  - exists bag. rewrite Hr. split; [done|]. split.
    + apply (Hthrow "lock" Sample.broken_tune "Error: broken").
      * vm_compute. left. reflexivity.
      * reflexivity.
    + apply (Hok "anchor" Sample.steady_tune). vm_compute. right. left. reflexivity.
Defined.

(** C9: the bag of [save()]'s result is the Block's persistent
    [unavailableTunesData] object itself; every successful tune output of the
    call is written into it; and a value so recorded is still in the object,
    and in the bag of a later [save()], when that tune's save throws in the
    later call. (The tool's own save succeeds in both calls and the tune
    instances bear distinct names.) *)
Theorem C9_saved_tune_value_persists :
  forall (W : Type) (performance_now : W -> Z * W)
         (b : Block.t W) (e : Block.Env W)
         (o d : gmap string JS.value) (w : W),
    Block.heap W e !! Block.unavailableTunesData W b = Some o ->
    Block.tool_save W (Block.toolInstance W b) (Block.world W e) = (JS.Normal d, w) ->
    NoDup (((Block.tunesInstances W b ++ Block.defaultTunesInstances W b)%list).*1) ->
    let entries := (Block.tunesInstances W b ++ Block.defaultTunesInstances W b)%list in
    exists r e',
      Block.save W performance_now b e = (JS.Normal (Some r), e')
      /\ Block.sd_tunes r = Block.unavailableTunesData W b
      /\ (forall name tune v,
            In (name, tune, JS.Normal v) (fst (Block.tune_outcomes W entries w)) ->
            Block.obj_get (Block.unavailableTunesData W b) (Block.heap W e') !! name
            = Some v
            /\ forall (later : W) (d2 : gmap string JS.value) (w2 : W) (err : string),
                 Block.tool_save W (Block.toolInstance W b) later = (JS.Normal d2, w2) ->
                 In (name, tune, JS.Throw err) (fst (Block.tune_outcomes W entries w2)) ->
                 exists r2 e2,
                   Block.save W performance_now b (Block.set_world W later e')
                   = (JS.Normal (Some r2), e2)
                   /\ Block.sd_tunes r2 = Block.unavailableTunesData W b
                   /\ Block.obj_get (Block.sd_tunes r2) (Block.heap W e2) !! name
                      = Some v).
Proof.
  intros W now b e o d w Ho Hsave Hnd entries.
  destruct (save_resolves now b e d w o Hsave Ho)
    as (r & e' & Hr & _ & _ & _ & Hl & _ & _ & _ & _ & o' & Ho' & Hk).
  cbv zeta in *. fold entries in Hk.
  exists r, e'. split; [done|]. split; [done|].
  intros name tune v Hin.
  pose proof (tune_outcomes_NoDup entries w Hnd) as Hnd1.
  assert (Hv : o' !! name = Some v).
  { by rewrite Hk, (last_saved_unique _ name tune _ Hnd1 Hin). }
  split. { unfold Block.obj_get. by rewrite Ho'. }
  intros later d2 w2 err Hsave2 Hin2.
  destruct (save_resolves now b (Block.set_world W later e') d2 w2 o' Hsave2 Ho')
    as (r2 & e2 & Hr2 & _ & _ & _ & Hl2 & _ & _ & _ & _ & o2 & Ho2 & Hk2).
  cbv zeta in *. fold entries in Hk2.
  exists r2, e2. split; [done|]. split; [done|].
  pose proof (tune_outcomes_NoDup entries w2 Hnd) as Hnd2.
  rewrite Hl2. unfold Block.obj_get. rewrite Ho2. simpl.
  by rewrite Hk2, (last_saved_unique _ name tune _ Hnd2 Hin2).
Qed.

(** The Block with the tune "pin", which saves [true] once and throws in
    the next [save()]: the second result still carries [true]. *)
Lemma C9_witness :
  exists r e' r2 e2,
    Block.save Sample.W Sample.performance_now (fst Sample.pinned) (snd Sample.pinned)
    = (JS.Normal (Some r), e')
    /\ Block.save Sample.W Sample.performance_now (fst Sample.pinned) e'
       = (JS.Normal (Some r2), e2)
    /\ Block.sd_tunes r2 = Block.unavailableTunesData Sample.W (fst Sample.pinned)
    /\ Block.obj_get (Block.sd_tunes r2) (Block.heap Sample.W e2) !! "pin"
       = Some (JS.VBool true).
Proof.
  destruct (C9_saved_tune_value_persists Sample.W Sample.performance_now
              (fst Sample.pinned) (snd Sample.pinned) ∅ Sample.heading_data 0%nat)
    as (r & e' & Hr & _ & Hpersist).
  - reflexivity.
  - reflexivity.
  - apply (bool_decide_unpack _). by vm_compute.
  - destruct (Hpersist "pin" Sample.flaky_tune (JS.VBool true)) as [_ Hlater].
    { vm_compute. left. reflexivity. }
    assert (Hw : Block.world Sample.W e' = 3%nat).
    { assert (H : Block.world Sample.W
                    (snd (Block.save Sample.W Sample.performance_now
                            (fst Sample.pinned) (snd Sample.pinned))) = 3%nat)
        by (vm_compute; reflexivity).
      by rewrite Hr in H. }
    destruct (Hlater 3%nat Sample.heading_data 3%nat "Error: flaky")
      as (r2 & e2 & Hr2 & Hl2 & Hv).
    { reflexivity. }
    { vm_compute. left. reflexivity. }
    exists r, e', r2, e2. split; [done|]. split; [|by split].
    rewrite <- Hr2. f_equal. destruct e'. simpl in Hw. by subst.
Defined.

(* ===================================================================== *)
(** * Block: the active toolbox entry                                     *)
(* ===================================================================== *)

Section ToolboxProperties.
Import JS Block.

Context {W : Type}.
Variable performance_now : W -> Z * W.
Variable equals : value -> value -> bool.

Lemma entry_matches_true (d : gmap string value) (es : list (string * value)) :
  entry_matches equals d es = true <->
  exists k v, In (k, v) es /\ truthy (get d k) = true /\ equals (get d k) v = true.
Proof.
  unfold entry_matches. rewrite existsb_exists. split.
  - intros ([k v] & Hin & [Ht He]%andb_true_iff). by exists k, v.
  - intros (k & v & Hin & Ht & He). exists (k, v). split; [done|].
    simpl. by rewrite Ht, He.
Qed.

Lemma some_key_matches_entry (d : gmap string value) item es :
  entry_data item = Some es ->
  Spec.some_key_matches equals d item <-> entry_matches equals d es = true.
Proof.
  intros Hes. rewrite entry_matches_true. unfold Spec.some_key_matches. split.
  - intros (es' & k & v & Hes' & H). rewrite Hes in Hes'. injection Hes' as <-.
    by exists k, v.
  - intros (k & v & H). by exists es, k, v.
Qed.

Lemma find_entry_spec (d : gmap string value) (items : list ToolboxConfigEntry) :
  Forall (fun item => is_Some (entry_data item)) items ->
  exists r,
    find_entry equals d items = Normal r
    /\ match r with
       | Some item =>
           exists i,
             items !! i = Some item
             /\ Spec.some_key_matches equals d item
             /\ forall j item', (j < i)%nat -> items !! j = Some item' ->
                                ~ Spec.some_key_matches equals d item'
       | None => forall item, In item items -> ~ Spec.some_key_matches equals d item
       end.
Proof.
  induction 1 as [|item items [es Hes] _ (r & Hr & IH)]; simpl.
  - exists None. split; [done|]. intros item [].
  - rewrite Hes. destruct (entry_matches equals d es) eqn:Hm.
    + exists (Some item). split; [done|]. exists 0%nat. split; [done|].
      split; [by apply (some_key_matches_entry d item es)|]. intros j item' Hj. lia.
    + assert (Hno : ~ Spec.some_key_matches equals d item).
      { rewrite (some_key_matches_entry d item es Hes), Hm. discriminate. }
      exists r. split; [done|]. destruct r as [found|].
      * destruct IH as (i & Hi & Hfound & Hbefore). exists (S i).
        split; [done|]. split; [done|].
        intros [|j] item' Hj Hl; simpl in Hl.
        -- by injection Hl as <-.
        -- apply (Hbefore j item'); [lia | done].
      * intros item' [<-|Hin]; [done | by apply IH].
Qed.

Lemma data_resolves (b : Block.t W) (e : Env W) d w :
  tool_save W (toolInstance W b) (world W e) = (Normal d, w) ->
  exists e', data W performance_now b e = (Normal d, e').
Proof.
  intros Hs. unfold data, save. rewrite Hs.
  destruct (performance_now _) as [t0 w0]. unfold promise_then, promise_catch.
  simpl. destruct (performance_now w0) as [t1 w1]. simpl.
  unfold isEmpty. destruct (Nat.eqb_spec (size d) 0) as [Hz|Hnz]; simpl.
  - apply map_size_empty_iff in Hz as ->. by eexists.
  - by eexists.
Qed.

Lemma getActiveToolboxEntry_single (b : Block.t W) (e : Env W) item :
  toolbox W (tool W b) = [item] ->
  getActiveToolboxEntry W performance_now equals b e = (Normal (Some item), e).
Proof. intros H. unfold getActiveToolboxEntry. by rewrite H. Qed.

Lemma getActiveToolboxEntry_several (b : Block.t W) (e : Env W) d w :
  length (toolbox W (tool W b)) <> 1%nat ->
  tool_save W (toolInstance W b) (world W e) = (Normal d, w) ->
  exists e',
    getActiveToolboxEntry W performance_now equals b e
    = (find_entry equals d (toolbox W (tool W b)), e').
Proof.
  intros Hlen Hs. unfold getActiveToolboxEntry.
  destruct (Nat.eqb_spec (length (toolbox W (tool W b))) 1); [done|].
  destruct (data_resolves b e d w Hs) as (e' & ->). by exists e'.
Qed.

End ToolboxProperties.

(** C4, as stated, fails: with the entries {level: 1, style: "x"} and
    {level: 2, style: "y"} and Block data {text: "hi", level: 2, style: "x"}
    no entry has all its keys equal to the Block's values, yet the first
    entry is returned. *)
Lemma C4_first_entry_with_one_equal_key_wins :
  fst (Block.getActiveToolboxEntry Sample.W Sample.performance_now Sample.deep_equal
         (fst Sample.heading) (snd Sample.heading))
  <> JS.Normal (Spec.first_all_keys_equal Sample.deep_equal Sample.heading_data
                  (Block.toolbox Sample.W (Block.tool Sample.W (fst Sample.heading)))).
Proof.
  assert (Hcode : fst (Block.getActiveToolboxEntry Sample.W Sample.performance_now
                         Sample.deep_equal (fst Sample.heading) (snd Sample.heading))
                  = JS.Normal (Some Sample.h1)) by (vm_compute; reflexivity).
  assert (Hspec : Spec.first_all_keys_equal Sample.deep_equal Sample.heading_data
                    (Block.toolbox Sample.W (Block.tool Sample.W (fst Sample.heading)))
                  = None) by (vm_compute; reflexivity).
  rewrite Hcode, Hspec. discriminate.
Qed.

(** C4 (amended): with exactly one toolbox entry [getActiveToolboxEntry()]
    resolves to it whatever the Block's data (no save is even made);
    otherwise, when the tool's save succeeds and every entry declares data,
    it resolves to the first entry having at least one declared key whose
    value in the Block's current data is truthy and equal to the declared
    one, and to undefined when no entry has such a key. *)
Theorem C4_active_entry_is_first_with_some_equal_key :
  forall (W : Type) (performance_now : W -> Z * W)
         (equals : JS.value -> JS.value -> bool)
         (b : Block.t W) (e : Block.Env W),
    let items := Block.toolbox W (Block.tool W b) in
    (forall item,
        items = [item] ->
        Block.getActiveToolboxEntry W performance_now equals b e
        = (JS.Normal (Some item), e))
    /\ (forall (d : gmap string JS.value) (w : W),
          length items <> 1%nat ->
          Block.tool_save W (Block.toolInstance W b) (Block.world W e)
          = (JS.Normal d, w) ->
          Forall (fun item => is_Some (Block.entry_data item)) items ->
          exists r e',
            Block.getActiveToolboxEntry W performance_now equals b e
            = (JS.Normal r, e')
            /\ match r with
               | Some item =>
                   exists i,
                     items !! i = Some item
                     /\ Spec.some_key_matches equals d item
                     /\ forall j item', (j < i)%nat -> items !! j = Some item' ->
                                        ~ Spec.some_key_matches equals d item'
               | None =>
                   forall item, In item items -> ~ Spec.some_key_matches equals d item
               end).
Proof.
  intros W now equals b e items. subst items. split.
  - intros item H. by apply getActiveToolboxEntry_single.
  - intros d w Hlen Hs Hall.
    destruct (getActiveToolboxEntry_several now equals b e d w Hlen Hs) as (e' & ->).
    destruct (find_entry_spec equals d _ Hall) as (r & -> & Hr).
    by exists r, e'.
Qed.

(* ===================================================================== *)
(** * Link inline tool: further properties                                *)
(* ===================================================================== *)

Section LinkMoreProperties.
Import Regex LinkInlineTool.



Lemma committed_app cs1 cs2 : committed (cs1 ++ cs2) = (committed cs1 ++ committed cs2)%list.
Proof. unfold committed. apply omap_app. Qed.




End LinkMoreProperties.


Section UrlProperties.
Import Regex LinkInlineTool.

Lemma In_all_ascii c : In c all_ascii.
Proof.
  unfold all_ascii. apply in_map_iff. exists (nat_of_ascii c).
  split; [apply ascii_nat_embedding|]. apply in_seq.
  pose proof (nat_ascii_bounded c). lia.
Qed.

(** A check over all code units holds of each of them. *)
Lemma forall_ascii (p : ascii -> bool) :
  forallb p all_ascii = true -> forall c, p c = true.
Proof. intros H c. eapply forallb_forall in H; [exact H | apply In_all_ascii]. Qed.

Lemma requires_sound r c : requires r c = true -> forall s, matches r s -> In c s.
Proof.
  intros Hr s Hm. revert Hr.
  induction Hm as [ |p c0 Hp|r1 r2 s1 s2 _ IH1 _ IH2|r1 r2 t _ IH|r1 r2 t _ IH
                    |r0|r0 s1 s2 _ _ _ _]; cbn [requires]; intros Hr;
    try discriminate.
  - pose proof (forall_ascii _ Hr c0) as H. cbv beta in H. rewrite Hp in H.
    cbn [implb] in H. apply Ascii.eqb_eq in H as ->. by left.
  - apply in_or_app. apply orb_true_iff in Hr as [H|H]; auto.
  - apply andb_true_iff in Hr as [H _]. auto.
  - apply andb_true_iff in Hr as [_ H]. auto.
Qed.

Lemma admits_pattern c : admits pattern c = url_char c.
Proof.
  apply Bool.eqb_prop.
  apply (forall_ascii (fun c => Bool.eqb (admits pattern c) (url_char c))).
  vm_compute. reflexivity.
Qed.

Lemma url_char_not_space c : url_char c = true -> is_space c = false.
Proof.
  intros H.
  pose proof (forall_ascii (fun c => implb (url_char c) (negb (is_space c)))) as Hall.
  specialize (Hall ltac:(vm_compute; reflexivity) c). cbv beta in Hall.
  rewrite H in Hall. cbn [implb] in Hall.
  by apply negb_true_iff.
Qed.

Lemma trim_start_id l : (forall c, In c l -> is_space c = false) -> trim_start l = l.
Proof. destruct l as [|c l]; [done|]. intros H. simpl. by rewrite (H c) by (by left). Qed.

Lemma matches_anything s : matches anything s.
Proof.
  induction s as [|c s IH]; [constructor|].
  change (c :: s) with ([c] ++ s)%list. constructor; [by constructor | done].
Qed.

Lemma has_protocol_https l : test_prefix re_has_protocol ("https://" ++ l) = true.
Proof.
  unfold test_prefix. apply accepts_matches. simpl list_ascii_of_string.
  change (matches (Cat re_has_protocol anything)
            (list_ascii_of_string "https://" ++ list_ascii_of_string l)%list).
  constructor; [|apply matches_anything].
  apply accepts_matches. vm_compute. reflexivity.
Qed.

Lemma addProtocol_cases l : addProtocol l = l \/ addProtocol l = "https://" ++ l.
Proof. unfold addProtocol. repeat case_match; auto. Qed.

Lemma addProtocol_idempotent l : addProtocol (addProtocol l) = addProtocol l.
Proof.
  destruct (addProtocol_cases l) as [H|H]; rewrite H.
  - exact H.
  - unfold addProtocol. by rewrite has_protocol_https.
Qed.

(** [trim] on lists of code units. *)
Lemma trim_start_split l :
  exists pre, l = (pre ++ trim_start l)%list.
Proof.
  induction l as [|c l [pre IH]]; [by exists []|]. simpl.
  destruct (is_space c); [|by exists []].
  exists (c :: pre). simpl. by rewrite <- IH.
Qed.

Lemma trim_start_head l c z : trim_start l = c :: z -> is_space c = false.
Proof.
  induction l as [|x l IH]; [done|]. simpl.
  destruct (is_space x) eqn:Hx; [done|]. by intros [= <- _].
Qed.

Lemma trim_start_fix l :
  match l with [] => True | c :: _ => is_space c = false end -> trim_start l = l.
Proof. destruct l as [|c l]; [done|]. simpl. by intros ->. Qed.

Lemma trim_start_idempotent l : trim_start (trim_start l) = trim_start l.
Proof.
  apply trim_start_fix. destruct (trim_start l) as [|c z] eqn:H; [done|].
  by eapply trim_start_head.
Qed.

End UrlProperties.

Section TrimProperties.
Import Regex LinkInlineTool.

Local Abbreviation clean x :=
  (trim_start x%list = x%list /\ trim_start (rev x%list) = rev x%list).

Lemma list_ascii_of_string_app (a b : string) :
  list_ascii_of_string (a ++ b) = (list_ascii_of_string a ++ list_ascii_of_string b)%list.
Proof. induction a as [|c a IH]; [done|]. simpl. by rewrite IH. Qed.

Lemma trim_list_clean l : clean (rev (trim_start (rev (trim_start l)))).
Proof.
  set (a := trim_start l). set (b := trim_start (rev a)). split.
  - apply trim_start_fix. destruct (rev b) as [|c out] eqn:Hout; [done|].
    destruct (trim_start_split (rev a)) as [pre Hpre]. fold b in Hpre.
    assert (Ha : a = (rev b ++ rev pre)%list).
    { rewrite <- rev_app_distr, <- Hpre. by rewrite rev_involutive. }
    rewrite Hout in Ha. simpl in Ha. by apply (trim_start_head l c (out ++ rev pre)).
  - rewrite rev_involutive. apply trim_start_idempotent.
Qed.

Lemma trim_of_clean (s : string) : clean (list_ascii_of_string s) -> trim s = s.
Proof.
  intros [H1 H2]. unfold trim. rewrite H1, H2, rev_involutive.
  apply string_of_list_ascii_of_string.
Qed.

Lemma trim_clean (s : string) : clean (list_ascii_of_string (trim s)).
Proof.
  unfold trim. rewrite list_ascii_of_string_of_list_ascii. apply trim_list_clean.
Qed.

Lemma trim_idempotent (s : string) : trim (trim s) = trim s.
Proof. apply trim_of_clean, trim_clean. Qed.

Lemma clean_https (s : string) :
  clean (list_ascii_of_string s) -> clean (list_ascii_of_string ("https://" ++ s)).
Proof.
  intros [H1 H2]. rewrite list_ascii_of_string_app. split; [done|].
  rewrite rev_app_distr. apply trim_start_fix.
  destruct (rev (list_ascii_of_string s)) as [|c z] eqn:Hr; [done|].
  simpl. by apply (trim_start_head (c :: z) c z).
Qed.

End TrimProperties.

(** X2: a value that passes [validateURL] consists of ASCII letters, digits
    and the characters - % _ . ~ + : / ? # ; & = only; in particular it holds
    no white space, trimming leaves it as it is, and [prepareLink] does to it
    what [addProtocol] does. *)
Theorem X2_valid_url_characters :
  forall str : string,
    LinkInlineTool.validateURL str = true ->
    (forall c, In c (list_ascii_of_string str) ->
               LinkInlineTool.url_char c = true /\ Regex.is_space c = false)
    /\ LinkInlineTool.trim str = str
    /\ LinkInlineTool.prepareLink str = LinkInlineTool.addProtocol str.
Proof.
  intros str Hv.
  assert (Hchars : forall c, In c (list_ascii_of_string str) ->
                             LinkInlineTool.url_char c = true /\ Regex.is_space c = false).
  { intros c Hin. apply validateURL_matches in Hv.
    pose proof (matches_admits _ _ Hv c Hin) as Ha. rewrite admits_pattern in Ha.
    split; [done | by apply url_char_not_space]. }
  assert (Htrim : LinkInlineTool.trim str = str).
  { apply trim_of_clean. split; apply trim_start_id.
    - intros c Hin. by apply Hchars.
    - intros c Hin%in_rev. by apply Hchars. }
  split; [done|]. split; [done|].
  unfold LinkInlineTool.prepareLink. by rewrite Htrim.
Qed.

(** "https://Example.COM:80/a-b?x=1#top" passes and has no white space. *)
Lemma X2_witness :
  LinkInlineTool.validateURL "https://Example.COM:80/a-b?x=1#top" = true
  /\ LinkInlineTool.trim "https://Example.COM:80/a-b?x=1#top"
     = "https://Example.COM:80/a-b?x=1#top".
Proof.
  split; [vm_compute; reflexivity|].
  apply (X2_valid_url_characters "https://Example.COM:80/a-b?x=1#top").
  vm_compute. reflexivity.
Defined.

(** X3: a value that passes [validateURL] contains a dot: the domain name
    or IPv4 part of the pattern is mandatory, so host names without a dot,
    paths, fragments and scheme-only values are all refused. *)
Theorem X3_valid_url_has_dot :
  forall str : string,
    LinkInlineTool.validateURL str = true -> In "."%char (list_ascii_of_string str).
Proof.
  intros str Hv%validateURL_matches.
  apply (requires_sound LinkInlineTool.pattern "."%char); [|done].
  vm_compute. reflexivity.
Qed.

(** "1.2.3.4" passes and has its dots; "localhost" has none and fails. *)
Lemma X3_witness :
  LinkInlineTool.validateURL "1.2.3.4" = true
  /\ In "."%char (list_ascii_of_string "1.2.3.4")
  /\ LinkInlineTool.validateURL "localhost" = false.
Proof.
  split; [vm_compute; reflexivity|]. split.
  - apply (X3_valid_url_has_dot "1.2.3.4"). vm_compute. reflexivity.
  - vm_compute. reflexivity.
Defined.

(** X4: normalizing a link twice is the same as normalizing it once, for
    [addProtocol] and for [prepareLink]; [addProtocol] either returns its
    argument or puts "https://" in front of it. *)
Theorem X4_prepareLink_idempotent :
  forall link : string,
    LinkInlineTool.prepareLink (LinkInlineTool.prepareLink link)
    = LinkInlineTool.prepareLink link
    /\ LinkInlineTool.addProtocol (LinkInlineTool.addProtocol link)
       = LinkInlineTool.addProtocol link
    /\ (LinkInlineTool.addProtocol link = link
        \/ LinkInlineTool.addProtocol link = "https://" ++ link).
Proof.
  intros link. split; [|split; [apply addProtocol_idempotent | apply addProtocol_cases]].
  unfold LinkInlineTool.prepareLink.
  assert (Htrim : LinkInlineTool.trim
                    (LinkInlineTool.addProtocol (LinkInlineTool.trim link))
                  = LinkInlineTool.addProtocol (LinkInlineTool.trim link)).
  { apply trim_of_clean.
    destruct (addProtocol_cases (LinkInlineTool.trim link)) as [->| ->].
    - apply trim_clean.
    - apply clean_https, trim_clean. }
  rewrite Htrim. apply addProtocol_idempotent.
Qed.

(** Unfold one method of the rendered tool on a state whose flags are
    known; the arguments are reduced before they are passed on. *)
Ltac link_step :=
  cbv [fst negb andb
       LinkInlineTool.act LinkInlineTool.surround LinkInlineTool.toggleActions
       LinkInlineTool.checkState LinkInlineTool.openActions
       LinkInlineTool.setFakeBackground LinkInlineTool.clear LinkInlineTool.on_keyup
       LinkInlineTool.on_confirm_mousedown LinkInlineTool.on_clean_mousedown
       LinkInlineTool.on_document_click LinkInlineTool.lift LinkInlineTool.ui_emit
       LinkInlineTool.removeFakeBackground LinkInlineTool.unlink LinkInlineTool.emit
       LinkInlineTool.tool LinkInlineTool.buttonIcon LinkInlineTool.buttonUnlink
       LinkInlineTool.buttonActive LinkInlineTool.cleanButtonShowed
       LinkInlineTool.confirmButtonShowed LinkInlineTool.ui_calls
       LinkInlineTool.input_value LinkInlineTool.inputOpened
       LinkInlineTool.labelShowed LinkInlineTool.buttonHover
       LinkInlineTool.isFakeBackgroundEnabled LinkInlineTool.calls].

Section LinkMachineProperties.
Import Regex LinkInlineTool.

Lemma closeActions_eq c s :
  exists cs,
    closeActions c s = mk "" false false false false (calls s ++ cs)
    /\ committed cs = []
    /\ (In selection_clearSaved cs <-> c = true)
    /\ (In selection_removeFakeBackground cs <-> isFakeBackgroundEnabled s = true)
    /\ ~ In (execCommand commandUnlink None) cs.
Proof.
  unfold closeActions, removeFakeBackground, emit.
  destruct (isFakeBackgroundEnabled s) eqn:Hf, c; simpl; rewrite ?Hf;
    rewrite <- ?app_assoc; simpl.
  1-3: eexists; (split; [reflexivity|]); simpl; (split; [reflexivity|]);
       (split; [split; intros H; try done; intuition discriminate|]);
       (split; [split; intros H; try done; intuition discriminate|]);
       intros H; intuition discriminate.
  exists []. rewrite app_nil_r. simpl.
  split; [done|]. split; [done|]. split; [by split|]. split; [by split|]. by intros [].
Qed.

Lemma enterPressed_eq p s :
  exists v' o' l' h' f' cs,
    enterPressed p s = mk v' o' l' h' f' (calls s ++ cs)
    /\ (f' = false \/ (f' = isFakeBackgroundEnabled s /\ o' = inputOpened s))
    /\ Forall valid_link (committed cs).
Proof.
  unfold enterPressed.
  destruct (String.eqb (trim (input_value s)) "") eqn:Hblank.
  - set (s0 := emit _ (unlink _)).
    destruct (closeActions_eq true s0) as (cs & -> & Hnone & _).
    exists "", false, false, false, false,
      ([selection_restore; execCommand commandUnlink None; event_preventDefault] ++ cs)%list.
    split; [|split; [by left|]].
    + f_equal. unfold s0, emit, unlink. simpl. by rewrite <- !app_assoc.
    + rewrite committed_app, Hnone. constructor.
  - destruct (validateURL (input_value s)) eqn:Hv; simpl negb; cbv iota.
    + unfold insertLink, removeFakeBackground, emit.
      destruct p; simpl; rewrite <- !app_assoc; simpl;
        do 5 eexists; eexists; (split; [reflexivity|]); (split; [by left|]);
        simpl; repeat constructor; by exists (input_value s).
    + unfold emit. destruct s as [v o l h f cs]. simpl.
      do 5 eexists; eexists. split; [reflexivity|]. split; [by right|].
      simpl. constructor.
Qed.

Lemma tidy_act a u : tidy (tool u) -> tidy (tool (act a u)).
Proof.
  destruct u as [[v o l h f cs] icon bu ba cl co ucs]. unfold tidy. simpl.
  intros [Hinv Hlinks].
  destruct a as [range p anchorTag|anchorTag| |value enter p|p| |target].
  - destruct range, o, p, anchorTag as [href|]; link_step;
      try match goal with
          | |- context [closeActions ?c ?s] =>
              destruct (closeActions_eq c s) as (cs' & -> & Hnone & _)
          end;
      try match goal with
          | |- context [bool_decide ?P] => destruct (bool_decide P)
          end;
      link_step; rewrite ?committed_app, ?Hnone; simpl;
      (split; [tauto || done | rewrite ?app_nil_r; done]).
  - destruct anchorTag as [href|]; link_step;
      try match goal with
          | |- context [bool_decide ?P] => destruct (bool_decide P)
          end;
      link_step; simpl; tauto.
  - link_step.
    match goal with
    | |- context [closeActions ?c ?s] =>
        destruct (closeActions_eq c s) as (cs' & -> & Hnone & _)
    end.
    simpl. rewrite committed_app, Hnone, app_nil_r. tauto.
  - destruct enter; link_step; [|simpl; tauto].
    match goal with
    | |- context [enterPressed ?p ?s] =>
        destruct (enterPressed_eq p s) as (v' & o' & l' & h' & f' & cs' & -> & Hf & Hc)
    end.
    simpl in *. rewrite committed_app. split.
    + destruct Hf as [->|[-> ->]]; [done | tauto].
    + by apply Forall_app.
  - link_step.
    match goal with
    | |- context [enterPressed ?p ?s] =>
        destruct (enterPressed_eq p s) as (v' & o' & l' & h' & f' & cs' & -> & Hf & Hc)
    end.
    simpl in *. rewrite !committed_app. simpl. rewrite app_nil_r. split.
    + destruct Hf as [->|[-> ->]]; [done | tauto].
    + by apply Forall_app.
  - link_step. simpl. rewrite !committed_app. simpl. rewrite !app_nil_r. tauto.
  - destruct target as [[|]|], o; link_step;
      try match goal with
          | |- context [closeActions ?c ?s] =>
              destruct (closeActions_eq c s) as (cs' & -> & Hnone & _)
          end;
      simpl; rewrite ?committed_app, ?Hnone; simpl; rewrite ?app_nil_r; tauto.
Qed.

Lemma tidy_acts l : forall u, tidy (tool u) -> tidy (tool (acts l u)).
Proof.
  induction l as [|a l IH]; intros u H; [done|].
  apply (IH (act a u)). by apply tidy_act.
Qed.

End LinkMachineProperties.

Section CommittedLinks.
Import Regex LinkInlineTool.

Lemma valid_link_shape link :
  valid_link link ->
  In "."%char (list_ascii_of_string link)
  /\ forall c, In c (list_ascii_of_string link) -> is_space c = false.
Proof.
  intros (value & Hv & ->).
  assert (Hm : matches pattern (list_ascii_of_string value)) by (by apply validateURL_matches).
  assert (Hchars : forall c, In c (list_ascii_of_string value) -> is_space c = false).
  { intros c Hin. apply url_char_not_space. rewrite <- admits_pattern.
    by apply (matches_admits _ _ Hm). }
  assert (Hdot : In "."%char (list_ascii_of_string value)).
  { apply (requires_sound pattern "."%char); [vm_compute; reflexivity | done]. }
  assert (Htrim : trim value = value).
  { apply trim_of_clean. split; apply trim_start_id; [done|].
    intros c Hin%in_rev. by apply Hchars. }
  unfold prepareLink. rewrite Htrim.
  destruct (addProtocol_cases value) as [->| ->]; [done|].
  rewrite list_ascii_of_string_app. split.
  - apply in_or_app. by right.
  - intros c [Hin|Hin]%in_app_or; [|by apply Hchars].
    simpl in Hin. by repeat (destruct Hin as [<-|Hin]; [reflexivity|]).
Qed.

Lemma tidy_rendered : tidy (tool rendered).
Proof. split; [discriminate | constructor]. Qed.

End CommittedLinks.

(** X5: whatever the editor and the user do with the rendered link tool
    (button clicks with or without a range or an anchor, state checks,
    clear, typing, confirm, clean, clicks elsewhere), the fake background is
    never left on while the input is closed; [setFakeBackground] and
    [removeFakeBackground] are taken to switch the marker on and off. *)
Theorem X5_no_fake_background_while_closed :
  forall l : list LinkInlineTool.Action,
    let s := LinkInlineTool.tool (LinkInlineTool.acts l LinkInlineTool.rendered) in
    LinkInlineTool.inputOpened s = false ->
    LinkInlineTool.isFakeBackgroundEnabled s = false.
Proof.
  intros l s Hclosed.
  destruct (tidy_acts l _ tidy_rendered) as [Hinv _]. fold s in Hinv.
  destruct (LinkInlineTool.isFakeBackgroundEnabled s); [|done].
  rewrite Hinv in Hclosed; done.
Qed.

(** Open the input, type nothing valid, click elsewhere: closed and clean. *)
Lemma X5_witness :
  LinkInlineTool.inputOpened
    (LinkInlineTool.tool
       (LinkInlineTool.acts
          [LinkInlineTool.do_surround true false None;
           LinkInlineTool.keyup "not a url" true false;
           LinkInlineTool.document_click (Some false)]
          LinkInlineTool.rendered)) = false
  /\ LinkInlineTool.isFakeBackgroundEnabled
       (LinkInlineTool.tool
          (LinkInlineTool.acts
             [LinkInlineTool.do_surround true false None;
              LinkInlineTool.keyup "not a url" true false;
              LinkInlineTool.document_click (Some false)]
             LinkInlineTool.rendered)) = false.
Proof.
  split; [vm_compute; reflexivity|].
  apply (X5_no_fake_background_while_closed
           [LinkInlineTool.do_surround true false None;
            LinkInlineTool.keyup "not a url" true false;
            LinkInlineTool.document_click (Some false)]).
  vm_compute. reflexivity.
Defined.

(** X6: whatever the editor and the user do with the rendered link tool,
    every link it hands to the native link-creation command is the normal
    form of a value that passed validation; such a link contains a dot and
    no white space. *)
Theorem X6_only_validated_links_committed :
  forall l : list LinkInlineTool.Action,
    Forall (fun link =>
              LinkInlineTool.valid_link link
              /\ In "."%char (list_ascii_of_string link)
              /\ forall c, In c (list_ascii_of_string link) -> Regex.is_space c = false)
           (LinkInlineTool.committed
              (LinkInlineTool.calls
                 (LinkInlineTool.tool (LinkInlineTool.acts l LinkInlineTool.rendered)))).
Proof.
  intros l. destruct (tidy_acts l _ tidy_rendered) as [_ Hlinks].
  eapply Forall_impl; [exact Hlinks|]. intros link Hv. split; [done|].
  by apply valid_link_shape.
Qed.

(** X7: clicking the link button on a selection outside any anchor opens
    the input behind a fake background with the selection saved; clicking
    it again, with or without a range, closes the input and removes the
    fake background without committing, unlinking or dropping the saved
    selection. *)
Theorem X7_button_toggles_input :
  forall (u : LinkInlineTool.UI) (range2 : bool) (a1 a2 : option (option string)),
    LinkInlineTool.inputOpened (LinkInlineTool.tool u) = false ->
    let u1 := LinkInlineTool.surround true false a1 u in
    let u2 := LinkInlineTool.surround range2 false a2 u1 in
    let new := LinkInlineTool.new_calls (LinkInlineTool.tool u) (LinkInlineTool.tool u2) in
    LinkInlineTool.inputOpened (LinkInlineTool.tool u1) = true
    /\ LinkInlineTool.isFakeBackgroundEnabled (LinkInlineTool.tool u1) = true
    /\ LinkInlineTool.ui_calls u1
       = (LinkInlineTool.ui_calls u
          ++ [LinkInlineTool.selection_setFakeBackground; LinkInlineTool.selection_save;
              LinkInlineTool.label_focus_later])%list
    /\ LinkInlineTool.inputOpened (LinkInlineTool.tool u2) = false
    /\ LinkInlineTool.isFakeBackgroundEnabled (LinkInlineTool.tool u2) = false
    /\ In LinkInlineTool.selection_removeFakeBackground new
    /\ ~ In LinkInlineTool.selection_clearSaved new
    /\ ~ In (LinkInlineTool.execCommand LinkInlineTool.commandUnlink None) new
    /\ LinkInlineTool.committed new = [].
Proof.
  intros [[v o l h f cs] icon bu ba cl co ucs] range2 a1 a2 Ho. simpl in Ho. subst o.
  intros u1 u2 new. subst new u2 u1.
  unfold LinkInlineTool.new_calls.
  destruct range2; link_step;
    match goal with
    | |- context [LinkInlineTool.closeActions ?c ?s] =>
        destruct (closeActions_eq c s) as (cs' & -> & Hnone & Hsaved & Hfake & Hun)
    end;
    link_step; rewrite <- ?app_assoc; rewrite drop_app_length;
    (split; [done|]); (split; [done|]); (split; [done|]);
    (split; [done|]); (split; [done|]); simpl.
  - split; [tauto|]. split; [|split; [|done]].
    + intros [H|[H|H%Hsaved]]; discriminate.
    + intros [H|[H|H]]; [discriminate..|done].
  - split; [by apply Hfake|]. split; [by intros H%Hsaved|done].
Qed.

(** From the freshly rendered tool. *)
Lemma X7_witness :
  LinkInlineTool.inputOpened
    (LinkInlineTool.tool
       (LinkInlineTool.surround false false None
          (LinkInlineTool.surround true false None LinkInlineTool.rendered))) = false.
Proof.
  apply (X7_button_toggles_input LinkInlineTool.rendered false None None). reflexivity.
Defined.

(** X8: clicking the link button on a selection inside an anchor always
    unlinks and closes the toolbar, commits nothing, and, when the state
    check then finds no anchor any more, leaves the input closed and empty,
    no fake background, and the button with the link icon and inactive. *)
Theorem X8_button_on_anchor_unlinks :
  forall (u : LinkInlineTool.UI) (anchorTag : option (option string)),
    let u' := LinkInlineTool.surround true true anchorTag u in
    let new := LinkInlineTool.new_calls (LinkInlineTool.tool u) (LinkInlineTool.tool u') in
    In (LinkInlineTool.execCommand LinkInlineTool.commandUnlink None) new
    /\ LinkInlineTool.committed new = []
    /\ (exists before, LinkInlineTool.ui_calls u'
                       = (before ++ [LinkInlineTool.toolbar_close])%list)
    /\ LinkInlineTool.isFakeBackgroundEnabled (LinkInlineTool.tool u') = false
    /\ (anchorTag = None ->
        LinkInlineTool.inputOpened (LinkInlineTool.tool u') = false
        /\ LinkInlineTool.input_value (LinkInlineTool.tool u') = ""
        /\ LinkInlineTool.buttonIcon u' = LinkInlineTool.IconLink
        /\ LinkInlineTool.buttonUnlink u' = false
        /\ LinkInlineTool.buttonActive u' = false).
Proof.
  intros [[v o l h f cs] icon bu ba cl co ucs] anchorTag u' new. subst new u'.
  unfold LinkInlineTool.new_calls.
  destruct o, anchorTag as [href|]; link_step;
    match goal with
    | |- context [LinkInlineTool.closeActions ?c ?s] =>
        destruct (closeActions_eq c s) as (cs' & -> & Hnone & _)
    end;
    try match goal with
        | |- context [bool_decide ?P] => destruct (bool_decide P)
        end;
    link_step; rewrite <- ?app_assoc; rewrite drop_app_length;
    (split; [simpl; tauto|]); (split; [simpl; exact Hnone|]);
    (split; [rewrite ?app_assoc; by eexists|]); (split; [done|]);
    intros H; try discriminate; done.
Qed.

(* ===================================================================== *)
(** * Delete tune: properties                                             *)
(* ===================================================================== *)

Section DeleteProperties.
Import DeleteTune.

Lemma acts_snoc l a s : acts (l ++ [a]) s = act a (acts l s).
Proof. unfold acts. by rewrite foldl_app. Qed.

Lemma deletions_handleClick s :
  deletions (handleClick s) = (deletions s + if needConfirmation s then 1 else 0)%nat.
Proof.
  unfold handleClick, deletions. destruct (needConfirmation s); simpl;
    rewrite List.filter_app, length_app; simpl; lia.
Qed.

Lemma armed_iff l :
  needConfirmation (acts l rendered) = true <->
  exists pre post, l = (pre ++ click :: post)%list /\ Forall (fun a => a = click) post.
Proof.
  induction l as [|a l IH] using rev_ind.
  - simpl. split; [discriminate|]. intros (pre & post & H & _). by destruct pre.
  - rewrite acts_snoc. destruct a; simpl.
    + unfold handleClick. split.
      * intros _. exists l, []. split; [done | constructor].
      * intros _. by destruct (needConfirmation (acts l rendered)).
    + split; [discriminate|]. intros (pre & post & H & Hpost).
      destruct post as [|b post _] using rev_ind.
      * apply app_inj_tail in H as [_ [=]].
      * rewrite app_comm_cons, app_assoc in H. apply app_inj_tail in H as [_ <-].
        apply Forall_app in Hpost as [_ Hb]. by inversion Hb.
Qed.

Lemma deletions_bound l :
  (deletions (acts l rendered)
   + (if needConfirmation (acts l rendered) then 1 else 0) <= clicks l)%nat.
Proof.
  induction l as [|a l IH] using rev_ind; [simpl; lia|].
  rewrite acts_snoc. unfold clicks in *. rewrite List.filter_app, length_app.
  destruct a; simpl.
  - rewrite deletions_handleClick.
    assert (needConfirmation (handleClick (acts l rendered)) = true) as ->.
    { unfold handleClick. by destruct (needConfirmation (acts l rendered)). }
    destruct (needConfirmation (acts l rendered)); lia.
  - unfold deletions in *. simpl.
    destruct (needConfirmation (acts l rendered)); lia.
Qed.

Lemma buttonConfirm_sticks l : l <> [] -> buttonConfirm (acts l rendered) = true.
Proof.
  induction l as [|a l IH] using rev_ind; [done|]. intros _.
  rewrite acts_snoc. destruct a; simpl; [|done].
  unfold handleClick. destruct (needConfirmation (acts l rendered)) eqn:Hn; simpl; [|done].
  apply IH. intros ->. discriminate.
Qed.

End DeleteProperties.

(** X9: the delete tune deletes only on confirmation. After any sequence
    of clicks and runs of [resetConfirmation], the tune awaits confirmation
    exactly when the button was clicked and [resetConfirmation] has not run
    since; a click deletes the block exactly when confirmation is awaited;
    so a click that follows a reset never deletes, and there are always
    fewer deletions than clicks. Once anything happened the button keeps
    its confirm class, also after a reset. *)
Theorem X9_delete_needs_confirmation :
  forall l : list DeleteTune.Action,
    let s := DeleteTune.acts l DeleteTune.rendered in
    let awaited := DeleteTune.needConfirmation s in
    (awaited = true <->
       exists pre post,
         l = (pre ++ DeleteTune.click :: post)%list
         /\ Forall (fun a => a = DeleteTune.click) post)
    /\ DeleteTune.deletions (DeleteTune.handleClick s)
       = (DeleteTune.deletions s + if awaited then 1 else 0)%nat
    /\ DeleteTune.deletions
         (DeleteTune.handleClick (DeleteTune.resetConfirmation s))
       = DeleteTune.deletions s
    /\ (DeleteTune.deletions s + (if awaited then 1 else 0) <= DeleteTune.clicks l)%nat
    /\ (l <> [] -> DeleteTune.buttonConfirm s = true).
Proof.
  intros l s awaited. subst awaited s.
  split; [apply armed_iff|]. split; [apply deletions_handleClick|].
  split; [|split; [apply deletions_bound | apply buttonConfirm_sticks]].
  rewrite deletions_handleClick. simpl. unfold DeleteTune.deletions. simpl. lia.
Qed.

Section DeleteExamples.
Import DeleteTune.

Example one_click_keeps_the_block :
  deletions (acts [click] rendered) = 0%nat
  /\ calls (acts [click] rendered) = [events_on].
Proof. split; reflexivity. Qed.

Example two_clicks_delete :
  calls (acts [click; click] rendered)
  = [events_on; events_off; blocks_delete; toolbar_close; tooltip_hide;
     event_stopPropagation].
Proof. reflexivity. Qed.

Example closing_the_panel_cancels :
  calls (acts [click; settings_closed; click] rendered) = [events_on; events_on]
  /\ buttonConfirm (acts [click; settings_closed] rendered) = true.
Proof. split; reflexivity. Qed.

End DeleteExamples.

(* ===================================================================== *)
(** * Block: the current input, further properties                        *)
(* ===================================================================== *)

Section InputProperties.
Import Block.

Context {W : Type}.
Implicit Types (b : Block.t W) (e : Block.Env W) (d : Document).

Lemma findIndex_spec {A} (p : A -> bool) (l : list A) :
  (findIndex p l = -1 /\ Forall (fun x => p x = false) l)
  \/ exists i x,
       findIndex p l = Z.of_nat i /\ l !! i = Some x /\ p x = true
       /\ forall j y, (j < i)%nat -> l !! j = Some y -> p y = false.
Proof.
  induction l as [|x l IH]; simpl.
  - left. split; [done | constructor].
  - destruct (p x) eqn:Hx.
    + right. exists 0%nat, x. repeat split; try done. intros j y Hj. lia.
    + destruct IH as [[-> Hall]|(i & y & -> & Hl & Hy & Hbefore)].
      * left. split; [done | by constructor].
      * right. exists (S i), y.
        destruct (Z.eqb_spec (Z.of_nat i) (-1)); [lia|].
        split; [lia|]. split; [done|]. split; [done|].
        intros [|j] z Hj Hz; simpl in Hz; [by injection Hz as <-|].
        apply (Hbefore j z); [lia | done].
Qed.

Lemma inputs_cache d b :
  cachedInputs W (snd (inputs W d b)) = fst (inputs W d b).
Proof. unfold inputs. by repeat case_match. Qed.

Lemma inputs_again d b :
  fst (inputs W d b) <> [] ->
  inputs W d (snd (inputs W d b)) = (fst (inputs W d b), snd (inputs W d b)).
Proof.
  intros Hne. pose proof (inputs_cache d b) as Hc.
  destruct (inputs W d b) as [ins b1]. simpl in *.
  unfold inputs. rewrite Hc. by destruct ins.
Qed.

Lemma inputs_set_inputIndex d b i :
  cachedInputs W b <> [] ->
  inputs W d (set_inputIndex W i b) = (cachedInputs W b, set_inputIndex W i b).
Proof. intros H. unfold inputs. simpl. by destruct (cachedInputs W b). Qed.

Lemma index_ok_inputs d b : index_ok W b -> index_ok W (snd (inputs W d b)).
Proof.
  intros [Hlo Hhi]. unfold inputs.
  destruct (cachedInputs W b) as [|c cs] eqn:Hc; simpl.
  - destruct (Z.gtb_spec (inputIndex W b) (Z.of_nat (length (findAllInputs d)) - 1));
      unfold index_ok; simpl; split; lia.
  - unfold index_ok. rewrite Hc. split; [done|]. intros _. by apply Hhi.
Qed.

Lemma index_ok_set_currentInput d element b :
  index_ok W b -> index_ok W (set_currentInput W d element b).
Proof.
  intros Hok. unfold set_currentInput.
  pose proof (index_ok_inputs d b Hok) as Hok1.
  pose proof (inputs_cache d b) as Hc.
  destruct (inputs W d b) as [ins b1]. simpl in *.
  match goal with |- context [findIndex ?p ins] =>
    destruct (findIndex_spec p ins) as [[-> _]|(i & x & -> & Hl & _ & _)] end.
  - done.
  - destruct (Z.eqb_spec (Z.of_nat i) (-1)); [lia|].
    unfold index_ok. simpl. rewrite Hc. split; [lia|]. intros _.
    apply lookup_lt_Some in Hl. lia.
Qed.

Lemma index_ok_drop_cache b : index_ok W b -> index_ok W (set_cachedInputs W [] b).
Proof. intros [Hlo _]. by split. Qed.

Lemma index_ok_updateCurrentInput d b :
  index_ok W b -> index_ok W (updateCurrentInput W d b).
Proof. intros H. unfold updateCurrentInput. by apply index_ok_set_currentInput. Qed.

Lemma index_ok_frame b b' :
  inputIndex W b' = inputIndex W b -> cachedInputs W b' = cachedInputs W b ->
  index_ok W b -> index_ok W b'.
Proof. unfold index_ok. by intros -> ->. Qed.

Lemma index_ok_didMutated_now d arg b e :
  index_ok W b -> index_ok W (fst (didMutated_now W d arg (b, e))).
Proof.
  intros H. unfold didMutated_now. destruct (shouldFireUpdate arg); simpl; [|done].
  by apply index_ok_updateCurrentInput, index_ok_drop_cache.
Qed.

Lemma index_ok_apply d o (s : Block.t W * Block.Env W) :
  index_ok W (fst s) -> index_ok W (fst (apply W d o s)).
Proof.
  destruct s as [b e]. simpl. intros H.
  destruct o as [ |element| |arg| | | | |ev]; simpl.
  - by apply index_ok_inputs.
  - by apply index_ok_set_currentInput.
  - by apply index_ok_updateCurrentInput.
  - by apply index_ok_didMutated_now.
  - by apply index_ok_updateCurrentInput, index_ok_drop_cache.
  - unfold willSelect, addInputEvents. rewrite inputs_observing. simpl.
    eapply index_ok_frame; [| |exact (index_ok_inputs d b H)]; done.
  - unfold willUnselect, removeInputEvents. rewrite inputs_observing. simpl.
    eapply index_ok_frame; [| |exact (index_ok_inputs d b H)]; done.
  - done.
  - destruct ev as [records|n|n|]; cbn [deliver].
    + destruct (observing W b); exact H.
    + destruct (has_listener _ _ _); exact H.
    + destruct (has_listener _ _ _); [|exact H].
      by apply index_ok_updateCurrentInput, index_ok_drop_cache.
    + destruct (pending W b) as [arg|]; [|exact H].
      by apply (index_ok_didMutated_now d arg (set_pending W None b) e).
Qed.

Lemma index_ok_run ops : forall (s : Block.t W * Block.Env W),
  index_ok W (fst s) -> index_ok W (fst (run W ops s)).
Proof.
  induction ops as [|[d o] ops IH]; intros s H; [done|].
  apply (IH (apply W d o s)). by apply index_ok_apply.
Qed.

Lemma new_inputs (opts : BlockConstructorOptions W) e :
  cachedInputs W (fst (new W opts e)) = [] /\ inputIndex W (fst (new W opts e)) = 0.
Proof.
  unfold new, composeTunes. cbn [fst tunes].
  set (b0 := mk W _ _ _ _ _ _ _ _ _ _ _ _).
  assert (H : cachedInputs W b0 = [] /\ inputIndex W b0 = 0) by done.
  revert H. generalize b0. generalize (tool_tunes W (opt_tool W opts)).
  intros ts. induction ts as [|tune ts IH]; intros b H; [done|].
  cbn [foldl]. apply IH. by destruct (isInternal W tune).
Qed.

(** What the getter returns always reaches beyond the index it leaves. *)
Lemma inputs_bound d b :
  index_ok W b ->
  (inputIndex W (snd (inputs W d b)) < Z.of_nat (length (fst (inputs W d b))))%Z.
Proof.
  intros [Hlo Hhi]. unfold inputs.
  destruct (cachedInputs W b) as [|c cs] eqn:Hc; simpl.
  - destruct (Z.gtb_spec (inputIndex W b) (Z.of_nat (length (findAllInputs d)) - 1));
      simpl; lia.
  - by apply Hhi.
Qed.

(** When [currentInput] is undefined. *)
Lemma currentInput_None d b :
  index_ok W b ->
  fst (currentInput W d b) = None <-> inputIndex W (snd (inputs W d b)) = -1.
Proof.
  intros Hok. unfold currentInput.
  pose proof (index_ok_inputs d b Hok) as [Hlo _].
  pose proof (inputs_bound d b Hok) as Hhi.
  destruct (inputs W d b) as [ins b1]. simpl in *.
  unfold js_index. destruct (Z.ltb_spec (inputIndex W b1) 0).
  - split; [lia | done].
  - split; [|lia]. intros Hnone%lookup_ge_None. lia.
Qed.

End InputProperties.

Section InputLookup.
Import Block.

Context {W : Type}.
Implicit Types (b : Block.t W) (d : Document).

Lemma findIndex_none {A} (p : A -> bool) (l : list A) :
  (forall x, In x l -> p x = false) -> findIndex p l = -1.
Proof.
  intros Hall. destruct (findIndex_spec p l) as [[H _]|(i & x & _ & Hl & Hx & _)]; [done|].
  apply list_elem_of_lookup_2, list_elem_of_In in Hl. by rewrite (Hall x Hl) in Hx.
Qed.

Lemma findIndex_first {A} (p : A -> bool) (l : list A) i x :
  l !! i = Some x -> p x = true ->
  (forall j y, (j < i)%nat -> l !! j = Some y -> p y = false) ->
  findIndex p l = Z.of_nat i.
Proof.
  intros Hl Hx Hbefore.
  destruct (findIndex_spec p l) as [[_ Hall]|(i0 & x0 & -> & Hl0 & Hx0 & Hbefore0)].
  - rewrite Forall_forall in Hall.
    apply list_elem_of_lookup_2 in Hl. by rewrite (Hall x Hl) in Hx.
  - destruct (Nat.lt_trichotomy i0 i) as [Hlt|[->|Hlt]]; [|done|].
    + by rewrite (Hbefore i0 x0 Hlt Hl0) in Hx0.
    + by rewrite (Hbefore0 i x Hlt Hl) in Hx.
Qed.

Lemma js_index_nat {A} (l : list A) (i : nat) : js_index l (Z.of_nat i) = l !! i.
Proof.
  unfold js_index. destruct (Z.ltb_spec (Z.of_nat i) 0); [lia|]. by rewrite Nat2Z.id.
Qed.

Lemma js_index_None {A} (l : list A) (i : Z) :
  js_index l i = None <-> (i < 0 \/ Z.of_nat (length l) <= i)%Z.
Proof.
  unfold js_index. destruct (Z.ltb_spec i 0).
  - split; [by left | done].
  - rewrite lookup_ge_None. lia.
Qed.

Lemma lastContentNode_spec (cs : list ChildNode) (n : nat) :
  match lastContentNode cs n with
  | Some c =>
      exists i, (i < n)%nat /\ cs !! i = Some c /\ isExtensionNode c = false
                /\ forall j c', (i < j < n)%nat -> cs !! j = Some c' ->
                                isExtensionNode c' = true
  | None =>
      forall j c', (j < n)%nat -> cs !! j = Some c' -> isExtensionNode c' = true
  end.
Proof.
  induction n as [|n IH]; simpl.
  - intros j c' Hj. lia.
  - destruct (cs !! n) as [c|] eqn:Hn.
    + destruct (isExtensionNode c) eqn:Hc; simpl.
      * destruct (lastContentNode cs n) as [c0|].
        -- destruct IH as (i & Hi & Hl & He & Hafter). exists i.
           split; [lia|]. split; [done|]. split; [done|].
           intros j c' Hj Hl'. destruct (decide (j = n)) as [->|Hne].
           ++ rewrite Hn in Hl'. by injection Hl' as <-.
           ++ apply (Hafter j c'); [lia | done].
        -- intros j c' Hj Hl'. destruct (decide (j = n)) as [->|Hne].
           ++ rewrite Hn in Hl'. by injection Hl' as <-.
           ++ apply (IH j c'); [lia | done].
      * exists n. split; [lia|]. split; [done|]. split; [done|].
        intros j c' Hj. lia.
    + destruct (lastContentNode cs n) as [c0|].
      * destruct IH as (i & Hi & Hl & He & Hafter). exists i.
        split; [lia|]. split; [done|]. split; [done|].
        intros j c' Hj Hl'. destruct (decide (j = n)) as [->|Hne].
        -- by rewrite Hn in Hl'.
        -- apply (Hafter j c'); [lia | done].
      * intros j c' Hj Hl'. destruct (decide (j = n)) as [->|Hne].
        -- by rewrite Hn in Hl'.
        -- apply (IH j c'); [lia | done].
Qed.

End InputLookup.

(** X10: assigning [currentInput] an element makes the first input that is
    or contains it the current one, and [currentInput] then returns that
    input; an element outside every input, or no element, leaves the Block
    as the [inputs] getter leaves it. *)
Theorem X10_currentInput_set_then_get :
  forall (W : Type) (d : Block.Document) (b : Block.t W) (element : Block.Node),
    let ins := fst (Block.inputs W d b) in
    let hit := fun input => (input =? element)%nat || Block.contains d input element in
    let b' := Block.set_currentInput W d (Some element) b in
    (forall i input,
        ins !! i = Some input -> hit input = true ->
        (forall j y, (j < i)%nat -> ins !! j = Some y -> hit y = false) ->
        Block.inputIndex W b' = Z.of_nat i
        /\ Block.currentInput W d b' = (Some input, b'))
    /\ ((forall input, In input ins -> hit input = false) ->
        b' = snd (Block.inputs W d b))
    /\ Block.set_currentInput W d None b = snd (Block.inputs W d b).
Proof.
  intros W d b element ins hit b'. subst b' ins.
  pose proof (inputs_cache d b) as Hc.
  unfold Block.set_currentInput. destruct (Block.inputs W d b) as [ins b1].
  cbn [fst snd] in *.
  change (fun input => (input =? element)%nat || Block.contains d input element)
    with hit.
  split; [|split].
  - intros i input Hl Hhit Hbefore.
    rewrite (findIndex_first hit ins i input Hl Hhit Hbefore).
    destruct (Z.eqb_spec (Z.of_nat i) (-1)); [lia|].
    split; [done|]. unfold Block.currentInput.
    rewrite inputs_set_inputIndex; rewrite Hc.
    + change (Block.inputIndex W (Block.set_inputIndex W (Z.of_nat i) b1))
        with (Z.of_nat i).
      by rewrite js_index_nat, Hl.
    + intros ->. by rewrite lookup_nil in Hl.
  - intros Hnone. by rewrite (findIndex_none hit ins Hnone).
  - by rewrite findIndex_none.
Qed.

(** X11: the index of the current input stays in range. On a Block that
    was constructed and then went through any sequence of reads of
    [inputs], assignments of [currentInput], caret updates, mutations,
    focus events, selections and unselections, each against the document of
    its moment, the index is at least -1 and, once [inputs] is read, below
    the number of inputs; [currentInput] is undefined exactly when the index
    is -1. *)
Theorem X11_input_index_stays_in_range :
  forall (W : Type) (opts : Block.BlockConstructorOptions W) (e : Block.Env W)
         (ops : list (Block.Document * Block.Op)) (d : Block.Document),
    let b := fst (Block.run W ops (Block.new W opts e)) in
    let r := Block.inputs W d b in
    Block.index_ok W b
    /\ (-1 <= Block.inputIndex W (snd r) < Z.of_nat (length (fst r)))%Z
    /\ (fst (Block.currentInput W d b) = None <-> Block.inputIndex W (snd r) = -1).
Proof.
  intros W opts e ops d b r. subst r.
  assert (Hok : Block.index_ok W b).
  { apply index_ok_run. destruct (new_inputs opts e) as [Hc Hi].
    split; [lia|]. by rewrite Hc. }
  split; [done|]. split; [|by apply currentInput_None].
  split; [apply (index_ok_inputs d b Hok) | by apply inputs_bound].
Qed.

(** X12: the neighbours of the current input. On a Block whose index is in
    range, [firstInput] and [lastInput] are the ends of what [inputs]
    returns, [nextInput] is undefined exactly when the current input is the
    last one (or there is none to come), [previousInput] exactly when the
    index is 0 or -1, and with index -1 [nextInput] is [firstInput]. Each
    getter leaves the Block as [inputs] leaves it. *)
Theorem X12_neighbouring_inputs :
  forall (W : Type) (d : Block.Document) (b : Block.t W),
    Block.index_ok W b ->
    let ins := fst (Block.inputs W d b) in
    let b1 := snd (Block.inputs W d b) in
    let i := Block.inputIndex W b1 in
    Block.firstInput W d b = (head ins, b1)
    /\ Block.lastInput W d b = (last ins, b1)
    /\ snd (Block.nextInput W d b) = b1
    /\ snd (Block.previousInput W d b) = b1
    /\ (fst (Block.nextInput W d b) = None <-> i = Z.of_nat (length ins) - 1)
    /\ (fst (Block.previousInput W d b) = None <-> i <= 0)
    /\ (forall k : nat, i = Z.of_nat k ->
          fst (Block.nextInput W d b) = ins !! S k
          /\ fst (Block.previousInput W d b) = (if k is S k' then ins !! k' else None))
    /\ (i = -1 -> Block.nextInput W d b = Block.firstInput W d b).
Proof.
  intros W d b Hok ins b1 i. subst i b1 ins.
  pose proof (index_ok_inputs d b Hok) as [Hlo _].
  pose proof (inputs_bound d b Hok) as Hhi.
  unfold Block.firstInput, Block.lastInput, Block.nextInput, Block.previousInput.
  destruct (Block.inputs W d b) as [ins b1]. simpl in *.
  split; [|split; [|split; [done|split; [done|split; [|split; [|split]]]]]].
  - f_equal. change 0 with (Z.of_nat 0). rewrite js_index_nat. by destruct ins.
  - f_equal. destruct ins as [|x ins _] using rev_ind; [done|].
    rewrite last_snoc, length_app. simpl.
    replace (Z.of_nat (length ins + 1) - 1) with (Z.of_nat (length ins)) by lia.
    rewrite js_index_nat. by rewrite lookup_app_r, Nat.sub_diag by lia.
  - rewrite js_index_None. lia.
  - rewrite js_index_None. lia.
  - intros k Hk. rewrite Hk. split.
    + replace (Z.of_nat k + 1) with (Z.of_nat (S k)) by lia. apply js_index_nat.
    + destruct k as [|k'].
      * by apply js_index_None; left.
      * replace (Z.of_nat (S k') - 1) with (Z.of_nat k') by lia. apply js_index_nat.
  - intros ->. done.
Qed.

(** A fresh Block meeting a holder with two inputs. *)
Lemma X12_witness :
  Block.index_ok Sample.W (fst Sample.bare)
  /\ Block.firstInput Sample.W Sample.two_inputs (fst Sample.bare)
     = (head (fst (Block.inputs Sample.W Sample.two_inputs (fst Sample.bare))),
        snd (Block.inputs Sample.W Sample.two_inputs (fst Sample.bare))).
Proof.
  assert (H : Block.index_ok Sample.W (fst Sample.bare)).
  { split; [by vm_compute | intros Hne; exfalso; by apply Hne]. }
  split; [exact H|].
  exact (proj1 (X12_neighbouring_inputs Sample.W Sample.two_inputs (fst Sample.bare) H)).
Defined.

(** X13: [pluginsContent] is the last child of the content node that is not
    an extension node; it is null exactly when there is no content node or
    all of its children are extension nodes. *)
Theorem X13_pluginsContent_last_content_node :
  forall blockContentNodes : option (list Block.ChildNode),
    match Block.pluginsContent blockContentNodes with
    | Some c =>
        exists childNodes i,
          blockContentNodes = Some childNodes
          /\ childNodes !! i = Some c
          /\ Block.isExtensionNode c = false
          /\ forall j c', (i < j)%nat -> childNodes !! j = Some c' ->
                          Block.isExtensionNode c' = true
    | None =>
        forall childNodes,
          blockContentNodes = Some childNodes ->
          Forall (fun c => Block.isExtensionNode c = true) childNodes
    end.
Proof.
  intros [childNodes|]; unfold Block.pluginsContent; [|done].
  destruct (Nat.eqb_spec (length childNodes) 0) as [Hlen|Hlen]; cbn [negb].
  - intros ? [= <-]. by destruct childNodes.
  - pose proof (lastContentNode_spec childNodes (length childNodes)) as H.
    destruct (Block.lastContentNode childNodes (length childNodes)) as [c|].
    + destruct H as (i & Hi & Hl & He & Hafter). exists childNodes, i.
      split; [done|]. split; [done|]. split; [done|].
      intros j c' Hj Hl'. apply (Hafter j c'); [|done].
      apply lookup_lt_Some in Hl'. lia.
    + intros ? [= <-]. apply Forall_lookup. intros j c' Hl'.
      apply (H j c'); [|done]. by apply lookup_lt_Some in Hl'.
Qed.

Section FlagProperties.
Import Block.

Lemma contains_toggle token force (cl : gset string) :
  classList_contains token (classList_toggle token force cl) = force.
Proof.
  unfold classList_contains, classList_toggle. destruct force.
  - apply bool_decide_eq_true, elem_of_union. left. by apply elem_of_singleton.
  - apply bool_decide_eq_false. rewrite elem_of_difference, elem_of_singleton. tauto.
Qed.

Lemma contains_toggle_ne token token' force (cl : gset string) :
  token <> token' ->
  classList_contains token (classList_toggle token' force cl)
  = classList_contains token cl.
Proof.
  intros Hne. unfold classList_contains, classList_toggle.
  destruct force; apply bool_decide_ext.
  - rewrite elem_of_union, elem_of_singleton. tauto.
  - rewrite elem_of_difference, elem_of_singleton. tauto.
Qed.

Lemma classList_set_selected state h :
  classList (set_selected state h) = classList_toggle CSS_selected state (classList h).
Proof. by destruct state. Qed.

End FlagProperties.

(** X14: the state flags of the holder. Reading a flag after setting it
    gives the value set, setting one flag leaves the others as they were,
    and only [selected] touches the fake cursor: it adds one when set and
    removes it when cleared. *)
Theorem X14_state_flags_independent :
  forall (h : Block.Holder) (state : bool),
    Block.get_focused (Block.set_focused state h) = state
    /\ Block.get_selected (Block.set_selected state h) = state
    /\ Block.get_stretched (Block.set_stretched state h) = state
    /\ (Block.get_selected (Block.set_focused state h) = Block.get_selected h
        /\ Block.get_stretched (Block.set_focused state h) = Block.get_stretched h)
    /\ (Block.get_focused (Block.set_selected state h) = Block.get_focused h
        /\ Block.get_stretched (Block.set_selected state h) = Block.get_stretched h)
    /\ (Block.get_focused (Block.set_stretched state h) = Block.get_focused h
        /\ Block.get_selected (Block.set_stretched state h) = Block.get_selected h)
    /\ (Block.get_focused (Block.set_dropTarget state h) = Block.get_focused h
        /\ Block.get_selected (Block.set_dropTarget state h) = Block.get_selected h
        /\ Block.get_stretched (Block.set_dropTarget state h) = Block.get_stretched h)
    /\ Block.fakeCursorCalls (Block.set_selected state h)
       = (Block.fakeCursorCalls h ++ [state])%list
    /\ Block.fakeCursorCalls (Block.set_focused state h) = Block.fakeCursorCalls h
    /\ Block.fakeCursorCalls (Block.set_stretched state h) = Block.fakeCursorCalls h
    /\ Block.fakeCursorCalls (Block.set_dropTarget state h) = Block.fakeCursorCalls h.
Proof.
  intros h state.
  unfold Block.get_focused, Block.get_selected, Block.get_stretched.
  rewrite !classList_set_selected.
  cbn [Block.set_focused Block.set_stretched Block.set_dropTarget Block.classList].
  rewrite !contains_toggle.
  rewrite !contains_toggle_ne by done.
  repeat split; try done. by destruct state.
Qed.

(* ===================================================================== *)
(** * Block: the tunes the constructor creates                            *)
(* ===================================================================== *)

Section MapProperties.
Import Block.

Context {A : Type}.
Implicit Types (m : list (string * A)) (k : string).

Lemma map_has_elem k m : map_has k m = true <-> k ∈ m.*1.
Proof.
  unfold map_has. rewrite existsb_exists, list_elem_of_fmap. split.
  - intros ([k' v] & Hin%list_elem_of_In & Heq%String.eqb_eq). simpl in Heq.
    subst k'. by exists (k, v).
  - intros ([k' v] & -> & Hin%list_elem_of_In). exists (k', v).
    split; [done | apply String.eqb_refl].
Qed.

Lemma map_has_app k m m' :
  map_has k (m ++ m')%list = map_has k m || map_has k m'.
Proof. apply existsb_app. Qed.

Lemma map_has_map_set k k' (v : A) m :
  map_has k (map_set k' v m) = String.eqb k' k || map_has k m.
Proof.
  induction m as [|[k0 v0] m IH]; simpl; [done|].
  destruct (String.eqb_spec k0 k') as [->|Hne]; simpl.
  - by destruct (String.eqb k' k).
  - rewrite IH. by destruct (String.eqb k0 k), (String.eqb k' k).
Qed.

Lemma map_set_fresh k (v : A) m : map_has k m = false -> map_set k v m = (m ++ [(k, v)])%list.
Proof.
  induction m as [|[k0 v0] m IH]; simpl; [done|].
  intros [H1 H2]%orb_false_elim. rewrite H1. by rewrite IH.
Qed.

Lemma map_set_keys k (v : A) m :
  (map_set k v m).*1 = if map_has k m then m.*1 else (m.*1 ++ [k])%list.
Proof.
  unfold map_has. induction m as [|[k0 v0] m IH]; [done|].
  cbn [map_set existsb fst]. destruct (String.eqb_spec k0 k) as [->|Hne]; cbn [orb].
  - done.
  - rewrite !fmap_cons, IH. by destruct (existsb _ m).
Qed.

Lemma map_set_In_strong k (v : A) m n x :
  NoDup m.*1 -> In (n, x) (map_set k v m) ->
  (n = k /\ x = v) \/ (n <> k /\ In (n, x) m).
Proof.
  induction m as [|[k0 v0] m IH]; simpl.
  - intros _ [[= -> ->]|[]]. by left.
  - intros [Hk0 Hnd]%NoDup_cons.
    destruct (String.eqb_spec k0 k) as [->|Hne].
    + intros [[= -> ->]|Hin]; [by left|]. right. split; [|by right].
      intros ->. apply Hk0. apply list_elem_of_fmap. exists (k, x).
      split; [done | by apply list_elem_of_In].
    + intros [[= -> ->]|Hin]; [right; split; [done | by left]|].
      destruct (IH Hnd Hin) as [?|[? ?]]; [by left | right; split; [done | by right]].
Qed.

Lemma NoDup_map_set k (v : A) m : NoDup m.*1 -> NoDup (map_set k v m).*1.
Proof.
  intros Hnd. rewrite map_set_keys. destruct (map_has k m) eqn:Hk; [done|].
  apply NoDup_app. split; [done|]. split; [|apply NoDup_singleton].
  intros x Hx ->%list_elem_of_singleton. apply map_has_elem in Hx. congruence.
Qed.

End MapProperties.

Section CollectProperties.
Import Block.

Context {T A : Type}.
Variables (name : T -> string) (inst : T -> A) (sel : T -> bool).

Local Abbreviation collect m ts :=
  (foldl (fun (m : list (string * A)) (t : T) =>
            if sel t then map_set (name t) (inst t) m else m) m ts).

Lemma collect_has k ts : forall m,
  map_has k (collect m ts)
  = map_has k m || existsb (fun t => sel t && String.eqb (name t) k) ts.
Proof.
  induction ts as [|t ts IH]; intros m; cbn [foldl existsb].
  - by rewrite orb_false_r.
  - rewrite IH. destruct (sel t); cbn [andb orb]; [|done].
    rewrite map_has_map_set. by destruct (String.eqb (name t) k), (map_has k m).
Qed.

Lemma collect_NoDup ts : forall m, NoDup m.*1 -> NoDup (collect m ts).*1.
Proof.
  induction ts as [|t ts IH]; intros m Hnd; cbn [foldl]; [done|].
  apply IH. destruct (sel t); [by apply NoDup_map_set | done].
Qed.

Lemma collect_In n x ts : forall m,
  NoDup m.*1 ->
  In (n, x) (collect m ts) ->
  In (n, x) m \/ exists t, In t ts /\ sel t = true /\ (n, x) = (name t, inst t).
Proof.
  induction ts as [|t ts IH]; intros m Hnd; cbn [foldl]; [by left|].
  intros Hin. apply IH in Hin as [Hin|(t' & Ht' & Hsel & Heq)].
  - destruct (sel t) eqn:Hsel; [|by left].
    destruct (map_set_In_strong _ _ _ _ _ Hnd Hin) as [[-> ->]|[_ Hold]]; [|by left].
    right. exists t. split; [by left | done].
  - right. exists t'. split; [by right | done].
  - destruct (sel t); [by apply NoDup_map_set | done].
Qed.

Lemma collect_exact ts : forall m,
  NoDup (map name ts) ->
  (forall t, In t ts -> map_has (name t) m = false) ->
  collect m ts = (m ++ map (fun t => (name t, inst t)) (List.filter sel ts))%list.
Proof.
  induction ts as [|t ts IH]; intros m Hnd Hfresh; cbn [foldl List.filter map].
  - by rewrite app_nil_r.
  - cbn [map] in Hnd. apply NoDup_cons in Hnd as [Ht Hnd].
    destruct (sel t); cbn [map].
    + rewrite map_set_fresh by (apply Hfresh; by left).
      rewrite IH; [by rewrite <- app_assoc | done |].
      intros t' Ht'. rewrite map_has_app, (Hfresh t') by (by right). simpl.
      rewrite orb_false_r. apply String.eqb_neq. intros Heq. apply Ht.
      rewrite Heq. apply list_elem_of_In, in_map, Ht'.
    + apply IH; [done|]. intros t' Ht'. apply Hfresh. by right.
Qed.

End CollectProperties.

Section TunePartition.
Import JS Block.

Context {W : Type}.
Implicit Types (b : Block.t W) (ts : list (BlockTune W)).

(** The first loop of [composeTunes] fills each map from the tunes of its
    kind, in the order of the tool's list. *)
Lemma composeTunes_collect (tunesData : gmap string value) ts : forall b,
  let b' :=
    foldl (fun b tune =>
             let instance := tune_create W tune (get tunesData (tune_name W tune)) in
             if isInternal W tune
             then set_defaultTunesInstances W
                    (map_set (tune_name W tune) instance (defaultTunesInstances W b)) b
             else set_tunesInstances W
                    (map_set (tune_name W tune) instance (tunesInstances W b)) b)
          b ts in
  tunesInstances W b'
  = foldl (fun m tune =>
             if negb (isInternal W tune)
             then map_set (tune_name W tune) (snd (instance_of W tunesData tune)) m
             else m) (tunesInstances W b) ts
  /\ defaultTunesInstances W b'
     = foldl (fun m tune =>
                if isInternal W tune
                then map_set (tune_name W tune) (snd (instance_of W tunesData tune)) m
                else m) (defaultTunesInstances W b) ts.
Proof.
  induction ts as [|tune ts IH]; intros b; cbn [foldl]; [done|].
  cbv zeta in *. destruct (isInternal W tune); cbn [negb];
    match goal with
    | |- tunesInstances W (foldl _ ?b' ts) = _ /\ _ => destruct (IH b') as [-> ->]
    end; done.
Qed.

End TunePartition.

(** X15: how the constructor sorts the tool's tunes. Every tune of the
    tool gets one instance, made from the tunes data stored under its name:
    those that are not internal go to [tunesInstances], the internal ones
    to [defaultTunesInstances]; neither map holds a name twice, and when
    the tool's tune names are distinct the maps follow the order of the
    tool's list. The fresh [unavailableTunesData] object receives the data
    of every name that is not a user tune, the names of internal tunes
    included. *)
Theorem X15_constructor_sorts_tunes :
  forall (W : Type) (opts : Block.BlockConstructorOptions W) (e : Block.Env W),
    let b := fst (Block.new W opts e) in
    let ts := Block.tool_tunes W (Block.opt_tool W opts) in
    let tunesData := Block.opt_tunesData W opts in
    (forall k, Block.map_has k (Block.tunesInstances W b) = Block.is_user_tune W k ts)
    /\ (forall n x,
          In (n, x) (Block.tunesInstances W b) ->
          exists tune, In tune ts /\ Block.isInternal W tune = false
                       /\ (n, x) = Block.instance_of W tunesData tune)
    /\ (forall n x,
          In (n, x) (Block.defaultTunesInstances W b) ->
          exists tune, In tune ts /\ Block.isInternal W tune = true
                       /\ (n, x) = Block.instance_of W tunesData tune)
    /\ NoDup (Block.tunesInstances W b).*1
    /\ NoDup (Block.defaultTunesInstances W b).*1
    /\ (NoDup (map (Block.tune_name W) ts) ->
          Block.tunesInstances W b
          = map (Block.instance_of W tunesData)
                (List.filter (fun tune => negb (Block.isInternal W tune)) ts)
          /\ Block.defaultTunesInstances W b
             = map (Block.instance_of W tunesData)
                   (List.filter (Block.isInternal W) ts))
    /\ Block.unavailableTunesData W b = length (Block.heap W e)
    /\ exists o0,
         Block.heap W (snd (Block.new W opts e)) !! Block.unavailableTunesData W b
         = Some o0
         /\ forall k, o0 !! k
                      = if Block.is_user_tune W k ts then None else tunesData !! k.
Proof.
  intros W opts e b ts tunesData.
  destruct (new_spec opts e) as (Hu & _ & _ & _ & _ & _ & _ & _ & o0 & Ho0 & Hk).
  fold b in Hu, Ho0, Hk.
  assert (Hmaps :
    Block.tunesInstances W b
    = foldl (fun m tune =>
               if negb (Block.isInternal W tune)
               then Block.map_set (Block.tune_name W tune)
                      (snd (Block.instance_of W tunesData tune)) m
               else m) [] ts
    /\ Block.defaultTunesInstances W b
       = foldl (fun m tune =>
                  if Block.isInternal W tune
                  then Block.map_set (Block.tune_name W tune)
                         (snd (Block.instance_of W tunesData tune)) m
                  else m) [] ts).
  { subst b. unfold Block.new, Block.composeTunes. cbn [fst Block.tunes].
    apply (composeTunes_collect tunesData ts). }
  destruct Hmaps as [Huser Hdefault].
  assert (Hhas : forall k, Block.map_has k (Block.tunesInstances W b)
                           = Block.is_user_tune W k ts).
  { intros k. rewrite Huser. apply (collect_has (Block.tune_name W)). }
  split; [done|]. split; [|split; [|split; [|split; [|split; [|split]]]]].
  - intros n x Hin. rewrite Huser in Hin.
    apply (collect_In (Block.tune_name W)) in Hin as [[]|(t & Ht & Hsel & Heq)];
      [|apply NoDup_nil_2].
    exists t. split; [done|]. split; [by destruct (Block.isInternal W t) | done].
  - intros n x Hin. rewrite Hdefault in Hin.
    apply (collect_In (Block.tune_name W)) in Hin as [[]|(t & Ht & Hsel & Heq)];
      [|apply NoDup_nil_2].
    by exists t.
  - rewrite Huser. apply (collect_NoDup (Block.tune_name W)), NoDup_nil_2.
  - rewrite Hdefault. apply (collect_NoDup (Block.tune_name W)), NoDup_nil_2.
  - intros Hnd. rewrite Huser, Hdefault.
    split; (rewrite (collect_exact (Block.tune_name W)); [reflexivity | done | done]).
  - done.
  - exists o0. split; [done|]. intros k. by rewrite Hk, Hhas.
Qed.

(* ===================================================================== *)
(** * Block: failures of the active toolbox entry; selecting twice        *)
(* ===================================================================== *)

Section ToolboxFailures.
Import JS Block.

Variable equals : value -> value -> bool.

Lemma find_entry_throws (d : gmap string value) (items : list ToolboxConfigEntry) :
  forall i item,
    items !! i = Some item -> entry_data item = None ->
    (forall j item', (j < i)%nat -> items !! j = Some item' ->
       exists es, entry_data item' = Some es /\ entry_matches equals d es = false) ->
    find_entry equals d items
    = Throw "TypeError: Cannot convert undefined or null to object".
Proof.
  induction items as [|item0 items IH]; intros i item Hl Hnone Hbefore; [done|].
  destruct i as [|i]; simpl in Hl.
  - injection Hl as ->. simpl. by rewrite Hnone.
  - destruct (Hbefore 0%nat item0 ltac:(lia) eq_refl) as (es & Hes & Hm).
    simpl. rewrite Hes, Hm. apply (IH i item Hl Hnone).
    intros j item' Hj Hl'. apply (Hbefore (S j) item'); [lia | done].
Qed.

End ToolboxFailures.

Section SelectTwice.
Import Block.

Context {W : Type}.

Lemma addEventListener_present n l ls :
  has_listener n l ls = true -> addEventListener n l ls = ls.
Proof. intros H. unfold addEventListener. by rewrite H. Qed.

Lemma addInputEvents_present d ins : forall ls,
  (forall n l, Spec.targets d ins n l = true -> has_listener n l ls = true) ->
  foldl (fun ls input =>
           let ls := addEventListener input focus_handleFocus ls in
           if isNativeInput d input
           then addEventListener input input_didMutated ls else ls) ls ins = ls.
Proof.
  induction ins as [|i ins IH]; intros ls Hall; cbn [foldl]; [done|]. cbv zeta.
  rewrite (addEventListener_present i focus_handleFocus ls).
  2: { apply Hall. simpl. by rewrite Nat.eqb_refl. }
  destruct (isNativeInput d i) eqn:Hn.
  - rewrite (addEventListener_present i input_didMutated ls).
    2: { apply Hall. simpl. by rewrite Nat.eqb_refl, Hn. }
    apply IH. intros n l Ht. apply Hall. simpl. rewrite Ht. apply orb_true_r.
  - apply IH. intros n l Ht. apply Hall. simpl. rewrite Ht. apply orb_true_r.
Qed.

End SelectTwice.

(** X16: when the active toolbox entry cannot be told. With a single
    toolbox entry the answer is that entry, whatever it holds, and the tool
    is not asked to save. Otherwise a tool whose save fails makes the
    promise reject with the tool's error, and an entry without data that is
    reached before any entry matched makes it reject with a TypeError. *)
Theorem X16_active_entry_failures :
  forall (W : Type) (performance_now : W -> Z * W)
         (equals : JS.value -> JS.value -> bool)
         (b : Block.t W) (e : Block.Env W),
    let items := Block.toolbox W (Block.tool W b) in
    let saved := Block.tool_save W (Block.toolInstance W b) (Block.world W e) in
    (forall item, items = [item] ->
       Block.getActiveToolboxEntry W performance_now equals b e
       = (JS.Normal (Some item), e))
    /\ (length items <> 1%nat ->
        forall err, fst saved = JS.Throw err ->
          Block.getActiveToolboxEntry W performance_now equals b e
          = (JS.Throw err, Block.set_world W (snd saved) e))
    /\ (length items <> 1%nat ->
        forall d i item,
          fst saved = JS.Normal d ->
          items !! i = Some item -> Block.entry_data item = None ->
          (forall j item', (j < i)%nat -> items !! j = Some item' ->
             exists es, Block.entry_data item' = Some es
                        /\ Block.entry_matches equals d es = false) ->
          fst (Block.getActiveToolboxEntry W performance_now equals b e)
          = JS.Throw "TypeError: Cannot convert undefined or null to object").
Proof.
  intros W performance_now equals b e items saved. split; [|split].
  - intros item Hitems. by apply getActiveToolboxEntry_single.
  - intros Hlen err Herr. unfold Block.getActiveToolboxEntry. fold items.
    destruct (Nat.eqb_spec (length items) 1); [done|].
    unfold Block.data.
    rewrite (save_rejects performance_now b e err (snd saved)); [done|].
    subst saved. destruct (Block.tool_save _ _ _) as [r w]. simpl in *. by subst r.
  - intros Hlen d i item Hd Hl Hnone Hbefore.
    destruct (getActiveToolboxEntry_several performance_now equals b e d (snd saved) Hlen)
      as (e' & ->).
    + subst saved. destruct (Block.tool_save _ _ _) as [r w]. simpl in *. by subst r.
    + simpl. by apply (find_entry_throws equals d items i item).
Qed.

(** X17: [willSelect] turns observation on and leaves every input with the
    focus listener and every native input with the input listener, adding
    to the listeners that were there and touching nothing else; calling it
    again on the same document changes nothing, so no listener is ever
    attached twice. *)
Theorem X17_willSelect_attaches_once :
  forall (W : Type) (d : Block.Document) (b : Block.t W) (e : Block.Env W),
    let s1 := Block.willSelect W d (b, e) in
    let ins := fst (Block.inputs W d b) in
    Block.observing W (fst s1) = true
    /\ (forall n l,
          Block.has_listener n l (Block.listeners W (snd s1))
          = Block.has_listener n l (Block.listeners W e) || Spec.targets d ins n l)
    /\ (forall input, In input ins ->
          Block.has_listener input Block.focus_handleFocus
            (Block.listeners W (snd s1)) = true)
    /\ Block.world W (snd s1) = Block.world W e
    /\ Block.heap W (snd s1) = Block.heap W e
    /\ Block.trace W (snd s1) = Block.trace W e
    /\ Block.willSelect W d s1 = s1.
Proof.
  intros W d b e s1 ins.
  assert (Hs1 : s1 = (Block.set_observing W true (snd (Block.inputs W d b)),
                      Block.set_listeners W
                        (foldl (fun ls input =>
                                  let ls := Block.addEventListener input
                                              Block.focus_handleFocus ls in
                                  if Block.isNativeInput d input
                                  then Block.addEventListener input
                                         Block.input_didMutated ls
                                  else ls) (Block.listeners W e) ins) e)).
  { subst s1 ins. unfold Block.willSelect, Block.addInputEvents.
    rewrite inputs_observing. done. }
  assert (Hhas : forall n l,
            Block.has_listener n l (Block.listeners W (snd s1))
            = Block.has_listener n l (Block.listeners W e) || Spec.targets d ins n l).
  { intros n l. rewrite Hs1. cbn [snd]. destruct e as [w h ls tr].
    cbn [Block.set_listeners Block.listeners]. apply has_listener_added. }
  split; [by rewrite Hs1|]. split; [done|]. split; [|split; [|split; [|split]]].
  - intros input Hin. rewrite Hhas.
    rewrite (targets_true d ins input Block.focus_handleFocus Hin I). apply orb_true_r.
  - rewrite Hs1. by destruct e.
  - rewrite Hs1. by destruct e.
  - rewrite Hs1. by destruct e.
  - rewrite Hs1 at 1. unfold Block.willSelect, Block.addInputEvents.
    change (Block.set_observing W true
              (Block.set_observing W true (snd (Block.inputs W d b))))
      with (Block.set_observing W true (snd (Block.inputs W d b))).
    pose proof (inputs_stable d b true) as Hst. cbv zeta in Hst. rewrite Hst.
    fold ins. rewrite Hs1. destruct e as [w h ls tr].
    cbn [Block.set_listeners Block.listeners Block.world Block.heap Block.trace].
    rewrite addInputEvents_present; [done|]. intros n l Ht.
    rewrite has_listener_added, Ht. apply orb_true_r.
Qed.
